(** * MacHeap / ptypes: a shallow embedding of the binary type engine

    The development follows the Python sources of the repository:

    - [Bitmap]   : lib/ptypes/bitmap.py   (bit-vector values [(integer, size)])
    - [Macheap]  : lib/macheap.py         (the checksummed [ptr_union] pointer)
    - [Provider] : lib/ptypes/provider.py (the in-memory [string] provider)
    - [Ptype]    : lib/ptypes/ptype.py    (instances, load, serialize, shapes)
    - [Pstruct]  : lib/ptypes/pstruct.py  (structure loading)
    - [Parray]   : lib/ptypes/parray.py   (array insertion and the array loaders)
    - [Loader]   : the dispatch of [load] on the class of an instance
    - [Cast]     : lib/ptypes/ptype.py    ([base.cast], over a heap of objects)
    - [Dynamic]  : lib/ptypes/dynamic.py  (the [align] padding type)

    Python integers are unbounded, so they are embedded as [Z]; the bit
    operators [&], [|], [^], [~], [<<], [>>] are [Z.land], [Z.lor], [Z.lxor],
    [Z.lnot], [Z.shiftl], [Z.shiftr], which agree with Python on negative
    numbers as well (infinite two's complement, flooring shifts).  A Python
    exception is a [Raise] result. *)

From Stdlib Require Import ZArith Lia List Bool Arith.
From Stdlib Require String.
From Stdlib.Strings Require Import Byte.
From Stdlib Require Import Btauto.
From coqutil Require Import Z.bitblast.
Import ListNotations.

#[local] Set Warnings "-register-all".

Local Open Scope Z_scope.

(** ** Exceptions and results *)

Inductive exn : Type :=
| AssertionError
| TypeError
| ValueError
| ZeroDivisionError
| OverflowError
| IndexError
| StopIteration
| UserError
| ConsumeError
| LoadError
| SyntaxError
| InitializationError
| ProviderError.

Inductive result (A : Type) : Type :=
| Ok (a : A)
| Raise (e : exn).

Arguments Ok {A} a.
Arguments Raise {A} e.

Definition bind {A B : Type} (r : result A) (k : A -> result B) : result B :=
  match r with
  | Ok a => k a
  | Raise e => Raise e
  end.

Notation "'do' x <- r ; k" := (bind r (fun x => k))
  (at level 10, x pattern, r at level 100, k at level 200).

(** Python truthiness of an integer. *)
Definition truthy (z : Z) : bool := negb (z =? 0).

(** [ord] and [chr] on the characters of a byte string; [chr] raises
    [ValueError] outside [range(256)]. *)
Definition ord (c : byte) : Z := Z.of_N (Byte.to_N c).

Definition chr (x : Z) : result byte :=
  if (0 <=? x) && (x <? 256) then
    match Byte.of_N (Z.to_N x) with
    | Some c => Ok c
    | None => Raise ValueError
    end
  else Raise ValueError.

(** ** lib/ptypes/bitmap.py *)

Module Bitmap.

(** [bitmap = (integer, bits)]; a negative size marks a signed bitmap. *)
Definition bitmap : Type := (Z * Z)%type.

(** The representation invariant of a bitmap. *)
Definition wf (b : bitmap) : Prop := 0 <= fst b < 2 ^ Z.abs (snd b).

Definition new (value size : Z) : bitmap :=
  if size <? 0 then
    let mask := 2 ^ Z.abs size - 1 in
    (Z.land value mask, size)
  else
    let mask := 2 ^ Z.abs size - 1 in
    (Z.land value mask, size).

Definition zero : bitmap := new 0 0.

Definition size (b : bitmap) : Z := let '(v, s) := b in Z.abs s.

Definition signed (b : bitmap) : bool := let '(integer, size) := b in size <? 0.

Definition cast_signed (b : bitmap) : bitmap :=
  let '(integer, size) := b in (integer, - Z.abs size).

Definition cast_unsigned (b : bitmap) : bitmap :=
  let '(integer, size) := b in (integer, Z.abs size).

(** [value]: the integral part of a bitmap, two's complement when signed. *)
Definition value (b : bitmap) : Z :=
  let '(v, s) := b in
  if s <? 0 then
    let signmask := 2 ^ (Z.abs s - 1) in
    let res := Z.land v (signmask - 1) in
    if truthy (Z.land v signmask) then (signmask - res) * -1
    else Z.land res (signmask - 1)
  else v.

Definition number := value.

(** [range(position, position+count)] *)
Definition range (position count : Z) : list Z :=
  map (fun i => position + Z.of_nat i) (seq 0 (Z.to_nat count)).

(** [reduce(lambda r,v: 1<<v | r, range(position, position+count), 0)] *)
Definition bitrange_mask (position count : Z) : Z :=
  fold_left (fun r v => Z.lor (Z.shiftl 1 v) r) (range position count) 0.

Definition set (b : bitmap) (position : Z) (value : bool) (count : Z)
  : result bitmap :=
  let '(integer, size) := b in
  if (count <? 0) || (position <? 0) then Raise AssertionError
  else if position + count >? Z.abs size then Raise AssertionError
  else
    let mask := bitrange_mask position count in
    let size := Z.abs size in
    if value then Ok (Z.lor integer mask, size)
    else Ok (Z.land integer (Z.lnot mask), size).

Definition get (b : bitmap) (position count : Z) : result bitmap :=
  let '(integer, size) := b in
  if (count <? 0) || (position <? 0) then Raise AssertionError
  else if position + count >? Z.abs size then Raise AssertionError
  else
    let mask := bitrange_mask position count in
    Ok (Z.shiftr (Z.land integer mask) position, count).

Definition add (b : bitmap) (integer : Z) : bitmap :=
  let '(n, sz) := b in
  let mask := Z.shiftl 1 (Z.abs sz) - 1 in
  (Z.land (integer + n) mask, sz).

Definition sub (b : bitmap) (integer : Z) : bitmap :=
  let '(n, sz) := b in
  let mask := Z.shiftl 1 (Z.abs sz) - 1 in
  (Z.land (n - integer) mask, sz).

(** The local rebinding of [n] shared by [mul], [div] and [mod]. *)
Definition signed_operand (n size : Z) : Z :=
  let max := 2 ^ Z.abs size in
  if size <? 0 then
    let sf := 2 ^ (Z.abs size - 1) in
    if truthy (Z.land n sf) then n - max else Z.land n (sf - 1)
  else n.

Definition mul (b : bitmap) (integer : Z) : bitmap :=
  let '(n, size) := b in
  let max := 2 ^ Z.abs size in
  let n := signed_operand n size in
  (Z.land (n * integer) (max - 1), size).

(** Python's [%] floors and raises on a zero divisor. *)
Definition mod_ (b : bitmap) (integer : Z) : result bitmap :=
  let '(n, size) := b in
  let max := 2 ^ Z.abs size in
  let n := signed_operand n size in
  if integer =? 0 then Raise ZeroDivisionError
  else Ok (Z.land (n mod integer) (max - 1), size).

Section FloatDivision.

(** [div] goes through floating point: [int(float(n)/integer)].  The
    truncated float quotient is kept abstract; it may raise
    ([ZeroDivisionError], [OverflowError]). *)
Variable float_quotient : Z -> Z -> result Z.

Definition div (b : bitmap) (integer : Z) : result bitmap :=
  let '(n, size) := b in
  let max := 2 ^ Z.abs size in
  let n := signed_operand n size in
  do q <- float_quotient n integer;
  Ok (Z.land q (max - 1), size).

End FloatDivision.

(** [grow] and [shrink] call each other on a negative count; the callee
    then runs its non-negative branch. *)
Definition grow_nonneg (b : bitmap) (count : Z) : bitmap :=
  let '(integer, size) := b in
  (Z.shiftl integer count, size + count * (if size <? 0 then -1 else 1)).

Definition shrink_nonneg (b : bitmap) (count : Z) : bitmap :=
  let '(integer, size) := b in
  (Z.shiftr integer count, size - count * (if size <? 0 then -1 else 1)).

Definition grow (b : bitmap) (count : Z) : bitmap :=
  if count <? 0 then shrink_nonneg b (- count) else grow_nonneg b count.

Definition shrink (b : bitmap) (count : Z) : bitmap :=
  if count <? 0 then grow_nonneg b (- count) else shrink_nonneg b count.

Definition push (b operand : bitmap) : bitmap :=
  let '(result, rbits) := b in
  let '(number, nbits) := operand in
  let rmask := 2 ^ Z.abs rbits - 1 in
  let nmask := 2 ^ Z.abs nbits - 1 in
  let res := Z.land result rmask in
  let res := Z.shiftl res (Z.abs nbits) in
  let res := Z.lor res (Z.land number nmask) in
  (res, if rbits <? 0 then rbits - Z.abs nbits else rbits + Z.abs nbits).

(** [insert] takes no absolute value of the sizes.  With a negative size
    [2**size - 1] is a Python float, and [int & float] raises [TypeError];
    [res <<= rbits] with a negative [rbits] raises [ValueError]. *)
Definition insert (b operand : bitmap) : result bitmap :=
  let '(result, rbits) := b in
  let '(number, nbits) := operand in
  if nbits <? 0 then Raise TypeError          (* number & nmask *)
  else
    let nmask := 2 ^ nbits - 1 in
    let res := Z.land number nmask in
    if rbits <? 0 then Raise ValueError       (* res <<= rbits *)
    else
      let rmask := 2 ^ rbits - 1 in
      let res := Z.shiftl res rbits in
      let res := Z.lor res (Z.land result rmask) in
      Ok (res, nbits + rbits).

Definition consume (b : bitmap) (bits : Z) : result (bitmap * Z) :=
  if bits <? 0 then Raise AssertionError
  else
    let integersize := bits in
    let integermask := 2 ^ bits in
    let '(bitmapinteger, bitmapsize) := b in
    let integersize :=
      if integersize >? Z.abs bitmapsize then Z.abs bitmapsize
      else integersize in
    let res := Z.land bitmapinteger (integermask - 1) in
    if bitmapsize <? 0 then
      let signmask := Z.shiftr integermask 1 in
      let res :=
        if truthy (Z.land res signmask)
        then Z.land res (signmask - 1) - Z.shiftr integermask 1
        else Z.land res (signmask - 1) in
      Ok ((Z.shiftr bitmapinteger integersize, bitmapsize + integersize), res)
    else
      Ok ((Z.shiftr bitmapinteger integersize, bitmapsize - integersize), res).

Definition shift (b : bitmap) (bits : Z) : result (bitmap * Z) :=
  if bits <? 0 then Raise AssertionError
  else
    let integermask := 2 ^ bits in
    let '(bitmapinteger, bitmapsize) := b in
    let bits := if bits >? Z.abs bitmapsize then Z.abs bitmapsize else bits in
    let shifty := Z.abs bitmapsize - bits in
    let mask := Z.shiftl (integermask - 1) shifty in
    if bitmapsize <? 0 then
      let signmask := Z.shiftr integermask 1 in
      let res := Z.shiftr (Z.land bitmapinteger mask) shifty in
      let res :=
        if truthy (Z.land res signmask)
        then Z.land res (signmask - 1) - Z.shiftr integermask 1
        else Z.land res (signmask - 1) in
      Ok ((Z.land bitmapinteger (Z.lnot mask), - shifty), res)
    else
      let res := Z.shiftr (Z.land bitmapinteger mask) shifty in
      Ok ((Z.land bitmapinteger (Z.lnot mask), shifty), res).

(** [ror] and [rol] are lambdas over [(v,b)] and [shift].  A negative
    exponent makes [2**x] a float and a negative shift count is an error,
    so they only return for [0 <= shift <= b]. *)
Definition ror (vb : bitmap) (shift : Z) : result bitmap :=
  let '(v, b) := vb in
  if shift <? 0 then Raise TypeError          (* v & 2**shift-1 *)
  else if b - shift <? 0 then Raise ValueError (* << b-shift *)
  else
    Ok (Z.land (Z.lor (Z.shiftl (Z.land v (2 ^ shift - 1)) (b - shift))
                      (Z.shiftr v shift))
               (2 ^ b - 1), b).

Definition rol (vb : bitmap) (shift : Z) : result bitmap :=
  let '(v, b) := vb in
  if shift <? 0 then Raise ValueError         (* v << shift *)
  else if (b <? 0) || (b - shift <? 0) then Raise TypeError
  else
    Ok (Z.land (Z.lor (Z.shiftl v shift)
                      (Z.shiftr
                         (Z.land v (Z.lxor (2 ^ b - 1) (2 ^ (b - shift) - 1)))
                         (b - shift)))
               (2 ^ b - 1), b).

(** [splitter] is a generator whose loop removes [maxsize] bits per round.
    The loop is run for at most one round per bit of the bitmap plus one;
    with [maxsize = 0] Python never leaves the loop, which is [None] here. *)
Fixpoint splitter_loop (fuel : nat) (b : bitmap) (maxsize sf : Z)
  : option (result (list bitmap)) :=
  match fuel with
  | O => None
  | S fuel' =>
      let '(v, s) := b in
      if s <? maxsize then
        Some (Ok (if s >? 0 then [(v, s * sf)] else []))
      else
        match consume b maxsize with
        | Raise e => Some (Raise e)
        | Ok (b', v') =>
            match splitter_loop fuel' b' maxsize sf with
            | Some (Ok rest) => Some (Ok ((v', maxsize * sf) :: rest))
            | other => other
            end
        end
  end.

Definition splitter (b : bitmap) (maxsize : Z)
  : option (result (list bitmap)) :=
  let sf := if maxsize <? 0 then -1 else 1 in
  let maxsize := Z.abs maxsize in
  splitter_loop (S (Z.to_nat (snd b))) b maxsize sf.

(** [split]: the chunks of [splitter], most significant first. *)
Definition split (b : bitmap) (maxsize : Z) : option (result (list bitmap)) :=
  match splitter b maxsize with
  | Some (Ok l) => Some (Ok (rev l))
  | other => other
  end.

(** [join]: [reduce(push, iterable, (0,0))] *)
Definition join (l : list bitmap) : bitmap := fold_left push l (0, 0).

(** The [for i in range(size)] loop of [scan]. *)
Fixpoint scan_loop (n : nat) (integer size bitmask position : Z)
  (value : bool) : Z :=
  match n with
  | O => position
  | S n =>
      if Bool.eqb (truthy (Z.land integer bitmask)) value || (position >=? size)
      then position
      else scan_loop n integer size (Z.shiftl bitmask 1) (position + 1) value
  end.

(** [scan]: the position of the first bit equal to [value], searching
    from [position] upwards. *)
Definition scan (b : bitmap) (value : bool) (position : Z) : result Z :=
  let '(integer, size) := b in
  if (position <? 0) || (position >? Z.abs size) then Raise AssertionError
  else
    let size := Z.abs size in
    let bitmask := Z.shiftl 1 position in
    Ok (scan_loop (Z.to_nat size) integer size bitmask position value).

(** [runlength]: the count of bits equal to [value] from [position] on. *)
Definition runlength (b : bitmap) (value : bool) (position : Z) : result Z :=
  let '(integer, size) := b in
  if (position <? 0) || (position >? Z.abs size) then Raise AssertionError
  else
    do p <- scan b (negb value) position;
    Ok (p - position).

(** [reverse]: the loop moves one bit per round from the low end of the
    bitmap to the low end of the result, until the result has [sz] bits;
    [sz] is the size as stored, sign included. *)
Fixpoint reverse_loop (fuel : nat) (res b : bitmap) (sz : Z)
  : option (result bitmap) :=
  match fuel with
  | O => None
  | S fuel =>
      if size res <? sz then
        match consume b 1 with
        | Raise e => Some (Raise e)
        | Ok (b, value) => reverse_loop fuel (push res (value, 1)) b sz
        end
      else Some (Ok res)
  end.

Definition reverse (b : bitmap) : option (result bitmap) :=
  let '(_, sz) := b in
  reverse_loop (S (Z.to_nat sz)) (0, 0) b sz.

(** [iterate] and [riterate] are generators; the list is what they yield.
    One bit leaves the bitmap per round. *)
Fixpoint iterate_loop (fuel : nat) (b : bitmap) : option (result (list bool)) :=
  match fuel with
  | O => None
  | S fuel =>
      if size b >? 0 then
        match shift b 1 with
        | Raise e => Some (Raise e)
        | Ok (b, value) =>
            match iterate_loop fuel b with
            | Some (Ok rest) => Some (Ok (truthy value :: rest))
            | other => other
            end
        end
      else Some (Ok [])
  end.

Definition iterate (b : bitmap) : option (result (list bool)) :=
  iterate_loop (S (Z.to_nat (size b))) b.

Fixpoint riterate_loop (fuel : nat) (b : bitmap) : option (result (list bool)) :=
  match fuel with
  | O => None
  | S fuel =>
      if size b >? 0 then
        match consume b 1 with
        | Raise e => Some (Raise e)
        | Ok (b, value) =>
            match riterate_loop fuel b with
            | Some (Ok rest) => Some (Ok (truthy value :: rest))
            | other => other
            end
        end
      else Some (Ok [])
  end.

Definition riterate (b : bitmap) : option (result (list bool)) :=
  riterate_loop (S (Z.to_nat (size b))) b.

(** [class consumer]: an iterator over the characters of a string and a
    cache of the bits read from it and not yet handed out. *)
Record consumer : Type := mk_consumer { source : list byte; cache : bitmap }.

(** The loop of [consumer.read]; [next(self.source)] raises
    [StopIteration] on an exhausted iterator, and the characters taken
    before that are gone. *)
Fixpoint read_loop (n : nat) (source : list byte) (res count : Z)
  : list byte * result (Z * Z) :=
  match n with
  | O => (source, Ok (res, count))
  | S n =>
      match source with
      | [] => ([], Raise StopIteration)
      | c :: source => read_loop n source (res * 256 + ord c) (count + 1)
      end
  end.

Definition consumer_read (c : consumer) (bytes : Z) : consumer * result Z :=
  if bytes <? 0 then (c, Raise AssertionError)
  else
    match read_loop (Z.to_nat bytes) (source c) 0 0 with
    | (source, Raise e) => (mk_consumer source (cache c), Raise e)
    | (source, Ok (res, count)) =>
        (mk_consumer source (push (cache c) (new res (count * 8))), Ok count)
    end.

(** [consumer.consume] calls itself again after reading the missing
    bytes; every such round takes at least one character off the source
    or raises. *)
Fixpoint consumer_consume_loop (fuel : nat) (c : consumer) (bits : Z)
  : option (consumer * result Z) :=
  match fuel with
  | O => None
  | S fuel =>
      if bits >? snd (cache c) then
        let count := bits - snd (cache c) in
        let bs := (count + 7) / 8 in
        match consumer_read c bs with
        | (c, Raise e) => Some (c, Raise e)
        | (c, Ok _) => consumer_consume_loop fuel c bits
        end
      else
        match shift (cache c) bits with
        | Raise e => Some (c, Raise e)
        | Ok (cache, res) => Some (mk_consumer (source c) cache, Ok res)
        end
  end.

Definition consumer_consume (c : consumer) (bits : Z)
  : option (consumer * result Z) :=
  consumer_consume_loop (S (S (length (source c)))) c bits.

End Bitmap.

(** ** lib/macheap.py : the checksummed free-list pointer *)

Module Macheap.

(** The pointer value type [pointer_t._value_] stores an integer through
    [bitmap.new(offset, bs*8)] and reads the same bytes back, so
    [object.copy().set(v).get()] is [v] reduced to the pointer width. *)
Definition pointer_set (size_ v : Z) : Z := fst (Bitmap.new v (size_ * 8)).

(** [ptr_union.generate_checksum]; [size_] is [self.size()] in bytes. *)
Definition generate_checksum (size_ ptr : Z) : option (result Z) :=
  let pu := Bitmap.new ptr (size_ * 8) in
  match Bitmap.split pu 8 with
  | None => None
  | Some (Raise e) => Some (Raise e)
  | Some (Ok chunks) =>
      let res := fold_left Bitmap.add (map Bitmap.number chunks)
                           (Bitmap.new 0 8) in
      Some (Ok (Z.land (Bitmap.number res) 15))
  end.

(** The outcome of [decode]: the pointer value held by the returned object
    and whether the checksum warning was logged. *)
Record decoded : Type := mk_decoded { pointer : Z; warned : bool }.

(** [ptr_union.decode], with [pu = object.get()], the zone's [cookie] and
    [size_ = object.size()]. *)
Definition decode (size_ cookie pu : Z) : option (result decoded) :=
  let t := Bitmap.new pu (size_ * 8) in
  match Bitmap.rol t 4 with
  | Raise e => Some (Raise e)
  | Ok t =>
      let ptr := Z.land (Bitmap.number t) (Z.lnot 15) in
      let cs := Z.lxor ptr cookie in
      match generate_checksum size_ cs with
      | None => None
      | Some (Raise e) => Some (Raise e)
      | Some (Ok sum) =>
          let mismatch := negb (Z.land (Bitmap.number t) 15 =? sum) in
          Some (Ok (mk_decoded (pointer_set size_ ptr) mismatch))
      end
  end.

(** [ptr_union.encode]: the integer held by the returned object. *)
Definition encode (size_ cookie pu : Z) : option (result Z) :=
  match generate_checksum size_ (Z.lxor pu cookie) with
  | None => None
  | Some (Raise e) => Some (Raise e)
  | Some (Ok csum) =>
      let t := Bitmap.new pu (size_ * 8) in
      match Bitmap.rol t 4 with
      | Raise e => Some (Raise e)
      | Ok t =>
          let cs := Bitmap.new (Z.lor (Bitmap.number t) csum) (Bitmap.size t) in
          match Bitmap.ror cs 4 with
          | Raise e => Some (Raise e)
          | Ok cs => Some (Ok (pointer_set size_ (Bitmap.number cs)))
          end
      end
  end.

(** [decode] applied to the object produced by [encode]. *)
Definition decode_encode (size_ cookie pu : Z) : option (result decoded) :=
  match encode size_ cookie pu with
  | None => None
  | Some (Raise e) => Some (Raise e)
  | Some (Ok raw) => decode size_ cookie raw
  end.

(** [ptr_union.get_pointer] and [ptr_union.get_checksum], from the raw
    integer [pu = self.int()] of a pointer of [size_] bytes. *)
Definition get_pointer (size_ pu : Z) : result Z :=
  do res <- Bitmap.rol (Bitmap.new pu (size_ * 8)) 4;
  Ok (Z.land (Bitmap.number res) (Z.lnot 15)).

Definition get_checksum (size_ pu : Z) : result Z :=
  do t <- Bitmap.rol (Bitmap.new pu (size_ * 8)) 4;
  Ok (Z.land (Bitmap.number t) 15).

(** [tiny_header_inuse_pair_t.__uint32_t.bitmap], for a loaded four-byte
    field whose [int()] is [word]. *)
Definition field_bitmap (word : Z) : Bitmap.bitmap := Bitmap.new word (4 * 8).

(** [tiny_meta_data.__item_aggregate]: the bitmaps of one field of every
    element, each inserted above the ones before it. *)
Definition item_aggregate (fields : list Z) : result Bitmap.bitmap :=
  fold_left (fun r word => do acc <- r; Bitmap.insert acc (field_bitmap word))
            fields (Ok Bitmap.zero).

(** [tiny_meta_data.get]: the element and the bit of a block index. *)
Definition meta_get (index : Z) : Z * Z := (index / 32, index mod 32).

(** [tiny_meta_data.__check_header] and [freeQ], from the [header] and
    [inuse] fields of the elements. *)
Definition check_header (header : list Z) (index : Z) : result Z :=
  do h <- item_aggregate header;
  do bit <- Bitmap.get h index 1;
  if Bitmap.value bit =? 0 then Raise ValueError else Ok index.

Definition freeQ (header inuse : list Z) (index : Z) : result bool :=
  do index <- check_header header index;
  do i <- item_aggregate inuse;
  do bit <- Bitmap.get i index 1;
  Ok (Bitmap.value bit =? 0).

End Macheap.

(** ** lib/ptypes/provider.py *)

Definition bytes : Type := list byte.

(** The provider interface: [seek] returns the previous offset, [consume]
    returns the bytes read or raises; both update the provider's cursor. *)
Class provider (P : Type) : Type := {
  seek : P -> Z -> Z * P;
  consume : P -> Z -> P * result bytes
}.

Module Provider.

(** Python slicing [l[lo:hi]] on a sequence, negative indices counting from
    the end. *)
Definition py_index (n i : Z) : Z :=
  if i <? 0 then Z.max 0 (i + n) else Z.min i n.

Definition py_slice {A : Type} (l : list A) (lo hi : Z) : list A :=
  let n := Z.of_nat (length l) in
  let a := py_index n lo in
  let b := py_index n hi in
  firstn (Z.to_nat (b - a)) (skipn (Z.to_nat a) l).

(** [provider.string]: a byte array and the current offset. *)
Record string : Type := mk_string { data : bytes; offset : Z }.

Definition string_seek (p : string) (o : Z) : Z * string :=
  (offset p, mk_string (data p) o).

(** [string.consume].  For a negative amount the [UserError] is never
    built: its message formats the integer [amount] with [{:s}], which is
    a [ValueError], and the [mapexception] decorator of the method turns
    every exception other than [ConsumeError] and [UserError] into a
    [ProviderError]. *)
Definition string_consume (p : string) (amount : Z) : string * result bytes :=
  if amount <? 0 then (p, Raise ProviderError)
  else if amount =? 0 then (p, Ok [])
  else if offset p >=? Z.of_nat (length (data p)) then (p, Raise ConsumeError)
  else
    let minimum := Z.min (offset p + amount) (Z.of_nat (length (data p))) in
    let res := py_slice (data p) (offset p) minimum in
    match res with
    | [] => (p, Raise ConsumeError)
    | _ =>
        if Z.of_nat (length res) =? amount
        then (mk_string (data p) (offset p + amount), Ok res)
        else (p, Ok res)
    end.

#[export] Instance string_provider : provider string := {
  seek := string_seek;
  consume := string_consume
}.

(** Slice assignment [l[lo:hi] = x] on an [array.array]: the bounds are
    clipped like those of a slice, and an upper bound below the lower one
    is taken as the lower one. *)
Definition py_slice_assign {A : Type} (l : list A) (lo hi : Z) (x : list A)
  : list A :=
  let n := Z.of_nat (length l) in
  let a := py_index n lo in
  let b := Z.max a (py_index n hi) in
  firstn (Z.to_nat a) l ++ x ++ skipn (Z.to_nat b) l.

(** [string.store]: the bytes are written over the data at the cursor,
    which moves past them; the number of bytes written is returned. *)
Definition string_store (p : string) (d : bytes) : string * result Z :=
  let left := offset p in
  let right := offset p + Z.of_nat (length d) in
  (mk_string (py_slice_assign (data p) left right d) right,
   Ok (Z.of_nat (length d))).

(** [string.size] *)
Definition string_size (p : string) : Z := Z.of_nat (length (data p)).

End Provider.

(** ** lib/ptypes/ptype.py : instances *)

Module Ptype.

(** An instance is either atomic ([ptype.type]: a position, the declared
    [length] and the bytes read so far, [None] before any read) or a
    container (a position and the list of its sub-instances, [None] until
    a value is assigned).  A container stands for [ptype.container] and
    for the classes that inherit its [size], [blocksize], [initializedQ],
    [setposition], [__deserialize_block__] and [serialize]: [pstruct.type]
    and [parray.type].  Children are owned by their container, so an
    instance is a tree. *)
Inductive instance : Type :=
| type_ (position : Z) (length : nat) (value : option bytes)
| container_ (position : Z) (value : option (list instance)).

Definition getoffset (i : instance) : Z :=
  match i with
  | type_ position _ _ => position
  | container_ position _ => position
  end.

(** [type.initializedQ] *)
Definition type_initializedQ (length : nat) (value : option bytes) : bool :=
  match value with
  | Some v => (length <=? List.length v)%nat
  | None => false
  end.

(** [type.size] *)
Definition type_size (length : nat) (value : option bytes) : nat :=
  match value with
  | Some v =>
      if type_initializedQ length value || negb (List.length v =? 0)%nat
      then List.length v else 0%nat
  | None => 0%nat
  end.

(** [blocksize]: the declared length of an atomic type, the sum over the
    children for a container ([InitializationError] without a value). *)
Fixpoint blocksize (i : instance) : result nat :=
  match i with
  | type_ _ length _ => Ok length
  | container_ _ None => Raise InitializationError
  | container_ _ (Some l) =>
      (fix sum (l : list instance) : result nat :=
         match l with
         | [] => Ok 0%nat
         | n :: rest =>
             do b <- blocksize n;
             do s <- sum rest;
             Ok (b + s)%nat
         end) l
  end.

(** [size]: the number of bytes in use. *)
Fixpoint size (i : instance) : nat :=
  match i with
  | type_ _ length value => type_size length value
  | container_ _ None => 0%nat
  | container_ _ (Some l) => list_sum (map size l)
  end.

(** [initializedQ].  For a container [self.blocksize()] is only evaluated
    once every child is initialized, and then it cannot raise. *)
Fixpoint initializedQ (i : instance) : bool :=
  match i with
  | type_ _ length value => type_initializedQ length value
  | container_ _ None => false
  | container_ _ (Some l) =>
      forallb initializedQ l &&
      match blocksize i with
      | Ok bs => (bs <=? size i)%nat
      | Raise _ => false
      end
  end.

(** [container.setposition]; on an atomic instance this is
    [_base_generic.setposition].  The children already moved stay moved
    when a [blocksize()] raises. *)
Fixpoint setposition (offset : Z) (recurse : bool) (i : instance)
  : instance * option exn :=
  match i with
  | type_ _ length value => (type_ offset length value, None)
  | container_ _ value =>
      if recurse then
        match value with
        | None => (container_ offset None, None)
        | Some l =>
            let '(l', e) :=
              (fix walk (offset : Z) (l : list instance)
                 : list instance * option exn :=
                 match l with
                 | [] => ([], None)
                 | n :: rest =>
                     let '(n', e) := setposition offset recurse n in
                     match e with
                     | Some ex => (n' :: rest, Some ex)
                     | None =>
                         match (if initializedQ n' then Ok (size n')
                                else blocksize n') with
                         | Raise ex => (n' :: rest, Some ex)
                         | Ok d =>
                             let '(rest', e') :=
                               walk (offset + Z.of_nat d) rest in
                             (n' :: rest', e')
                         end
                     end
                 end) offset l in
            (container_ offset (Some l'), e)
        end
      else (container_ offset value, None)
  end.

Definition setoffset (offset : Z) (recurse : bool) (i : instance)
  : instance * option exn :=
  setposition offset recurse i.

(** [self.blocksize()] while a [blocksize] attribute is temporarily assigned
    ([load(blocksize=lambda: bs)]). *)
Definition own_blocksize (override : option nat) (i : instance) : result nat :=
  match override with
  | Some bs => Ok bs
  | None => blocksize i
  end.

(** [__deserialize_block__] of [ptype.type] and of [ptype.container].  The
    bytes assigned before an exception stay assigned. *)
Fixpoint deserialize_block (override : option nat) (i : instance)
  (block : bytes) {struct i} : instance * option exn :=
  match i with
  | type_ position length _ =>
      let bs := match override with Some b => b | None => length end in
      if (List.length block <? bs)%nat
      then (type_ position length (Some (firstn bs block)), Some StopIteration)
      else (type_ position length (Some (firstn bs block)), None)
  | container_ _ None => (i, Some SyntaxError)
  | container_ position (Some l) =>
      match own_blocksize override i with
      | Raise e => (i, Some e)
      | Ok expected =>
          let '(l', e, total) :=
            (fix loop (l : list instance) (block : bytes) (total : nat)
               : list instance * option exn * nat :=
               match l with
               | [] => ([], None, total)
               | res :: rest =>
                   match blocksize res with
                   | Raise ex => (res :: rest, Some ex, total)
                   | Ok bs =>
                       if (total <? expected)%nat then
                         (* read everything up to the blocksize *)
                         let '(res', e) :=
                           deserialize_block None res (firstn bs block) in
                         match e with
                         | Some ex => (res' :: rest, Some ex, total)
                         | None =>
                             let '(rest', e', total') :=
                               loop rest (skipn bs block) (total + bs)%nat in
                             (res' :: rest', e', total')
                         end
                       else if negb (bs =? 0)%nat then
                         (* the second loop stops at a sized element *)
                         (res :: rest, None, total)
                       else
                         (* ..and then fill out any zero sized elements *)
                         let '(res', e) :=
                           deserialize_block None res (firstn bs block) in
                         match e with
                         | Some ex => (res' :: rest, Some ex, total)
                         | None =>
                             let '(rest', e', total') :=
                               loop rest block total in
                             (res' :: rest', e', total')
                         end
                   end
               end) l block 0%nat in
          match e with
          | Some ex => (container_ position (Some l'), Some ex)
          | None =>
              if (total <? expected)%nat
              then (container_ position (Some l'), Some StopIteration)
              else if (expected <? total)%nat
              then (container_ position (Some l'), Some LoadError)
              else (container_ position (Some l'), None)
          end
      end
  end.

(** The loops of the functions above under names of their own; each is the
    local [fix] of its function, word for word. *)
Definition sum_blocksize : list instance -> result nat :=
  fix sum (l : list instance) : result nat :=
    match l with
    | [] => Ok 0%nat
    | n :: rest =>
        do b <- blocksize n;
        do s <- sum rest;
        Ok (b + s)%nat
    end.

Definition walk_children (recurse : bool)
  : Z -> list instance -> list instance * option exn :=
  fix walk (offset : Z) (l : list instance) : list instance * option exn :=
    match l with
    | [] => ([], None)
    | n :: rest =>
        let '(n', e) := setposition offset recurse n in
        match e with
        | Some ex => (n' :: rest, Some ex)
        | None =>
            match (if initializedQ n' then Ok (size n') else blocksize n') with
            | Raise ex => (n' :: rest, Some ex)
            | Ok d =>
                let '(rest', e') := walk (offset + Z.of_nat d) rest in
                (n' :: rest', e')
            end
        end
    end.

Definition deserialize_children (expected : nat)
  : list instance -> bytes -> nat -> list instance * option exn * nat :=
  fix loop (l : list instance) (block : bytes) (total : nat)
    : list instance * option exn * nat :=
    match l with
    | [] => ([], None, total)
    | res :: rest =>
        match blocksize res with
        | Raise ex => (res :: rest, Some ex, total)
        | Ok bs =>
            if (total <? expected)%nat then
              let '(res', e) := deserialize_block None res (firstn bs block) in
              match e with
              | Some ex => (res' :: rest, Some ex, total)
              | None =>
                  let '(rest', e', total') :=
                    loop rest (skipn bs block) (total + bs)%nat in
                  (res' :: rest', e', total')
              end
            else if negb (bs =? 0)%nat then (res :: rest, None, total)
            else
              let '(res', e) := deserialize_block None res (firstn bs block) in
              match e with
              | Some ex => (res' :: rest, Some ex, total)
              | None =>
                  let '(rest', e', total') := loop rest block total in
                  (res' :: rest', e', total')
              end
        end
    end.

(** An entry of the log written through [Log]. *)
Inductive log_entry : Type :=
| Log_unable_to_complete_read   (* container.load, warning *)
| Log_cropped                   (* container.load, debug *)
| Log_cast_error                (* base.cast, warning *)
| Log_cast_smaller              (* base.cast, info *)
| Log_cast_partial.             (* base.cast, warning *)

Section Load.

Context {P : Type} `{provider P}.

(** [base.load]: seek, consume [blocksize()] bytes, deserialize.  A
    [StopIteration] or a provider error becomes a [LoadError]. *)
Definition base_load (src : P) (override : option nat) (offset : option Z)
  (i : instance) : P * instance * option exn :=
  let ofs := match offset with Some o => o | None => getoffset i end in
  match own_blocksize override i with
  | Raise e => (src, i, Some e)
  | Ok bs =>
      let '(_, src) := seek src ofs in
      let '(src, r) := consume src (Z.of_nat bs) in
      match r with
      | Raise UserError => (src, i, Some UserError)
      | Raise _ => (src, i, Some LoadError)
      | Ok block =>
          let '(i', e) := deserialize_block override i block in
          match e with
          | Some StopIteration => (src, i', Some LoadError)
          | other => (src, i', other)
          end
      end
  end.

(** [container.load] with [Config.ptype.noncontiguous] at its default
    [False].  A [LoadError] is caught: the source is sought past the block,
    a message is logged and [self] is returned.

    The handler runs outside the attribute assignment of [base.load].  When
    the attributes were given to this call ([ambient = false]) it therefore
    sees the instance's own blocksize, offset and source; when the caller
    holds them assigned around the call ([ambient = true], as
    [pstruct.type.load] does) it still sees the assigned ones.
    [passed_source] tells whether a [source=] attribute was given: the
    instance's own source is then another provider, and the offset it is
    sought to is returned for the caller. *)
Definition container_load (src : P) (ambient passed_source : bool)
  (override : option nat) (offset : option Z) (i : instance)
  : P * instance * option exn * list log_entry * option Z :=
  match i with
  | container_ _ None => (src, i, Some UserError, [], None)
  | _ =>
      let '(src, i', e) := base_load src override offset i in
      match e with
      | Some LoadError =>
          let ofs := if ambient
                     then match offset with Some o => o | None => getoffset i' end
                     else getoffset i' in
          match (if ambient then own_blocksize override i' else blocksize i') with
          | Raise ex => (src, i', Some ex, [], None)
          | Ok bs =>
              let s := size i' in
              let entry := if (s <? bs)%nat then Log_unable_to_complete_read
                           else Log_cropped in
              if passed_source && negb ambient
              then (src, i', None, [entry], Some (ofs + Z.of_nat bs))
              else (snd (seek src (ofs + Z.of_nat bs)), i', None, [entry], None)
          end
      | other => (src, i', other, [], None)
      end
  end.

End Load.

(** *** Serialization *)

Definition maxint : Z := 2 ^ 63 - 1.

(** [utils.padding.fill(amount, self.padding)] with the default zero
    padding source. *)
Definition padding_fill (amount : Z) : bytes := repeat x00 (Z.to_nat amount).

(** What [serialize] reads of [self.parent] when it is a container: the
    outcome of [parent.blocksize()] and [parent.getoffset()]. *)
Definition parent_view : Type := option (result nat * Z).

(** Clamping a blocksize to the bounds of the parent element. *)
Definition clamp_to_parent (parent : parent_view) (position : Z) (res : Z)
  : result Z :=
  match parent with
  | None => Ok res
  | Some (Raise e, _) => Raise e
  | Some (Ok parentSize, parentOffset) =>
      let childOffset := position - parentOffset in
      let maxElementSize := Z.of_nat parentSize - childOffset in
      if res >? maxElementSize then Ok maxElementSize else Ok res
  end.

(** [type.serialize] and [container.serialize]. *)
Fixpoint serialize (parent : parent_view) (i : instance) : result bytes :=
  match i with
  | type_ position length value =>
      if negb (type_initializedQ length value) then
        do res <- clamp_to_parent parent position (Z.of_nat length);
        if res >? maxint then Ok []
        else
          let padding := padding_fill (if res >? 0 then res else 0) in
          match value with
          | None => Ok padding
          | Some v => Ok (v ++ skipn (List.length v) padding)
          end
      else
        match value with
        | None => Ok []
        | Some v =>
            if (List.length v <? length)%nat
            then Ok (v ++ padding_fill (Z.of_nat (length - List.length v)))
            else Ok v
        end
  | container_ position value =>
      let own := blocksize i in
      let children :=
        match value with
        | None => Raise TypeError
        | Some l =>
            (fix join (l : list instance) : result bytes :=
               match l with
               | [] => Ok []
               | n :: rest =>
                   do a <- serialize (Some (own, position)) n;
                   do b <- join rest;
                   Ok (a ++ b)
               end) l
        end in
      match own with
      | Raise _ => children
      | Ok bs =>
          do result <- children;
          do bs <- clamp_to_parent parent position (Z.of_nat bs);
          if bs >? maxint then Ok result
          else if Z.of_nat (List.length result) <? bs
          then Ok (result ++ padding_fill (bs - Z.of_nat (List.length result)))
          else Ok result
      end
  end.

(** The loop of [container.serialize] under a name of its own. *)
Definition serialize_children (own : result nat) (position : Z)
  : list instance -> result bytes :=
  fix join (l : list instance) : result bytes :=
    match l with
    | [] => Ok []
    | n :: rest =>
        do a <- serialize (Some (own, position)) n;
        do b <- join rest;
        Ok (a ++ b)
    end.

(** *** The proxy provider

    [provider.proxy(source)] reads the serialized bytes of a live instance.
    Its state is the instance it is bound to (with what that instance sees
    of its parent) and a cursor; every [consume] serializes the instance
    again. *)
Record proxy : Type := mk_proxy {
  proxy_type : instance;
  proxy_parent : parent_view;
  proxy_offset : Z
}.

Definition proxy_seek (p : proxy) (o : Z) : Z * proxy :=
  (proxy_offset p, mk_proxy (proxy_type p) (proxy_parent p) o).

Definition proxy_consume (p : proxy) (amount : Z) : proxy * result bytes :=
  let left := proxy_offset p in
  let right := proxy_offset p + amount in
  match serialize (proxy_parent p) (proxy_type p) with
  | Raise _ => (p, Raise ProviderError)
  | Ok buf =>
      if (amount >=? 0) && (left >=? 0) && (right <=? Z.of_nat (List.length buf))
      then (mk_proxy (proxy_type p) (proxy_parent p) (left + amount),
            Ok (Provider.py_slice buf left right))
      else (p, Raise ConsumeError)
  end.

#[export] Instance proxy_provider : provider proxy := {
  seek := proxy_seek;
  consume := proxy_consume
}.

(** *** Shapes

    The class side of an instance: an atomic type of a declared length, a
    [pstruct.type] with its [_fields_] (the field names play no part in the
    layout and are left out) and a [parray.type] with its [_object_] and
    [length]. *)
Inductive shape : Type :=
| type_shape (length : nat)
| pstruct_shape (fields : list shape)
| parray_shape (object : shape) (length : nat).

(** [ptype.iscontainer] on a shape. *)
Definition iscontainer (t : shape) : bool :=
  match t with
  | type_shape _ => false
  | _ => true
  end.

(** [self.new(t, offset=ofs)]: a fresh instance; nothing is read yet. *)
Definition new (t : shape) (offset : Z) : instance :=
  match t with
  | type_shape length => type_ offset length None
  | _ => container_ offset None
  end.

End Ptype.

(** ** lib/ptypes/config.py : the defaults that the loaders consult *)

Module Config.

Definition break_on_zero_sized_element : bool := true.

End Config.

(** ** lib/ptypes/pstruct.py *)

Module Pstruct.

Import Ptype.

Section Load.

Context {P : Type} `{provider P}.

(** [n.load()] on a freshly created field, whatever its class. *)
Variable load_field : P -> shape -> Z -> P * instance * option exn * list log_entry.

(** The loop of [pstruct.type.load] that creates the fields.  [current] is
    [None] unless the structure has a custom blocksize, in which case the
    loop stops at the field that would pass it (that field stays in
    [self.value]). *)
Fixpoint create_fields (src : P) (custom : option nat) (fields : list shape)
  (ofs : Z) (current : nat)
  : P * list instance * option exn * list log_entry :=
  match fields with
  | [] => (src, [], None, [])
  | t :: rest =>
      let '(src, n, e, lg) :=
        if iscontainer t then load_field src t ofs
        else (src, new t ofs, None, []) in
      match e with
      | Some ex => (src, [n], Some ex, lg)
      | None =>
          match blocksize n with
          | Raise ex => (src, [n], Some ex, lg)
          | Ok bs =>
              let stop := match custom with
                          | Some limit => (limit <? current + bs)%nat
                          | None => false
                          end in
              if stop then (src, [n], None, lg)
              else
                let '(src, ns, e', lg') :=
                  create_fields src custom rest (ofs + Z.of_nat bs)
                                (current + bs)%nat in
                (src, n :: ns, e', lg ++ lg')
          end
      end
  end.

(** [pstruct.type.load]: create the fields, then load the whole container
    contiguously.  The attributes stay assigned around the inner load. *)
Definition load (src : P) (override : option nat) (offset : option Z)
  (fields : list shape) (position : Z)
  : P * instance * option exn * list log_entry :=
  let ofs := match offset with Some o => o | None => position end in
  let '(src, value, e, lg) := create_fields src override fields ofs 0%nat in
  match e with
  | Some ex => (src, container_ position (Some value), Some ex, lg)
  | None =>
      let '(src, i, e', lg', _) :=
        container_load src true false override offset
                       (container_ position (Some value)) in
      (src, i, e', lg ++ lg')
  end.

End Load.

End Pstruct.

(** ** lib/ptypes/parray.py *)

Module Parray.

Import Ptype.

(** The loop of [insert] that moves the elements from [index] on: each
    takes the running offset, which then advances by its [blocksize()]. *)
Fixpoint reflow (offset : Z) (l : list instance)
  : list instance * option exn :=
  match l with
  | [] => ([], None)
  | v :: rest =>
      let '(v, e) := setoffset offset true v in
      match e with
      | Some ex => (v :: rest, Some ex)
      | None =>
          match blocksize v with
          | Raise ex => (v :: rest, Some ex)
          | Ok bs =>
              let '(rest, e') := reflow (offset + Z.of_nat bs) rest in
              (v :: rest, e')
          end
      end
  end.

(** [_parray_generic.insert]: the inserted object takes the offset of the
    element it displaces, then every element from [index] on is moved.
    Only non-negative indices are modelled. *)
Definition insert (self : instance) (index : nat) (object : instance)
  : instance * option exn :=
  match self with
  | type_ _ _ _ => (self, Some TypeError)
  | container_ _ None => (self, Some TypeError)
  | container_ position (Some value) =>
      match nth_error value index with
      | None => (self, Some IndexError)
      | Some displaced =>
          let offset := getoffset displaced in
          let '(object, e) := setoffset offset true object in
          match e with
          | Some ex => (self, Some ex)
          | None =>
              let value := firstn index value ++ object :: skipn index value in
              let '(moved, e) := reflow offset (skipn index value) in
              (container_ position (Some (firstn index value ++ moved)), e)
          end
      end
  end.

Section Load.

Context {P : Type} `{provider P}.

(** [n.load()] on a freshly created element of the array's [_object_]. *)
Variable load_element : P -> Z -> P * instance * option exn * list log_entry.

(** The element type as [self.new(self._object_, offset=ofs)] makes it. *)
Variable new_element : Z -> instance.

(** Whether [_object_] is a container ([__load_container]) or an atomic
    type ([__load_block]). *)
Variable object_iscontainer : bool.

(** [parray.type.__load_block] / [__load_container] *)
Fixpoint create_elements (src : P) (count : nat) (ofs : Z)
  : P * list instance * option exn * list log_entry :=
  match count with
  | O => (src, [], None, [])
  | S count =>
      let '(src, n, e, lg) :=
        if object_iscontainer then load_element src ofs
        else (src, new_element ofs, None, []) in
      match e with
      | Some ex => (src, [n], Some ex, lg)
      | None =>
          match blocksize n with
          | Raise ex => (src, [n], Some ex, lg)
          | Ok bs =>
              let '(src, ns, e', lg') :=
                create_elements src count (ofs + Z.of_nat bs) in
              (src, n :: ns, e', lg ++ lg')
          end
      end
  end.

(** [parray.type.load]: the elements are created under the assigned
    attributes, the contiguous load is then given the attributes again. *)
Definition type_load (src : P) (passed_source : bool) (override : option nat)
  (offset : option Z) (length : nat) (position : Z)
  : P * instance * option exn * list log_entry * option Z :=
  let ofs := match offset with Some o => o | None => position end in
  let '(src, value, e, lg) := create_elements src length ofs in
  match e with
  | Some ex => (src, container_ position (Some value), Some ex, lg, None)
  | None =>
      let '(src, i, e', lg', home) :=
        container_load src false passed_source override offset
                       (container_ position (Some value)) in
      (src, i, e', lg ++ lg', home)
  end.

(** [parray.terminated.load] with [length = None]: elements are loaded one
    after the other until [isTerminator] accepts one.  Any exception turns
    into a [LoadError].  [None] is a loop still running after [fuel]
    rounds. *)
Variable isTerminator : instance -> bool.

Fixpoint terminated_loop (fuel : nat) (src : P) (ofs : Z)
  : option (P * list instance * option exn) :=
  match fuel with
  | O => None
  | S fuel =>
      let '(src, n, e, _) := load_element src ofs in
      match e with
      | Some _ => Some (src, [n], Some LoadError)
      | None =>
          if isTerminator n then Some (src, [n], None)
          else
            match blocksize n with
            | Raise _ => Some (src, [n], Some LoadError)
            | Ok size =>
                if (size <=? 0)%nat && Config.break_on_zero_sized_element
                then Some (src, [n], None)
                else
                  match terminated_loop fuel src (ofs + Z.of_nat size) with
                  | Some (src, ns, e') => Some (src, n :: ns, e')
                  | None => None
                  end
            end
      end
  end.

Definition terminated_load (fuel : nat) (src : P) (position : Z)
  : option (P * instance * option exn) :=
  match terminated_loop fuel src position with
  | Some (src, value, e) => Some (src, container_ position (Some value), e)
  | None => None
  end.

(** [parray.block.load] with [length = None]; [limit] is the array's own
    [blocksize()].  An element whose load fails is kept unless it ends
    exactly at the limit. *)
Fixpoint block_loop (fuel : nat) (limit : nat) (src : P) (ofs : Z)
  (current : nat) : option (P * list instance * option exn) :=
  match fuel with
  | O => None
  | S fuel =>
      let '(src, n, e, _) := load_element src ofs in
      match e with
      | Some LoadError =>
          match blocksize n with
          | Raise ex => Some (src, [], Some ex)
          | Ok bs =>
              let o := (current + bs)%nat in
              if (limit <? o)%nat then Some (src, [n], None)
              else if (o <? limit)%nat then Some (src, [n], None)
              else Some (src, [], None)
          end
      | Some ex => Some (src, [], Some ex)
      | None =>
          match blocksize n with
          | Raise ex => Some (src, [], Some ex)
          | Ok size =>
              if (size <=? 0)%nat && Config.break_on_zero_sized_element
              then Some (src, [], None)
              else if (limit <=? current + size)%nat
              then Some (src, [n], None)
              else if isTerminator n then Some (src, [n], None)
              else
                match block_loop fuel limit src (ofs + Z.of_nat size)
                                 (current + size)%nat with
                | Some (src, ns, e') => Some (src, n :: ns, e')
                | None => None
                end
          end
      end
  end.

Definition block_load (fuel : nat) (limit : nat) (src : P) (position : Z)
  : option (P * instance * option exn) :=
  if (limit =? 0)%nat then Some (src, container_ position (Some []), None)
  else
    match block_loop fuel limit src position 0%nat with
    | Some (src, value, e) => Some (src, container_ position (Some value), e)
    | None => None
    end.

End Load.

End Parray.

(** ** Loading an instance of any shape

    [n.load()] dispatches on the class of [n]: [base.load] for an atomic
    type, [pstruct.type.load] and [parray.type.load] for the containers. *)

Module Loader.

Import Ptype.

Section Load.

Context {P : Type} `{provider P}.

Fixpoint load (src : P) (passed_source : bool) (override : option nat)
  (offset : option Z) (t : shape) (position : Z) {struct t}
  : P * instance * option exn * list log_entry * option Z :=
  match t with
  | type_shape _ =>
      let '(src, i, e) := base_load src override offset (new t position) in
      (src, i, e, [], None)
  | pstruct_shape fields =>
      let '(src, i, e, lg) :=
        Pstruct.load
          (fun src f ofs =>
             let '(src, i, e, lg, _) := load src false None None f ofs in
             (src, i, e, lg))
          src override offset fields position in
      (src, i, e, lg, None)
  | parray_shape object length =>
      Parray.type_load
        (fun src ofs =>
           let '(src, i, e, lg, _) := load src false None None object ofs in
           (src, i, e, lg))
        (new object) (iscontainer object)
        src passed_source override offset length position
  end.

(** [n.load()] on a fresh element, as the array loaders call it. *)
Definition load_element (object : shape) (src : P) (ofs : Z)
  : P * instance * option exn * list log_entry :=
  let '(src, i, e, lg, _) := load src false None None object ofs in
  (src, i, e, lg).

End Load.

End Loader.

(** ** lib/ptypes/ptype.py : [base.cast]

    [cast] creates a new object and reads the bytes of [self] through a
    proxy provider, so object identity matters.  The objects alive at the
    call are kept in a heap addressed by their index; an object carries
    its instance tree, its [attributes] and what it sees of its parent. *)

Module Cast.

Import Ptype.

Definition attrs : Type := list (String.string * Z).

Record object : Type := mk_object {
  obj_instance : instance;
  obj_attributes : attrs;
  obj_parent : parent_view
}.

Definition heap : Type := list object.

(** Assignment to the object at an address. *)
Fixpoint store (h : heap) (a : nat) (o : object) : heap :=
  match h, a with
  | [], _ => []
  | _ :: rest, O => o :: rest
  | x :: rest, S a => x :: store rest a o
  end.

Definition set_instance (o : object) (i : instance) : object :=
  mk_object i (obj_attributes o) (obj_parent o).

Definition set_attributes (o : object) (a : attrs) : object :=
  mk_object (obj_instance o) a (obj_parent o).

(** [base.cast(self, t)].  The outcome is the heap after the call, the
    address of the returned instance (or the exception that escaped) and
    the log. *)
Definition cast (h : heap) (self : nat) (t : shape)
  : heap * result nat * list log_entry :=
  match nth_error h self with
  | None => (h, Raise TypeError, [])
  | Some x =>
      (* data,bs = self.serialize(),self.blocksize() *)
      match serialize (obj_parent x) (obj_instance x) with
      | Raise e => (h, Raise e, [])
      | Ok data =>
      match blocksize (obj_instance x) with
      | Raise e => (h, Raise e, [])
      | Ok bs =>
          let offset := getoffset (obj_instance x) in
          (* with utils.assign(self, attributes={}): result = self.new(t, **kwds) *)
          let saved := obj_attributes x in
          let h := store h self (set_attributes x []) in
          let recurse := match nth_error h self with
                         | Some x' => obj_attributes x'
                         | None => []
                         end in
          let r := List.length h in
          let h := h ++ [mk_object (new t offset) recurse (obj_parent x)] in
          let h := match nth_error h self with
                   | Some x' => store h self (set_attributes x' saved)
                   | None => h
                   end in
          (* result.load(offset=0, source=provider.proxy(self), blocksize=lambda:bs) *)
          let source := match nth_error h self with
                        | Some x' => mk_proxy (obj_instance x') (obj_parent x') 0
                        | None => mk_proxy (obj_instance x) (obj_parent x) 0
                        end in
          let '(_, loaded, e, lg, _) :=
            Loader.load source true (Some bs) (Some 0) t offset in
          let '(loaded, lg) :=
            match e with
            | Some _ => (loaded, lg ++ [Log_cast_error])
            | None =>
                (* result.setoffset(result.getoffset(), recurse=True) *)
                let '(moved, e') := setoffset (getoffset loaded) true loaded in
                match e' with
                | Some _ => (moved, lg ++ [Log_cast_error])
                | None => (moved, lg)
                end
            end in
          (* result.__update__(recurse=self.attributes) *)
          let propagated := match nth_error h self with
                            | Some x' => obj_attributes x'
                            | None => []
                            end in
          let h := store h r (mk_object loaded propagated (obj_parent x)) in
          (* result.__deserialize_block__(data) *)
          let '(final, e) := deserialize_block None loaded data in
          let h := store h r (mk_object final propagated (obj_parent x)) in
          match e with
          | Some SyntaxError => (h, Raise SyntaxError, lg)
          | Some InitializationError => (h, Raise InitializationError, lg)
          | _ =>
              let a := match nth_error h self with
                       | Some x' => size (obj_instance x')
                       | None => 0%nat
                       end in
              let b := size final in
              let lg := if (b <? a)%nat then lg ++ [Log_cast_smaller]
                        else if (a <? b)%nat then lg ++ [Log_cast_partial]
                        else lg in
              (h, Ok r, lg)
          end
      end
      end
  end.

End Cast.

(** ** lib/ptypes/dynamic.py : [align] *)

Module Dynamic.

(** What the [blocksize] method of an [align(size)] instance reads: its
    parent (if any), the parent's offset, the [blocksize()] of the
    parent's elements, and the index of the instance among them ([None]
    when [self not in parent.value]). *)
Record parent : Type := mk_parent {
  parent_offset : Z;
  parent_blocksizes : list Z;
  self_index : option nat
}.

(** [sum(n.blocksize() for n in parent.value[:idx])] *)
Definition sum_before (idx : nat) (blocksizes : list Z) : Z :=
  fold_left Z.add (firstn idx blocksizes) 0.

(** The [blocksize] method that [dynamic.align(size)] installs. *)
Definition align_blocksize (size : Z) (p : option parent) : Z :=
  match p with
  | None => 0
  | Some p =>
      match self_index p with
      | None => 0
      | Some idx =>
          let offset := parent_offset p + sum_before idx (parent_blocksizes p) in
          Z.land (- offset) (size - 1)
      end
  end.

(** The offset at which the field sits: the parent's offset plus the
    blocksizes of the fields before it. *)
Definition field_offset (p : parent) (idx : nat) : Z :=
  parent_offset p + sum_before idx (parent_blocksizes p).

End Dynamic.

(** ** lib/ptypes/pint.py : integers over a byte string *)

Module Pint.

Import Ptype.

(** [config.byteorder] *)
Inductive byteorder : Type := bigendian | littleendian.

(** An [integer_t] is an atomic type with a byte order. *)
Record integer_t : Type := mk_integer_t {
  order : byteorder;
  position : Z;
  length : nat;
  value : option bytes
}.

(** The instance as [ptype.type] sees it. *)
Definition as_type (i : integer_t) : instance :=
  type_ (position i) (length i) (value i).

(** [map(chr, res)] *)
Fixpoint map_chr (res : list Z) : result bytes :=
  match res with
  | [] => Ok []
  | x :: rest =>
      do c <- chr x;
      do cs <- map_chr rest;
      Ok (c :: cs)
  end.

(** The loop of [integer_t.__setvalue__]: eight bits leave the bitmap per
    round, low bits first. *)
Fixpoint setvalue_loop (fuel : nat) (bc : Bitmap.bitmap)
  : option (result (list Z)) :=
  match fuel with
  | O => None
  | S fuel =>
      if snd bc >? 0 then
        match Bitmap.consume bc 8 with
        | Raise e => Some (Raise e)
        | Ok (bc, x) =>
            match setvalue_loop fuel bc with
            | Some (Ok rest) => Some (Ok (x :: rest))
            | other => other
            end
        end
      else Some (Ok [])
  end.

(** [integer_t.__setvalue__]: the instance with its new value.  The
    blocksize of an [integer_t] is its [length]. *)
Definition setvalue (i : integer_t) (integer : Z)
  : option (result integer_t) :=
  let blocksize := Z.of_nat (length i) in
  let mask := Z.shiftl 1 (blocksize * 8) - 1 in
  let integer := Z.land integer mask in
  let bc := Bitmap.new integer (blocksize * 8) in
  match setvalue_loop (S (length i)) bc with
  | None => None
  | Some (Raise e) => Some (Raise e)
  | Some (Ok res) =>
      let res := res ++ repeat 0 (length i - List.length res) in
      match map_chr res with
      | Raise e => Some (Raise e)
      | Ok s =>
          let s := match order i with
                   | bigendian => rev s
                   | littleendian => s
                   end in
          Some (Ok (mk_integer_t (order i) (position i) (length i) (Some s)))
      end
  end.

(** [reduce(lambda x,y: x << 8 | ord(y), s, 0)] *)
Definition reduce_bytes (s : bytes) : Z :=
  fold_left (fun x y => Z.lor (Z.shiftl x 8) (ord y)) s 0.

(** [integer_t.int] *)
Definition int (parent : parent_view) (i : integer_t) : result Z :=
  if negb (initializedQ (as_type i)) then Raise InitializationError
  else
    do s <- serialize parent (as_type i);
    match order i with
    | bigendian => Ok (reduce_bytes s)
    | littleendian => Ok (reduce_bytes (rev s))
    end.

(** [sint_t.int] *)
Definition sint_int (parent : parent_view) (i : integer_t) : result Z :=
  if negb (initializedQ (as_type i)) then Raise InitializationError
  else
    let signmask := 2 ^ (8 * Z.of_nat (length i) - 1) in
    do num <- int parent i;
    let res := Z.land num (signmask - 1) in
    if truthy (Z.land num signmask) then Ok ((signmask - res) * -1)
    else Ok (Z.land res (signmask - 1)).

(** [sint_t.__setvalue__] *)
Definition sint_setvalue (i : integer_t) (integer : Z)
  : option (result integer_t) :=
  let signmask := 2 ^ (8 * Z.of_nat (length i)) in
  let res := Z.land integer (signmask - 1) in
  let res := if integer <? 0 then Z.lor res signmask else res in
  setvalue i res.

(** [enum.byValue] and [enum.byName] search [_values_], a list of
    [(name, value)] pairs, for the first match; [None] stands for the
    [KeyError] they raise without one. *)
Fixpoint byValue (values : list (String.string * Z)) (value : Z)
  : option String.string :=
  match values with
  | [] => None
  | (k, v) :: rest => if v =? value then Some k else byValue rest value
  end.

Fixpoint byName (values : list (String.string * Z)) (name : String.string)
  : option Z :=
  match values with
  | [] => None
  | (k, v) :: rest => if String.eqb k name then Some v else byName rest name
  end.

End Pint.

(** ** lib/ptypes/utils.py *)

Module Utils.

(** [itertools.takewhile] *)
Fixpoint takewhile {A : Type} (f : A -> bool) (l : list A) : list A :=
  match l with
  | [] => []
  | x :: rest => if f x then x :: takewhile f rest else []
  end.

(** [n not in terminator], for a character [n] and a string. *)
Definition not_in (terminator : bytes) (n : byte) : bool :=
  negb (existsb (Byte.eqb n) terminator).

(** [strdup]: the string up to the first terminator character. *)
Definition strdup (string terminator : bytes) : bytes :=
  let count := Z.of_nat (length (takewhile (not_in terminator) string)) in
  Provider.py_slice string 0 count.

End Utils.

(** ** Vocabulary for the statements about instances *)

Module Layout.

Import Ptype.

(** An instance with every position set to zero: what is left is the data. *)
Fixpoint erase (i : instance) : instance :=
  match i with
  | type_ _ length value => type_ 0 length value
  | container_ _ None => container_ 0 None
  | container_ _ (Some l) => container_ 0 (Some (map erase l))
  end.

(** Every container of the tree has a value. *)
Fixpoint allocated (i : instance) : bool :=
  match i with
  | type_ _ _ _ => true
  | container_ _ None => false
  | container_ _ (Some l) => forallb allocated l
  end.

(** How far [setposition] advances past a child: its [size()] if it is
    initialized, its [blocksize()] if not. *)
Definition advance (n : instance) : result nat :=
  if initializedQ n then Ok (size n) else blocksize n.

(** The offsets of a list of siblings follow one another from [offset]. *)
Fixpoint chained (offset : Z) (l : list instance) : Prop :=
  match l with
  | [] => True
  | n :: rest =>
      getoffset n = offset /\
      exists d, advance n = Ok d /\ chained (offset + Z.of_nat d) rest
  end.

(** The same, element by element: the first sibling sits at [offset] and
    each next one at the previous offset plus the previous [advance]. *)
Definition follows (offset : Z) (l : list instance) : Prop :=
  (forall first, nth_error l 0 = Some first -> getoffset first = offset) /\
  (forall (k : nat) (previous next : instance),
      nth_error l k = Some previous -> nth_error l (S k) = Some next ->
      exists d, advance previous = Ok d /\
                getoffset next = getoffset previous + Z.of_nat d).

(** [setposition] on an allocated tree raises nothing, leaves the data as
    it is and sets the root's offset. *)
Definition moves_cleanly (i : instance) : Prop :=
  allocated i = true ->
  forall offset, exists i',
    setposition offset true i = (i', None) /\
    erase i' = erase i /\ getoffset i' = offset.

(** The fields that [pstruct.type.load] creates for atomic field types:
    uninitialized, laid out one after the other. *)
Fixpoint atoms (ofs : Z) (lens : list nat) : list instance :=
  match lens with
  | [] => []
  | len :: rest => type_ ofs len None :: atoms (ofs + Z.of_nat len) rest
  end.

(** The [j]-th element of an array of atomic [len]-byte elements laid over
    [data] from [position]. *)
Definition element (data : bytes) (position : Z) (len j : nat) : instance :=
  type_ (position + Z.of_nat (j * len)) len
        (Some (firstn len (skipn (Z.to_nat position + j * len) data))).

(** The exceptions that [cast] tolerates from [__deserialize_block__]. *)
Definition benign (e : option exn) : Prop :=
  e = None \/ e = Some StopIteration \/ e = Some LoadError.

(** Deserializing keeps an allocated tree allocated and raises nothing
    but what [cast] tolerates. *)
Definition deserializes_well (i : instance) : Prop :=
  forall override block,
    allocated (fst (deserialize_block override i block)) = allocated i /\
    (allocated i = true -> benign (snd (deserialize_block override i block))).

(** The parent of an instance can tell its blocksize (or there is none). *)
Definition readable (p : parent_view) : Prop :=
  match p with
  | Some (Raise _, _) => False
  | _ => True
  end.

(** The instance that a load leaves. *)
Definition loaded {P : Type}
  (r : P * instance * option exn * list log_entry * option Z) : instance :=
  snd (fst (fst (fst r))).

(** The arrays of the specification's example: the terminator is the byte
    [0x00]; the data are ["ABAB\x00CD"] and ["WXYZ1234"]. *)
Definition is_zero_byte (n : instance) : bool :=
  match n with
  | type_ _ _ (Some [b]) => Byte.eqb b x00
  | _ => false
  end.

Definition ABAB0CD : bytes := [x41; x42; x41; x42; x00; x43; x44].

Definition WXYZ1234 : bytes := [x57; x58; x59; x5a; x31; x32; x33; x34].

(** A loaded four-byte instance holding ["ABCD"]. *)
Definition ABCD : instance := type_ 0 4 (Some [x41; x42; x43; x44]).

(** Atomic fields laid out one after the other from [ofs], each holding
    its share of [block]. *)
Fixpoint filled (ofs : Z) (lens : list nat) (block : bytes) : list instance :=
  match lens with
  | [] => []
  | len :: rest =>
      type_ ofs len (Some (firstn len block))
      :: filled (ofs + Z.of_nat len) rest (skipn len block)
  end.

End Layout.

(** ** Vocabulary for the statements about bit and byte streams *)

Module Streams.

Import Bitmap.

(** The number that a string of characters spells, first character most
    significant. *)
Definition big_endian (l : list byte) : Z :=
  fold_left (fun x c => x * 256 + ord c) l 0.

(** The bits that a [consumer] has yet to hand out: its cache followed by
    the characters not yet read from its source. *)
Definition pending (c : consumer) : bitmap :=
  let n := 8 * Z.of_nat (length (source c)) in
  (fst (cache c) * 2 ^ n + big_endian (source c),
   snd (cache c) + n).

(** The bits of a bitmap as a list, least significant first. *)
Definition bits_of (b : bitmap) : list bool :=
  map (fun i => Z.testbit (fst b) (Z.of_nat i))
      (seq 0 (Z.to_nat (size b))).

(** The bytes of a number, least significant first. *)
Definition bytes_of (v : Z) (n : nat) : list Z :=
  map (fun i => (v / 256 ^ Z.of_nat i) mod 256) (seq 0 n).

End Streams.

(** * Properties

    The lemmas follow the modules of the embedding.  The statements about
    the behaviour that the specification describes carry its clause in
    their comment (C1 to C10). *)

Module BitmapFacts.

Import Bitmap.

(** Bitwise equalities, bit by bit. *)
Ltac bits :=
  Z.bitblast;
  repeat match goal with
         | |- context [Z.testbit ?a ?l] =>
             rewrite (Z.testbit_neg_r a l) by lia
         end;
  try reflexivity; try btauto.

Lemma land_mask (a n : Z) : 0 <= n -> Z.land a (2 ^ n - 1) = a mod 2 ^ n.
Proof.
  intros Hn. rewrite <- Z.land_ones by assumption.
  f_equal. rewrite Z.ones_equiv. lia.
Qed.

Lemma mod_mask_small (a n : Z) : 0 <= a < 2 ^ n -> 0 <= n -> Z.land a (2 ^ n - 1) = a.
Proof.
  intros Ha Hn. rewrite land_mask by assumption. apply Z.mod_small; assumption.
Qed.

Lemma pow2_pos (n : Z) : 0 <= n -> 0 < 2 ^ n.
Proof. intros; apply Z.pow_pos_nonneg; lia. Qed.

(** Two bit fields that do not overlap are added by [Z.lor]. *)
Lemma lor_shiftl_low (hi lo n : Z) :
  0 <= n -> 0 <= lo < 2 ^ n -> Z.lor (Z.shiftl hi n) lo = hi * 2 ^ n + lo.
Proof.
  intros Hn Hlo.
  rewrite Z.or_to_plus.
  - rewrite Z.shiftl_mul_pow2 by assumption. reflexivity.
  - rewrite <- (Z.mod_small lo (2 ^ n)) by assumption.
    bits.
Qed.

Lemma div_add_low (hi lo n : Z) :
  0 <= n -> 0 <= lo < 2 ^ n -> (hi * 2 ^ n + lo) / 2 ^ n = hi.
Proof.
  intros Hn Hlo. pose proof (pow2_pos n Hn).
  rewrite Z.add_comm, Z.div_add by lia.
  rewrite Z.div_small by assumption. lia.
Qed.

Lemma mod_add_low (hi lo n : Z) :
  0 <= n -> 0 <= lo < 2 ^ n -> (hi * 2 ^ n + lo) mod 2 ^ n = lo.
Proof.
  intros Hn Hlo. pose proof (pow2_pos n Hn).
  rewrite Z.add_comm, Z.mod_add by lia.
  apply Z.mod_small; assumption.
Qed.

Lemma wf_bounds (v s : Z) : wf (v, s) -> 0 <= v < 2 ^ Z.abs s.
Proof. exact (fun H => H). Qed.

(** The integer that [push] builds. *)
Lemma push_integer (va wa vb wb : Z) :
  wf (va, wa) -> wf (vb, wb) ->
  push (va, wa) (vb, wb) =
  (va * 2 ^ Z.abs wb + vb,
   if wa <? 0 then wa - Z.abs wb else wa + Z.abs wb).
Proof.
  intros Ha Hb. apply wf_bounds in Ha, Hb. unfold push.
  rewrite (mod_mask_small va), (mod_mask_small vb) by (auto; lia).
  rewrite lor_shiftl_low by (auto; lia). reflexivity.
Qed.

(** The sign extension done by [consume] and [shift] on an [n]-bit field
    is the two's complement reading [value] of that field. *)
Lemma sign_extension_value (v n : Z) :
  0 <= n -> 0 <= v < 2 ^ n ->
  (if truthy (Z.land v (Z.shiftr (2 ^ n) 1))
   then Z.land v (Z.shiftr (2 ^ n) 1 - 1) - Z.shiftr (2 ^ n) 1
   else Z.land v (Z.shiftr (2 ^ n) 1 - 1)) = value (v, - n).
Proof.
  intros Hn Hv. unfold value.
  destruct (Z.ltb_spec (- n) 0) as [Hneg | Hzero].
  - assert (Hs : Z.shiftr (2 ^ n) 1 = 2 ^ (Z.abs (- n) - 1)).
    { rewrite Z.shiftr_div_pow2 by lia.
      replace (Z.abs (- n) - 1) with (n - 1) by lia.
      replace (2 ^ n) with (2 ^ (n - 1) * 2 ^ 1)
        by (rewrite <- Z.pow_add_r by lia; f_equal; lia).
      rewrite Z.div_mul by lia. reflexivity. }
    rewrite Hs.
    destruct (truthy _).
    + lia.
    + rewrite <- Z.land_assoc, Z.land_diag. reflexivity.
  - assert (n = 0) by lia. subst n. simpl in Hv.
    assert (v = 0) by lia. subst v. reflexivity.
Qed.

Lemma consume_push (a b : bitmap) :
  wf a -> wf b ->
  consume (push a b) (size b) =
  Ok (a, if signed a then value (cast_signed b) else fst b).
Proof.
  destruct a as [va wa], b as [vb wb]. intros Ha Hb.
  rewrite push_integer by assumption.
  pose proof (wf_bounds _ _ Ha) as Ba. pose proof (wf_bounds _ _ Hb) as Bb.
  unfold consume, size, signed, cast_signed, fst.
  set (n := Z.abs wb) in *. assert (Hn : 0 <= n) by (unfold n; lia).
  destruct (Z.ltb_spec n 0); [lia|].
  rewrite land_mask, mod_add_low by assumption.
  destruct (Z.ltb_spec wa 0) as [Hs | Hu].
  - destruct (Z.gtb_spec n (Z.abs (wa - n))); [lia|].
    destruct (Z.ltb_spec (wa - n) 0); [|lia].
    rewrite Z.shiftr_div_pow2, div_add_low by assumption.
    rewrite sign_extension_value by assumption.
    replace (wa - n + n) with wa by lia. reflexivity.
  - destruct (Z.gtb_spec n (Z.abs (wa + n))); [lia|].
    destruct (Z.ltb_spec (wa + n) 0); [lia|].
    rewrite Z.shiftr_div_pow2, div_add_low by assumption.
    replace (wa + n - n) with wa by lia. reflexivity.
Qed.

Lemma field_high (va wa vb wb : Z) :
  0 <= wa -> 0 <= wb -> 0 <= va < 2 ^ wa -> 0 <= vb < 2 ^ wb ->
  Z.shiftr (Z.land (Z.lor (Z.shiftl vb wa) va) (Z.shiftl (2 ^ wb - 1) wa)) wa
  = vb.
Proof.
  intros Hwa Hwb Ba Bb.
  assert (Ea : va = va mod 2 ^ wa) by (symmetry; apply Z.mod_small; assumption).
  assert (Eb : vb = vb mod 2 ^ wb) by (symmetry; apply Z.mod_small; assumption).
  replace (2 ^ wb - 1) with (Z.ones wb) by (rewrite Z.ones_equiv; lia).
  rewrite Ea, Eb. bits.
Qed.

Lemma field_low (va wa vb wb : Z) :
  0 <= wa -> 0 <= wb -> 0 <= va < 2 ^ wa -> 0 <= vb < 2 ^ wb ->
  Z.land (Z.lor (Z.shiftl vb wa) va) (Z.lnot (Z.shiftl (2 ^ wb - 1) wa)) = va.
Proof.
  intros Hwa Hwb Ba Bb.
  assert (Ea : va = va mod 2 ^ wa) by (symmetry; apply Z.mod_small; assumption).
  assert (Eb : vb = vb mod 2 ^ wb) by (symmetry; apply Z.mod_small; assumption).
  replace (2 ^ wb - 1) with (Z.ones wb) by (rewrite Z.ones_equiv; lia).
  rewrite Ea, Eb. bits.
Qed.

Lemma shift_insert (a b : bitmap) :
  wf a -> wf b -> signed a = false -> signed b = false ->
  (do x <- insert a b; shift x (size b)) = Ok (a, fst b).
Proof.
  destruct a as [va wa], b as [vb wb]. intros Ha Hb Sa Sb.
  pose proof (wf_bounds _ _ Ha) as Ba. pose proof (wf_bounds _ _ Hb) as Bb.
  unfold signed in Sa, Sb. apply Z.ltb_ge in Sa, Sb.
  rewrite Z.abs_eq in Ba, Bb by assumption.
  unfold insert, size, fst. rewrite Z.abs_eq by assumption.
  destruct (Z.ltb_spec wb 0); [lia|]. destruct (Z.ltb_spec wa 0); [lia|].
  cbn [bind]. unfold shift.
  destruct (Z.ltb_spec wb 0); [lia|].
  rewrite (Z.abs_eq (wb + wa)) by lia.
  destruct (Z.gtb_spec wb (wb + wa)); [lia|].
  destruct (Z.ltb_spec (wb + wa) 0); [lia|].
  replace (wb + wa - wb) with wa by lia.
  rewrite (mod_mask_small vb), (mod_mask_small va) by (auto; lia).
  rewrite field_high, field_low by assumption. reflexivity.
Qed.

(** *** The representation invariant *)

Lemma wf_land_mask (x s : Z) : wf (Z.land x (2 ^ Z.abs s - 1), s).
Proof.
  unfold wf, fst, snd. rewrite land_mask by lia.
  apply Z.mod_pos_bound, pow2_pos. lia.
Qed.

Lemma wf_land_mask_nonneg (x w : Z) : 0 <= w -> wf (Z.land x (2 ^ w - 1), w).
Proof.
  intros Hw. pose proof (wf_land_mask x w) as H.
  rewrite Z.abs_eq in H by assumption. exact H.
Qed.

Lemma land_bound (a b n : Z) :
  0 <= n -> 0 <= a < 2 ^ n -> 0 <= Z.land a b < 2 ^ n.
Proof.
  intros Hn Ha.
  assert (E : Z.land a b = Z.land a b mod 2 ^ n).
  { assert (Ea : a = a mod 2 ^ n) by (symmetry; apply Z.mod_small; assumption).
    rewrite Ea at 1 2. bits. }
  rewrite E. apply Z.mod_pos_bound, pow2_pos. assumption.
Qed.

Lemma lor_bound (a b n : Z) :
  0 <= n -> 0 <= a < 2 ^ n -> 0 <= b < 2 ^ n -> 0 <= Z.lor a b < 2 ^ n.
Proof.
  intros Hn Ha Hb.
  assert (E : Z.lor a b = Z.lor a b mod 2 ^ n).
  { assert (Ea : a = a mod 2 ^ n) by (symmetry; apply Z.mod_small; assumption).
    assert (Eb : b = b mod 2 ^ n) by (symmetry; apply Z.mod_small; assumption).
    rewrite Ea, Eb at 1 2. bits. }
  rewrite E. apply Z.mod_pos_bound, pow2_pos. assumption.
Qed.

Lemma new_wf (v s : Z) : wf (new v s).
Proof. unfold new. destruct (s <? 0); apply wf_land_mask. Qed.

Lemma push_wf (a b : bitmap) : wf (push a b).
Proof.
  destruct a as [va wa], b as [vb wb]. unfold push, wf, fst, snd.
  rewrite !land_mask by lia.
  pose proof (Z.mod_pos_bound va (2 ^ Z.abs wa) (pow2_pos _ (Z.abs_nonneg wa))).
  pose proof (Z.mod_pos_bound vb (2 ^ Z.abs wb) (pow2_pos _ (Z.abs_nonneg wb))).
  rewrite lor_shiftl_low by (auto; lia).
  replace (Z.abs (if wa <? 0 then wa - Z.abs wb else wa + Z.abs wb))
    with (Z.abs wa + Z.abs wb) by (destruct (Z.ltb_spec wa 0); lia).
  rewrite Z.pow_add_r by lia. nia.
Qed.

Lemma insert_wf (a b r : bitmap) : insert a b = Ok r -> wf r.
Proof.
  destruct a as [va wa], b as [vb wb]. unfold insert.
  destruct (Z.ltb_spec wb 0); [discriminate|].
  destruct (Z.ltb_spec wa 0); [discriminate|].
  intros E. injection E as <-. unfold wf, fst, snd.
  rewrite !land_mask by lia.
  pose proof (Z.mod_pos_bound va (2 ^ wa) (pow2_pos _ H0)).
  pose proof (Z.mod_pos_bound vb (2 ^ wb) (pow2_pos _ H)).
  rewrite lor_shiftl_low by (auto; lia).
  rewrite Z.abs_eq, Z.pow_add_r by lia. nia.
Qed.

Lemma shiftr_wf (v s c w : Z) :
  wf (v, s) -> 0 <= c -> Z.abs w = Z.abs s - c \/ Z.abs s < c ->
  wf (Z.shiftr v c, w).
Proof.
  intros Hv Hc Hw. apply wf_bounds in Hv. unfold wf, fst, snd.
  rewrite Z.shiftr_div_pow2 by assumption.
  pose proof (pow2_pos c Hc).
  destruct (Z.le_gt_cases c (Z.abs s)) as [Hle | Hgt].
  - destruct Hw as [Hw | Hw]; [|lia]. rewrite Hw.
    split; [apply Z.div_pos; lia|].
    apply Z.div_lt_upper_bound; [lia|].
    rewrite <- Z.pow_add_r by lia. replace (c + (Z.abs s - c)) with (Z.abs s) by lia.
    lia.
  - rewrite Z.div_small.
    + split; [lia | apply pow2_pos; lia].
    + split; [lia|]. apply Z.lt_le_trans with (2 ^ Z.abs s); [lia|].
      apply Z.pow_le_mono_r; lia.
Qed.

Lemma shiftl_wf (v s c : Z) :
  wf (v, s) -> 0 <= c -> wf (Z.shiftl v c, s + c * (if s <? 0 then -1 else 1)).
Proof.
  intros Hv Hc. apply wf_bounds in Hv. unfold wf, fst, snd.
  rewrite Z.shiftl_mul_pow2 by assumption.
  replace (Z.abs (s + c * (if s <? 0 then -1 else 1))) with (Z.abs s + c)
    by (destruct (Z.ltb_spec s 0); lia).
  rewrite Z.pow_add_r by lia. pose proof (pow2_pos c Hc). nia.
Qed.

Lemma grow_wf (b : bitmap) (count : Z) : wf b -> wf (grow b count).
Proof.
  destruct b as [v s]. intros Hb. unfold grow, grow_nonneg, shrink_nonneg.
  destruct (Z.ltb_spec count 0).
  - apply shiftr_wf with s; [assumption | lia |].
    destruct (Z.ltb_spec s 0); lia.
  - apply shiftl_wf; assumption.
Qed.

Lemma shrink_wf (b : bitmap) (count : Z) : wf b -> wf (shrink b count).
Proof.
  destruct b as [v s]. intros Hb. unfold shrink, grow_nonneg, shrink_nonneg.
  destruct (Z.ltb_spec count 0).
  - apply shiftl_wf; [assumption | lia].
  - apply shiftr_wf with s; [assumption | lia |].
    destruct (Z.ltb_spec s 0); lia.
Qed.

Lemma shiftl1_mask (s : Z) : Z.shiftl 1 (Z.abs s) - 1 = 2 ^ Z.abs s - 1.
Proof. rewrite Z.shiftl_mul_pow2 by lia. lia. Qed.

Lemma add_wf (b : bitmap) (i : Z) : wf (add b i).
Proof. destruct b. unfold add. rewrite shiftl1_mask. apply wf_land_mask. Qed.

Lemma sub_wf (b : bitmap) (i : Z) : wf (sub b i).
Proof. destruct b. unfold sub. rewrite shiftl1_mask. apply wf_land_mask. Qed.

Lemma mul_wf (b : bitmap) (i : Z) : wf (mul b i).
Proof. destruct b. unfold mul. apply wf_land_mask. Qed.

Lemma mod_wf (b r : bitmap) (i : Z) : mod_ b i = Ok r -> wf r.
Proof.
  destruct b. unfold mod_. destruct (i =? 0); [discriminate|].
  intros E. injection E as <-. apply wf_land_mask.
Qed.

Lemma div_wf (q : Z -> Z -> result Z) (b r : bitmap) (i : Z) :
  div q b i = Ok r -> wf r.
Proof.
  destruct b as [n s]. unfold div.
  destruct (q (signed_operand n s) i); [|discriminate].
  cbn [bind]. intros E. injection E as <-. apply wf_land_mask.
Qed.

Lemma ror_wf (b r : bitmap) (k : Z) : ror b k = Ok r -> wf r.
Proof.
  destruct b as [v w]. unfold ror.
  destruct (Z.ltb_spec k 0); [discriminate|].
  destruct (Z.ltb_spec (w - k) 0); [discriminate|].
  intros E. injection E as <-. apply wf_land_mask_nonneg. lia.
Qed.

Lemma rol_wf (b r : bitmap) (k : Z) : rol b k = Ok r -> wf r.
Proof.
  destruct b as [v w]. unfold rol.
  destruct (Z.ltb_spec k 0); [discriminate|].
  destruct (Z.ltb_spec w 0); [discriminate|].
  destruct (Z.ltb_spec (w - k) 0); [discriminate|]. cbn [orb].
  intros E. injection E as <-. apply wf_land_mask_nonneg. lia.
Qed.

(** The mask that [set] and [get] build bit by bit. *)
Lemma bitrange_mask_ones (position count : Z) :
  0 <= position -> 0 <= count ->
  bitrange_mask position count = Z.shiftl (Z.ones count) position.
Proof.
  intros Hp Hc. unfold bitrange_mask, range.
  rewrite <- (Z2Nat.id count) at 2 by assumption.
  generalize (Z.to_nat count) as n. clear count Hc.
  assert (G : forall n m acc,
             fold_left (fun r v => Z.lor (Z.shiftl 1 v) r)
               (map (fun i => position + Z.of_nat i) (seq m n)) acc
             = Z.lor acc (Z.shiftl (Z.shiftl (Z.ones (Z.of_nat n)) (Z.of_nat m))
                                   position)).
  { induction n as [|n IH]; intros m acc.
    - simpl. rewrite Z.shiftl_0_l, Z.shiftl_0_l, Z.lor_0_r. reflexivity.
    - cbn [seq map fold_left]. rewrite IH.
      replace (Z.of_nat (S n)) with (Z.of_nat n + 1) by lia.
      replace (Z.of_nat (S m)) with (Z.of_nat m + 1) by lia.
      pose proof (Nat2Z.is_nonneg n). pose proof (Nat2Z.is_nonneg m).
      rewrite Z.shiftl_1_l. Z.bitblast;
        repeat match goal with
               | |- context [?a =? ?b] => destruct (Z.eqb_spec a b)
               end; try lia; try btauto. }
  intros n. rewrite G. simpl (Z.of_nat 0).
  rewrite Z.shiftl_0_r, Z.lor_0_l. reflexivity.
Qed.

Lemma set_wf (b r : bitmap) (position count : Z) (value : bool) :
  wf b -> set b position value count = Ok r -> wf r.
Proof.
  destruct b as [v s]. intros Hb. apply wf_bounds in Hb. unfold set.
  destruct (Z.ltb_spec count 0); [discriminate|].
  destruct (Z.ltb_spec position 0); [discriminate|]. cbn [orb].
  destruct (Z.gtb_spec (position + count) (Z.abs s)); [discriminate|].
  rewrite bitrange_mask_ones by assumption.
  destruct value; intros E; injection E as <-; unfold wf, fst, snd;
    rewrite Z.abs_idemp.
  - apply lor_bound; [lia | assumption |].
    split.
    + apply Z.shiftl_nonneg. rewrite Z.ones_equiv.
      pose proof (pow2_pos count H). lia.
    + rewrite Z.shiftl_mul_pow2, Z.ones_equiv by assumption.
      apply Z.lt_le_trans with (2 ^ count * 2 ^ position).
      * pose proof (pow2_pos count H). pose proof (pow2_pos position H0). nia.
      * rewrite <- Z.pow_add_r by assumption. apply Z.pow_le_mono_r; lia.
  - apply land_bound; [lia | assumption].
Qed.

Lemma consume_wf (b r : bitmap) (bits res : Z) :
  wf b -> consume b bits = Ok (r, res) -> wf r.
Proof.
  destruct b as [v s]. intros Hb. unfold consume.
  destruct (Z.ltb_spec bits 0); [discriminate|].
  destruct (Z.gtb_spec bits (Z.abs s));
    destruct (Z.ltb_spec s 0); intros E; injection E as <- _;
    (apply shiftr_wf with s; [assumption | lia | lia]).
Qed.

Lemma shift_remaining (v s bits : Z) :
  0 <= v < 2 ^ Z.abs s -> 0 <= bits ->
  let k := if bits >? Z.abs s then Z.abs s else bits in
  0 <= Z.land v (Z.lnot (Z.shiftl (2 ^ bits - 1) (Z.abs s - k)))
    < 2 ^ (Z.abs s - k).
Proof.
  intros Hv Hb k.
  assert (Hk : 0 <= k <= Z.abs s /\ Z.abs s <= Z.abs s - k + bits).
  { unfold k. destruct (Z.gtb_spec bits (Z.abs s)); lia. }
  clearbody k.
  set (x := Z.land v _).
  assert (E : x = x mod 2 ^ (Z.abs s - k)).
  { unfold x.
    assert (Ev : v = v mod 2 ^ Z.abs s) by (symmetry; apply Z.mod_small; assumption).
    rewrite Ev at 1 2.
    replace (2 ^ bits - 1) with (Z.ones bits) by (rewrite Z.ones_equiv; lia).
    pose proof (Z.abs_nonneg s). bits. }
  rewrite E. apply Z.mod_pos_bound, pow2_pos. lia.
Qed.

Lemma shift_wf (b r : bitmap) (bits res : Z) :
  wf b -> shift b bits = Ok (r, res) -> wf r.
Proof.
  destruct b as [v s]. intros Hb. apply wf_bounds in Hb. unfold shift.
  destruct (Z.ltb_spec bits 0); [discriminate|].
  pose proof (shift_remaining v s bits Hb H) as R. cbv zeta in R.
  set (a := Z.abs s) in *.
  set (k := if bits >? a then a else bits) in *.
  assert (Hk : 0 <= a - k).
  { unfold k, a. destruct (Z.gtb_spec bits (Z.abs s)); lia. }
  destruct (Z.ltb_spec s 0); intros E; injection E as <- _;
    unfold wf, fst, snd.
  - replace (Z.abs (- (a - k))) with (a - k) by lia. exact R.
  - replace (Z.abs (a - k)) with (a - k) by lia. exact R.
Qed.

(** *** What [consume] returns *)

Lemma consume_within_width (v s n : Z) :
  wf (v, s) -> 0 <= n <= Z.abs s ->
  consume (v, s) n =
  Ok ((v / 2 ^ n, if s <? 0 then s + n else s - n),
      if s <? 0 then value (v mod 2 ^ n, - n) else v mod 2 ^ n).
Proof.
  intros Hb Hn. unfold consume.
  destruct (Z.ltb_spec n 0); [lia|].
  destruct (Z.gtb_spec n (Z.abs s)); [lia|].
  rewrite land_mask, Z.shiftr_div_pow2 by lia.
  destruct (Z.ltb_spec s 0); [|reflexivity].
  rewrite sign_extension_value; [reflexivity | lia |].
  apply Z.mod_pos_bound, pow2_pos. lia.
Qed.

Lemma consume_past_width_unsigned (v s n : Z) :
  wf (v, s) -> 0 <= s < n -> consume (v, s) n = Ok ((0, 0), v).
Proof.
  intros Hb Hn. apply wf_bounds in Hb. rewrite Z.abs_eq in Hb by lia.
  unfold consume.
  destruct (Z.ltb_spec n 0); [lia|].
  rewrite Z.abs_eq by lia.
  destruct (Z.gtb_spec n s); [|lia].
  destruct (Z.ltb_spec s 0); [lia|].
  rewrite land_mask, Z.shiftr_div_pow2 by lia.
  assert (v < 2 ^ n).
  { apply Z.lt_le_trans with (2 ^ s); [lia|]. apply Z.pow_le_mono_r; lia. }
  rewrite Z.mod_small, Z.div_small, Z.sub_diag by lia. reflexivity.
Qed.

(** *** The claims about bitmaps *)

(** C3 (as amended).  Pushing [b] onto [a] and consuming [size b] bits
    gives back [a] and the bits of [b]: read as an unsigned number when
    [a] is unsigned, as a two's complement number when [a] is signed.
    For unsigned [a] and [b], inserting [b] and shifting [size b] bits off
    gives back [a] and the integer of [b]. *)
Theorem stream_round_trip (a b : bitmap) :
  wf a -> wf b ->
  consume (push a b) (size b) =
    Ok (a, if signed a then value (cast_signed b) else fst b) /\
  (signed a = false -> signed b = false ->
   (do x <- insert a b; shift x (size b)) = Ok (a, fst b)).
Proof.
  intros Ha Hb. split.
  - apply consume_push; assumption.
  - intros Sa Sb. apply shift_insert; assumption.
Qed.

Lemma stream_round_trip_witness :
  wf (5, -8) /\ wf (9, 4) /\
  consume (push (5, -8) (9, 4)) (size (9, 4)) = Ok ((5, -8), -7).
Proof.
  assert (Ha : wf (5, -8)) by (unfold wf; simpl; lia).
  assert (Hb : wf (9, 4)) by (unfold wf; simpl; lia).
  split; [exact Ha|]. split; [exact Hb|].
  exact (proj1 (stream_round_trip (5, -8) (9, 4) Ha Hb)).
Defined.

(** C3 as stated fails on a signed bitmap: the extracted value comes back
    sign-extended, and [insert] raises. *)
Lemma signed_round_trip_counterexample :
  wf (0, -8) /\ wf (15, 4) /\
  consume (push (0, -8) (15, 4)) (size (15, 4)) = Ok ((0, -8), -1) /\
  consume (push (0, -8) (15, 4)) (size (15, 4)) <> Ok ((0, -8), number (15, 4)) /\
  (do x <- insert (0, -8) (15, 4); shift x (size (15, 4))) = Raise ValueError.
Proof.
  split; [unfold wf; simpl; lia|]. split; [unfold wf; simpl; lia|].
  split; [reflexivity|]. split; [discriminate | reflexivity].
Qed.

(** C5.  [consume] computes the mask of the requested bit count before it
    clamps the count: taking 16 bits off the signed 8-bit bitmap [0xff]
    removes the 8 bits there are but returns them unsigned, whereas the
    same bits taken with the clamped count 8 come back as [-1]. *)
Theorem consume_past_width_signed :
  wf (255, -8) /\
  consume (255, -8) 16 = Ok ((0, 0), 255) /\
  consume (255, -8) 8 = Ok ((0, 0), -1) /\
  value (255, -8) = -1.
Proof.
  split; [unfold wf; simpl; lia|]. repeat split; reflexivity.
Qed.

(** C6.  [insert] raises on a signed operand, where [push] returns. *)
Theorem insert_signed_raises :
  wf (0, -8) /\ wf (1, 4) /\
  insert (0, -8) (1, 4) = Raise ValueError /\
  insert (1, 4) (0, -8) = Raise TypeError /\
  push (0, -8) (1, 4) = (1, -12).
Proof.
  split; [unfold wf; simpl; lia|]. split; [unfold wf; simpl; lia|].
  repeat split; reflexivity.
Qed.

End BitmapFacts.

Module MacheapFacts.

Import Bitmap Macheap BitmapFacts.

(** [splitter] finishes on an unsigned bitmap when [maxsize] is positive. *)
Lemma splitter_loop_total (fuel : nat) (v s maxsize sf : Z) :
  0 < maxsize -> 0 <= s -> (Z.to_nat s < fuel)%nat ->
  exists l, splitter_loop fuel (v, s) maxsize sf = Some (Ok l).
Proof.
  intros Hm. revert v s.
  induction fuel as [|fuel IH]; intros v s Hs Hf; [lia|].
  cbn [splitter_loop].
  destruct (Z.ltb_spec s maxsize); [eexists; reflexivity|].
  unfold consume.
  destruct (Z.ltb_spec maxsize 0); [lia|].
  destruct (Z.ltb_spec s 0); [lia|].
  rewrite Z.abs_eq by lia.
  destruct (Z.gtb_spec maxsize s); [lia|].
  destruct (IH (Z.shiftr v maxsize) (s - maxsize)) as [l El]; [lia | lia |].
  rewrite El. eexists; reflexivity.
Qed.

Lemma generate_checksum_total (size_ ptr : Z) :
  0 <= size_ -> exists c, generate_checksum size_ ptr = Some (Ok c).
Proof.
  intros Hs. unfold generate_checksum, split, splitter.
  assert (E : exists v, new ptr (size_ * 8) = (v, size_ * 8)).
  { unfold new. destruct (size_ * 8 <? 0); eexists; reflexivity. }
  destruct E as [v ->]. unfold snd.
  destruct (splitter_loop_total (S (Z.to_nat (size_ * 8))) v (size_ * 8) (Z.abs 8)
              (if 8 <? 0 then -1 else 1)) as [l El]; [simpl; lia | lia | lia |].
  rewrite El. eexists; reflexivity.
Qed.

(** C2 (as amended).  [decode] does not raise.  It returns the raw value
    rotated left by four bits with the low nibble cleared, hence a multiple
    of 16 within the pointer width.  The warning is logged exactly when the
    low nibble of the rotated value is not the checksum generated from the
    returned pointer and the cookie, and that is all a mismatch does: the
    returned value does not depend on the cookie. *)
Theorem decode_best_effort (size_ cookie pu : Z) :
  0 < size_ ->
  exists t d,
    rol (new pu (size_ * 8)) 4 = Ok t /\
    decode size_ cookie pu = Some (Ok d) /\
    pointer d = Z.land (fst t) (Z.lnot 15) /\
    pointer d mod 16 = 0 /\
    0 <= pointer d < 2 ^ (size_ * 8) /\
    (exists sum,
       generate_checksum size_ (Z.lxor (pointer d) cookie) = Some (Ok sum) /\
       warned d = negb (Z.land (fst t) 15 =? sum)) /\
    forall cookie', exists d',
      decode size_ cookie' pu = Some (Ok d') /\ pointer d' = pointer d.
Proof.
  intros Hs. unfold decode.
  assert (E : exists v, new pu (size_ * 8) = (v, size_ * 8)).
  { unfold new. destruct (size_ * 8 <? 0); eexists; reflexivity. }
  destruct E as [v Ev]. rewrite Ev.
  assert (R : exists w, rol (v, size_ * 8) 4 = Ok (w, size_ * 8) /\
                        0 <= w < 2 ^ (size_ * 8)).
  { unfold rol.
    destruct (Z.ltb_spec 4 0); [lia|].
    destruct (Z.ltb_spec (size_ * 8) 0); [lia|].
    destruct (Z.ltb_spec (size_ * 8 - 4) 0); [lia|]. cbn [orb].
    eexists. split; [reflexivity|].
    rewrite land_mask by lia. apply Z.mod_pos_bound, pow2_pos. lia. }
  destruct R as [w [Ew Bw]]. rewrite Ew.
  assert (N : number (w, size_ * 8) = w).
  { unfold number, value. destruct (Z.ltb_spec (size_ * 8) 0); [lia | reflexivity]. }
  rewrite N.
  assert (Bp : 0 <= Z.land w (Z.lnot 15) < 2 ^ (size_ * 8))
    by (apply land_bound; [lia | assumption]).
  assert (Ep : pointer_set size_ (Z.land w (Z.lnot 15)) = Z.land w (Z.lnot 15)).
  { unfold pointer_set, new.
    assert (Z.abs (size_ * 8) = size_ * 8) as -> by lia.
    destruct (size_ * 8 <? 0); unfold fst; apply mod_mask_small; (assumption || lia). }
  exists (w, size_ * 8).
  destruct (generate_checksum_total size_ (Z.lxor (Z.land w (Z.lnot 15)) cookie))
    as [c Ec]; [lia|].
  rewrite Ec. eexists. split; [reflexivity|]. split; [reflexivity|].
  cbn [pointer fst]. rewrite Ep.
  split; [reflexivity|]. split.
  - change 16 with (2 ^ 4). rewrite <- Z.land_ones by lia.
    change 15 with (Z.ones 4). bits.
  - split; [assumption|].
    split; [exists c; split; [exact Ec | reflexivity]|].
    intros cookie'.
    destruct (generate_checksum_total size_ (Z.lxor (Z.land w (Z.lnot 15)) cookie'))
      as [c' Ec']; [lia|].
    rewrite Ec'. eexists. split; [reflexivity|]. cbn [pointer]. reflexivity.
Qed.

Lemma decode_best_effort_witness :
  0 < 8 /\
  exists t d,
    rol (new 17375506680932366216 (8 * 8)) 4 = Ok t /\
    decode 8 171 17375506680932366216 = Some (Ok d) /\
    pointer d = Z.land (fst t) (Z.lnot 15) /\
    pointer d mod 16 = 0 /\
    0 <= pointer d < 2 ^ (8 * 8) /\
    (exists sum,
       generate_checksum 8 (Z.lxor (pointer d) 171) = Some (Ok sum) /\
       warned d = negb (Z.land (fst t) 15 =? sum)) /\
    forall cookie', exists d',
      decode 8 cookie' 17375506680932366216 = Some (Ok d') /\
      pointer d' = pointer d.
Proof.
  split; [lia|]. apply (decode_best_effort 8 171 17375506680932366216). lia.
Defined.

(** C2 as stated fails at the pointer of the specification's own example:
    with cookie [0xAB], decoding the encoding of [0x1122334455667788]
    gives [0x1223344556677880] (and logs the checksum warning). *)
Lemma decode_encode_counterexample :
  decode_encode 8 171 1234605616436508552
    = Some (Ok (mk_decoded 1306945789274585216 true)) /\
  1306945789274585216 <> 1234605616436508552.
Proof. split; [vm_compute; reflexivity | discriminate]. Qed.

End MacheapFacts.

Module ProviderFacts.

Import Provider.

Lemma py_slice_within {A : Type} (l : list A) (lo hi : Z) :
  0 <= lo <= hi -> hi <= Z.of_nat (length l) ->
  py_slice l lo hi = firstn (Z.to_nat (hi - lo)) (skipn (Z.to_nat lo) l).
Proof.
  intros H1 H2. unfold py_slice, py_index.
  destruct (Z.ltb_spec lo 0); [lia|]. destruct (Z.ltb_spec hi 0); [lia|].
  rewrite !Z.min_l by lia. reflexivity.
Qed.

(** What [string.consume] does on a cursor inside or past the data. *)
Lemma string_consume_spec (data : bytes) (offset amount : Z) :
  0 <= offset -> 0 < amount ->
  string_consume (mk_string data offset) amount =
  if Z.of_nat (length data) <=? offset
  then (mk_string data offset, Raise ConsumeError)
  else if offset + amount <=? Z.of_nat (length data)
  then (mk_string data (offset + amount),
        Ok (firstn (Z.to_nat amount) (skipn (Z.to_nat offset) data)))
  else (mk_string data offset, Ok (skipn (Z.to_nat offset) data)).
Proof.
  intros Ho Ha. unfold string_consume. cbn [Provider.offset Provider.data].
  destruct (Z.ltb_spec amount 0); [lia|].
  destruct (Z.eqb_spec amount 0); [lia|].
  destruct (Z.geb_spec offset (Z.of_nat (length data)));
    destruct (Z.leb_spec (Z.of_nat (length data)) offset); try lia;
    [reflexivity|].
  set (len := Z.of_nat (length data)) in *.
  assert (Hskip : length (skipn (Z.to_nat offset) data) = Z.to_nat (len - offset)).
  { rewrite length_skipn. unfold len. lia. }
  destruct (Z.leb_spec (offset + amount) len).
  - rewrite Z.min_l by lia.
    rewrite py_slice_within by (fold len; lia).
    replace (offset + amount - offset) with amount by lia.
    set (res := firstn _ _).
    assert (Hres : length res = Z.to_nat amount).
    { unfold res. rewrite length_firstn, Hskip. lia. }
    destruct res as [|b res'] eqn:E; [simpl in Hres; lia|].
    rewrite Hres, Z2Nat.id, Z.eqb_refl by lia. reflexivity.
  - rewrite Z.min_r by lia.
    rewrite py_slice_within by (fold len; lia).
    rewrite firstn_all2 by (rewrite Hskip; lia).
    set (res := skipn _ _) in *.
    destruct res as [|b res'] eqn:E; [simpl in Hskip; lia|].
    rewrite Hskip.
    destruct (Z.eqb_spec (Z.of_nat (Z.to_nat (len - offset))) amount); [lia|].
    reflexivity.
Qed.

(** C4 (as amended).  With a cursor [offset >= 0] and [amount > 0],
    [string.consume] returns exactly [amount] bytes and advances the cursor
    when that many are available; it raises [ConsumeError] when no byte is
    available at the cursor; and when some but fewer than [amount] bytes
    are available it returns those bytes without raising and leaves the
    cursor where it was. *)
Theorem string_consume_cases (data : bytes) (offset amount : Z) :
  0 <= offset -> 0 < amount ->
  let p := mk_string data offset in
  let len := Z.of_nat (length data) in
  (offset + amount <= len ->
   exists block,
     string_consume p amount = (mk_string data (offset + amount), Ok block) /\
     block = firstn (Z.to_nat amount) (skipn (Z.to_nat offset) data) /\
     Z.of_nat (length block) = amount) /\
  (len <= offset -> string_consume p amount = (p, Raise ConsumeError)) /\
  (offset < len < offset + amount ->
   exists block,
     string_consume p amount = (p, Ok block) /\
     block = skipn (Z.to_nat offset) data /\
     0 < Z.of_nat (length block) < amount).
Proof.
  intros Ho Ha p len. unfold p.
  rewrite string_consume_spec by assumption. fold len.
  repeat split.
  - intros Hfit.
    destruct (Z.leb_spec len offset); [lia|].
    destruct (Z.leb_spec (offset + amount) len); [|lia].
    eexists. split; [reflexivity|]. split; [reflexivity|].
    rewrite length_firstn, length_skipn. unfold len in *. lia.
  - intros Hpast. destruct (Z.leb_spec len offset); [reflexivity | lia].
  - intros Hshort.
    destruct (Z.leb_spec len offset); [lia|].
    destruct (Z.leb_spec (offset + amount) len); [lia|].
    eexists. split; [reflexivity|]. split; [reflexivity|].
    rewrite length_skipn. unfold len in *. lia.
Qed.

Lemma string_consume_cases_witness :
  0 <= 1 /\ 0 < 2 /\
  string_consume (mk_string [x41; x42; x43; x44] 1) 2
  = (mk_string [x41; x42; x43; x44] 3, Ok [x42; x43]).
Proof.
  split; [lia|]. split; [lia|].
  assert (H0 : 0 <= 1) by lia. assert (H1 : 0 < 2) by lia.
  destruct (string_consume_cases [x41; x42; x43; x44] 1 2 H0 H1) as [Hfit _].
  destruct Hfit as [block [E [Eb _]]]; [simpl; lia|].
  rewrite E, Eb. reflexivity.
Defined.

(** C4 as stated fails: asked for five bytes of a three byte string, the
    provider returns the three bytes, raises nothing and does not move. *)
Lemma string_consume_truncates :
  string_consume (mk_string [x41; x42; x43] 0) 5
  = (mk_string [x41; x42; x43] 0, Ok [x41; x42; x43]) /\
  Z.of_nat (length [x41; x42; x43]) <> 5.
Proof. split; [reflexivity | discriminate]. Qed.

End ProviderFacts.

Module PtypeFacts.

Import Provider Ptype Layout.

(** Unfolding equations: each function on a container runs its loop. *)
Lemma blocksize_container (position : Z) (l : list instance) :
  blocksize (container_ position (Some l)) = sum_blocksize l.
Proof. reflexivity. Qed.

Lemma deserialize_block_container (override : option nat) (position : Z)
  (l : list instance) (block : bytes) :
  deserialize_block override (container_ position (Some l)) block =
  match own_blocksize override (container_ position (Some l)) with
  | Raise e => (container_ position (Some l), Some e)
  | Ok expected =>
      let '(l', e, total) := deserialize_children expected l block 0%nat in
      match e with
      | Some ex => (container_ position (Some l'), Some ex)
      | None =>
          if (total <? expected)%nat
          then (container_ position (Some l'), Some StopIteration)
          else if (expected <? total)%nat
          then (container_ position (Some l'), Some LoadError)
          else (container_ position (Some l'), None)
      end
  end.
Proof. reflexivity. Qed.

Lemma setposition_container (offset position : Z) (l : list instance) :
  setposition offset true (container_ position (Some l)) =
  let '(l', e) := walk_children true offset l in
  (container_ offset (Some l'), e).
Proof. reflexivity. Qed.

Lemma type_size_some (length : nat) (v : bytes) :
  type_size length (Some v) = List.length v.
Proof.
  unfold type_size, type_initializedQ.
  destruct (length <=? List.length v)%nat; [reflexivity|].
  destruct v; reflexivity.
Qed.

Lemma sum_blocksize_atoms (ofs : Z) (lens : list nat) :
  sum_blocksize (atoms ofs lens) = Ok (list_sum lens).
Proof.
  revert ofs. induction lens as [|len rest IH]; intros ofs; [reflexivity|].
  cbn [atoms sum_blocksize blocksize bind list_sum fold_right].
  fold sum_blocksize. rewrite IH. reflexivity.
Qed.

Lemma size_atoms (ofs : Z) (lens : list nat) :
  list_sum (map size (atoms ofs lens)) = 0%nat.
Proof.
  revert ofs. induction lens as [|len rest IH]; intros ofs; [reflexivity|].
  cbn [atoms map list_sum fold_right size type_size]. rewrite IH. reflexivity.
Qed.

Lemma length_atoms (ofs : Z) (lens : list nat) :
  length (atoms ofs lens) = length lens.
Proof.
  revert ofs. induction lens as [|len rest IH]; intros ofs; [reflexivity|].
  cbn [atoms length]. rewrite IH. reflexivity.
Qed.

(** Deserializing fresh atomic fields from a block that is too short: the
    loop stops with [StopIteration] at the first field the block cannot
    fill; the bytes of the block are all stored, and every field that the
    block covers holds its bytes. *)
Lemma deserialize_children_short (lens : list nat) :
  forall (ofs : Z) (block : bytes) (total expected : nat),
    (length block < list_sum lens)%nat ->
    (total + list_sum lens = expected)%nat ->
    exists l' total',
      deserialize_children expected (atoms ofs lens) block total
        = (l', Some StopIteration, total') /\
      list_sum (map size l') = length block /\
      sum_blocksize l' = Ok (list_sum lens) /\
      forall (k len : nat),
        nth_error lens k = Some len ->
        (list_sum (firstn k lens) + len <= length block)%nat ->
        nth_error l' k =
        Some (type_ (ofs + Z.of_nat (list_sum (firstn k lens))) len
                (Some (firstn len (skipn (list_sum (firstn k lens)) block)))).
Proof.
  induction lens as [|a rest IH]; intros ofs block total expected Hshort Hsum.
  - simpl in Hshort. lia.
  - cbn [list_sum fold_right] in Hshort, Hsum. fold (list_sum rest) in *.
    cbn [atoms deserialize_children blocksize]. fold (deserialize_children expected).
    destruct (Nat.ltb_spec total expected); [|lia].
    cbn [deserialize_block].
    rewrite length_firstn.
    destruct (Nat.ltb_spec (Nat.min a (length block)) a) as [Hpart | Hfull].
    + (* the block ends inside this field *)
      exists (type_ ofs a (Some (firstn a (firstn a block)))
                :: atoms (ofs + Z.of_nat a) rest), total.
      split; [reflexivity|]. split; [|split].
      * cbn [map list_sum fold_right size]. fold (list_sum (map size (atoms (ofs + Z.of_nat a) rest))).
        rewrite size_atoms, type_size_some, !length_firstn. lia.
      * cbn [sum_blocksize blocksize bind]. fold sum_blocksize.
        rewrite sum_blocksize_atoms. reflexivity.
      * intros k len Hk Hcov. exfalso.
        destruct k as [|k].
        -- simpl in Hk. injection Hk as <-. simpl in Hcov. lia.
        -- cbn [firstn list_sum fold_right] in Hcov. lia.
    + (* this field is filled; go on with the rest of the block *)
      destruct (IH (ofs + Z.of_nat a) (skipn a block) (total + a)%nat expected)
        as [l' [total' [E [Hsize [Hbs Hnth]]]]].
      { rewrite length_skipn. lia. }
      { lia. }
      rewrite E.
      exists (type_ ofs a (Some (firstn a (firstn a block))) :: l'), total'.
      split; [reflexivity|]. split; [|split].
      * cbn [map list_sum fold_right size]. fold (list_sum (map size l')).
        rewrite Hsize, type_size_some, !length_firstn, length_skipn. lia.
      * cbn [sum_blocksize blocksize bind]. fold sum_blocksize.
        rewrite Hbs. reflexivity.
      * intros k len Hk Hcov.
        destruct k as [|k].
        -- simpl in Hk. injection Hk as <-.
           cbn [firstn list_sum fold_right nth_error skipn].
           rewrite Z.add_0_r, firstn_firstn, Nat.min_id. reflexivity.
        -- cbn [nth_error] in Hk. cbn [firstn list_sum fold_right] in Hcov |- *.
           fold (list_sum (firstn k rest)) in *.
           cbn [nth_error]. rewrite (Hnth k len Hk).
           ++ rewrite skipn_skipn.
              replace (ofs + Z.of_nat a + Z.of_nat (list_sum (firstn k rest)))
                with (ofs + Z.of_nat (a + list_sum (firstn k rest))) by lia.
              replace (list_sum (firstn k rest) + a)%nat
                with (a + list_sum (firstn k rest))%nat by lia.
              reflexivity.
           ++ rewrite length_skipn. lia.
Qed.

End PtypeFacts.

Module PstructFacts.

Import Provider Ptype Layout PtypeFacts ProviderFacts.

Lemma create_fields_atoms {P : Type} `{provider P}
  (load_field : P -> shape -> Z -> P * instance * option exn * list log_entry)
  (lens : list nat) :
  forall (src : P) (ofs : Z) (current : nat),
    Pstruct.create_fields load_field src None (map type_shape lens) ofs current
    = (src, atoms ofs lens, None, []).
Proof.
  induction lens as [|len rest IH]; intros src ofs current; [reflexivity|].
  cbn [map Pstruct.create_fields iscontainer new blocksize].
  rewrite IH. reflexivity.
Qed.

(** C1 (as amended).  A structure of atomic fields is loaded from a string
    provider that holds fewer bytes at the structure's offset than the
    structure's blocksize.  The load returns the instance and raises
    nothing: the [LoadError] is caught by [container.load], which logs the
    incomplete read.  The instance holds exactly the bytes there were, so
    its size is below its blocksize, and every field that those bytes
    cover holds its bytes. *)
Theorem short_load_keeps_fields (lens : list nat) (data : bytes)
  (position cursor : Z) :
  0 <= position ->
  (length data - Z.to_nat position < list_sum lens)%nat ->
  exists src value,
    Loader.load (mk_string data cursor) false None None
                (pstruct_shape (map type_shape lens)) position
    = (src, container_ position (Some value), None,
       [Log_unable_to_complete_read], None) /\
    blocksize (container_ position (Some value)) = Ok (list_sum lens) /\
    size (container_ position (Some value))
    = (length data - Z.to_nat position)%nat /\
    (size (container_ position (Some value)) < list_sum lens)%nat /\
    forall (k len : nat),
      nth_error lens k = Some len ->
      (0 < length data - Z.to_nat position)%nat ->
      (list_sum (firstn k lens) + len <= length data - Z.to_nat position)%nat ->
      nth_error value k =
      Some (type_ (position + Z.of_nat (list_sum (firstn k lens))) len
              (Some (firstn len
                       (skipn (Z.to_nat position + list_sum (firstn k lens))
                              data)))).
Proof.
  intros Hpos Hshort.
  cbn [Loader.load]. unfold Pstruct.load.
  rewrite create_fields_atoms.
  unfold container_load, base_load, own_blocksize.
  rewrite blocksize_container, sum_blocksize_atoms.
  cbn [seek consume string_provider string_seek getoffset snd
       Provider.data Provider.offset].
  rewrite string_consume_spec by lia.
  destruct (Z.leb_spec (Z.of_nat (length data)) position) as [Hpast | Hin].
  - (* nothing to read at the offset *)
    rewrite blocksize_container, sum_blocksize_atoms.
    cbn [size]. rewrite size_atoms.
    destruct (Nat.ltb_spec 0 (list_sum lens)); [|lia].
    eexists. exists (atoms position lens).
    split; [reflexivity|]. split; [apply sum_blocksize_atoms|].
    cbn [size]. rewrite size_atoms.
    split; [lia|]. split; [lia|].
    intros k len _ Havail. lia.
  - destruct (Z.leb_spec (position + Z.of_nat (list_sum lens))
                         (Z.of_nat (length data))); [lia|].
    rewrite deserialize_block_container.
    unfold own_blocksize. rewrite blocksize_container, sum_blocksize_atoms.
    destruct (deserialize_children_short lens position
                (skipn (Z.to_nat position) data) 0%nat (list_sum lens))
      as [l' [total' [E [Hsize [Hbs Hnth]]]]].
    { rewrite length_skipn. lia. }
    { lia. }
    rewrite E. rewrite blocksize_container, Hbs.
    cbn [size]. rewrite Hsize, length_skipn.
    destruct (Nat.ltb_spec (length data - Z.to_nat position) (list_sum lens)); [|lia].
    eexists. exists l'.
    split; [reflexivity|]. split; [exact Hbs|].
    cbn [size]. rewrite Hsize, length_skipn.
    split; [reflexivity|]. split; [assumption|].
    intros k len Hk _ Hcov.
    rewrite (Hnth k len Hk) by (rewrite length_skipn; lia).
    rewrite skipn_skipn.
    replace (list_sum (firstn k lens) + Z.to_nat position)%nat
      with (Z.to_nat position + list_sum (firstn k lens))%nat by lia.
    reflexivity.
Qed.

Lemma short_load_keeps_fields_witness :
  0 <= 0 /\
  (length [x41; x42; x43; x44; x45; x46] - Z.to_nat 0 < list_sum [4; 4])%nat /\
  exists src value,
    Loader.load (mk_string [x41; x42; x43; x44; x45; x46] 0) false None None
                (pstruct_shape (map type_shape [4; 4]%nat)) 0
    = (src, container_ 0 (Some value), None,
       [Log_unable_to_complete_read], None) /\
    nth_error value 0 = Some (type_ 0 4 (Some [x41; x42; x43; x44])).
Proof.
  assert (H0 : 0 <= 0) by lia.
  assert (H1 : (length [x41; x42; x43; x44; x45; x46] - Z.to_nat 0
                < list_sum [4; 4])%nat) by (simpl; lia).
  split; [exact H0|]. split; [exact H1|].
  destruct (short_load_keeps_fields [4; 4]%nat [x41; x42; x43; x44; x45; x46]
              0 0 H0 H1) as [src [value [E [_ [_ [_ Hnth]]]]]].
  exists src, value. split; [exact E|].
  apply (Hnth 0%nat 4%nat); simpl; [reflexivity | lia | lia].
Defined.

(** C1 as stated fails: loading a structure of two four-byte fields from
    the six bytes ["ABCDEF"] raises nothing; [load] returns the instance
    with the first field read and the second holding two bytes. *)
Lemma short_load_does_not_raise :
  Loader.load (mk_string [x41; x42; x43; x44; x45; x46] 0) false None None
              (pstruct_shape [type_shape 4; type_shape 4]) 0
  = (mk_string [x41; x42; x43; x44; x45; x46] 8,
     container_ 0 (Some [type_ 0 4 (Some [x41; x42; x43; x44]);
                         type_ 4 4 (Some [x45; x46])]),
     None, [Log_unable_to_complete_read], None).
Proof. reflexivity. Qed.

End PstructFacts.

Module OffsetFacts.

Import Ptype Layout PtypeFacts.

(** Induction on an instance tree, with the hypothesis for every child. *)
Lemma instance_rect' (Q : instance -> Prop)
  (Htype : forall position length value, Q (type_ position length value))
  (Hnone : forall position, Q (container_ position None))
  (Hsome : forall position l, Forall Q l -> Q (container_ position (Some l))) :
  forall i, Q i.
Proof.
  fix IH 1. intros [position length value | position [l|]].
  - apply Htype.
  - apply Hsome. induction l as [|n rest IHl]; constructor; [apply IH | exact IHl].
  - apply Hnone.
Qed.

Lemma blocksize_erase : forall i, blocksize (erase i) = blocksize i.
Proof.
  induction i as [| |position l IH] using instance_rect'; try reflexivity.
  cbn [erase]. change (sum_blocksize (map erase l) = sum_blocksize l).
  induction IH as [|n rest Hn _ IHrest]; [reflexivity|].
  cbn [map sum_blocksize]. fold sum_blocksize. rewrite Hn, IHrest. reflexivity.
Qed.

Lemma size_erase : forall i, size (erase i) = size i.
Proof.
  induction i as [| |position l IH] using instance_rect'; try reflexivity.
  cbn [erase size]. f_equal. rewrite map_map.
  induction IH as [|n rest Hn _ IHrest]; [reflexivity|].
  cbn [map]. rewrite Hn, IHrest. reflexivity.
Qed.

Lemma initializedQ_erase : forall i, initializedQ (erase i) = initializedQ i.
Proof.
  induction i as [| |position l IH] using instance_rect'; try reflexivity.
  change (erase (container_ position (Some l)))
    with (container_ 0 (Some (map erase l))).
  cbn [initializedQ].
  change (container_ 0 (Some (map erase l)))
    with (erase (container_ position (Some l))).
  rewrite blocksize_erase, size_erase. f_equal.
  induction IH as [|n rest Hn _ IHrest]; [reflexivity|].
  cbn [map forallb]. rewrite Hn, IHrest. reflexivity.
Qed.

Lemma advance_erase (i j : instance) : erase i = erase j -> advance i = advance j.
Proof.
  intros E. unfold advance.
  rewrite <- (initializedQ_erase i), <- (size_erase i), <- (blocksize_erase i), E.
  rewrite initializedQ_erase, size_erase, blocksize_erase. reflexivity.
Qed.

Lemma allocated_erase : forall i, allocated (erase i) = allocated i.
Proof.
  induction i as [| |position l IH] using instance_rect'; try reflexivity.
  cbn [erase allocated].
  induction IH as [|n rest Hn _ IHrest]; [reflexivity|].
  cbn [map forallb]. rewrite Hn, IHrest. reflexivity.
Qed.

Lemma allocated_blocksize : forall i, allocated i = true -> exists b, blocksize i = Ok b.
Proof.
  induction i as [position length value| |position l IH] using instance_rect';
    intros A.
  - eexists; reflexivity.
  - discriminate.
  - cbn [allocated] in A. change (exists b, sum_blocksize l = Ok b).
    induction IH as [|n rest Hn _ IHrest]; [eexists; reflexivity|].
    cbn [forallb] in A. apply andb_prop in A as [An Ar].
    destruct (Hn An) as [b Eb]. destruct (IHrest Ar) as [s Es].
    cbn [sum_blocksize]. fold sum_blocksize. rewrite Eb, Es.
    eexists; reflexivity.
Qed.

Lemma allocated_advance (i : instance) :
  allocated i = true -> exists d, advance i = Ok d.
Proof.
  intros A. unfold advance. destruct (initializedQ i); [eexists; reflexivity|].
  apply allocated_blocksize; assumption.
Qed.

Lemma chained_nth (l : list instance) :
  forall (offset : Z) (k : nat) (a b : instance),
    chained offset l ->
    nth_error l k = Some a -> nth_error l (S k) = Some b ->
    exists d, advance a = Ok d /\ getoffset b = getoffset a + Z.of_nat d.
Proof.
  induction l as [|n rest IH]; intros offset k a b C Ha Hb.
  - destruct k; discriminate.
  - cbn [chained] in C. destruct C as [Hn [d [Hd C]]].
    destruct k as [|k].
    + cbn [nth_error] in Ha, Hb. injection Ha as <-.
      destruct rest as [|m rest']; [discriminate|].
      cbn [nth_error] in Hb. injection Hb as <-.
      cbn [chained] in C. destruct C as [Hm _].
      exists d. split; [assumption | lia].
    + cbn [nth_error] in Ha. apply (IH _ k a b C Ha Hb).
Qed.

Lemma walk_children_chain (l : list instance) :
  Forall moves_cleanly l -> forallb allocated l = true ->
  forall offset, exists l',
    walk_children true offset l = (l', None) /\
    map erase l' = map erase l /\ chained offset l'.
Proof.
  induction 1 as [|n rest Hn _ IH]; intros A offset.
  - exists []. repeat split.
  - cbn [forallb] in A. apply andb_prop in A as [An Ar].
    destruct (Hn An offset) as [n' [En [Ee Eo]]].
    cbn [walk_children]. fold (walk_children true). rewrite En.
    assert (An' : allocated n' = true)
      by (rewrite <- allocated_erase, Ee, allocated_erase; assumption).
    destruct (allocated_advance n' An') as [d Ed].
    unfold advance in Ed. rewrite Ed.
    destruct (IH Ar (offset + Z.of_nat d)) as [rest' [Er [Ere C]]].
    rewrite Er. exists (n' :: rest').
    split; [reflexivity|]. split.
    + cbn [map]. rewrite Ee, Ere. reflexivity.
    + cbn [chained]. split; [assumption|]. exists d. split; assumption.
Qed.

Lemma setposition_moves_cleanly : forall i, moves_cleanly i.
Proof.
  induction i as [position length value| |position l IH] using instance_rect';
    intros A offset.
  - eexists. repeat split.
  - discriminate.
  - cbn [allocated] in A.
    destruct (walk_children_chain l IH A offset) as [l' [E [Ee _]]].
    rewrite setposition_container, E.
    exists (container_ offset (Some l')).
    split; [reflexivity|]. split; [|reflexivity].
    cbn [erase]. rewrite Ee. reflexivity.
Qed.

(** A recursive [setposition] of a container chains the offsets of its
    children from the container's offset. *)
Lemma setposition_children (position offset : Z) (l : list instance) :
  forallb allocated l = true ->
  exists l',
    setposition offset true (container_ position (Some l))
      = (container_ offset (Some l'), None) /\
    map erase l' = map erase l /\ chained offset l'.
Proof.
  intros A.
  destruct (walk_children_chain l) with (offset := offset) as [l' [E [Ee C]]].
  - apply Forall_forall. intros n _. apply setposition_moves_cleanly.
  - assumption.
  - rewrite setposition_container, E. exists l'. repeat split; assumption.
Qed.

Lemma reflow_clean (l : list instance) :
  forallb allocated l = true ->
  forall offset, exists l',
    Parray.reflow offset l = (l', None) /\ map erase l' = map erase l.
Proof.
  induction l as [|n rest IH]; intros A offset.
  - exists []. split; reflexivity.
  - cbn [forallb] in A. apply andb_prop in A as [An Ar].
    destruct (setposition_moves_cleanly n An offset) as [n' [En [Ee _]]].
    cbn [Parray.reflow]. unfold setoffset. rewrite En.
    assert (An' : allocated n' = true)
      by (rewrite <- allocated_erase, Ee, allocated_erase; assumption).
    destruct (allocated_blocksize n' An') as [b Eb]. rewrite Eb.
    destruct (IH Ar (offset + Z.of_nat b)) as [rest' [Er Ere]].
    rewrite Er. exists (n' :: rest'). split; [reflexivity|].
    cbn [map]. rewrite Ee, Ere. reflexivity.
Qed.

Lemma forallb_allocated_erase (l l' : list instance) :
  map erase l' = map erase l ->
  forallb allocated l' = forallb allocated l.
Proof.
  revert l'. induction l as [|n rest IH]; intros [|n' rest'] E;
    try discriminate; [reflexivity|].
  cbn [map] in E. injection E as En Er.
  cbn [forallb]. rewrite (IH rest' Er).
  rewrite <- (allocated_erase n'), En, allocated_erase. reflexivity.
Qed.

Lemma chained_follows (l : list instance) (offset : Z) :
  chained offset l -> follows offset l.
Proof.
  intros C. split.
  - intros first Hf. destruct l as [|n rest]; [discriminate|].
    cbn [nth_error] in Hf. injection Hf as <-. cbn [chained] in C. tauto.
  - intros k previous next Hp Hn. exact (chained_nth l offset k previous next C Hp Hn).
Qed.

(** C7.  Setting the offset of a container recursively places its first
    child at that offset and each next child at the previous child's
    offset plus the previous child's [size()] when that child is
    initialized, its [blocksize()] when not ([follows], through
    [advance]); the children keep their data.  So after an [insert] into
    an array followed by the recursive offset update, the elements are
    the old ones with the new one at [index], and every element that
    comes after an initialized one sits at the previous offset plus the
    previous size. *)
Theorem recursive_offsets_reflow :
  (forall (position offset : Z) (l : list instance),
      forallb allocated l = true ->
      exists l',
        setposition offset true (container_ position (Some l))
          = (container_ offset (Some l'), None) /\
        map erase l' = map erase l /\ follows offset l') /\
  (forall (position : Z) (value : list instance) (index : nat)
          (object : instance),
      forallb allocated value = true -> allocated object = true ->
      (index < length value)%nat ->
      exists value1 value2,
        Parray.insert (container_ position (Some value)) index object
          = (container_ position (Some value1), None) /\
        setoffset position true (container_ position (Some value1))
          = (container_ position (Some value2), None) /\
        map erase value2
          = map erase (firstn index value ++ object :: skipn index value) /\
        follows position value2 /\
        forall (k : nat) (previous next : instance),
          nth_error value2 k = Some previous ->
          nth_error value2 (S k) = Some next ->
          initializedQ previous = true ->
          getoffset next = getoffset previous + Z.of_nat (size previous)).
Proof.
  split.
  - intros position offset l A.
    destruct (setposition_children position offset l A) as [l' [E [Ee C]]].
    exists l'. split; [exact E|]. split; [exact Ee|].
    apply chained_follows. exact C.
  - intros position value index object Av Ao Hi.
    unfold Parray.insert.
    destruct (nth_error value index) as [displaced|] eqn:Ed;
      [|apply nth_error_None in Ed; lia].
    destruct (setposition_moves_cleanly object Ao (getoffset displaced))
      as [object' [Eo [Eeo _]]].
    unfold setoffset at 1. rewrite Eo.
    assert (E1 : firstn index (firstn index value ++ object' :: skipn index value)
                 = firstn index value).
    { rewrite firstn_app, firstn_firstn, Nat.min_id, length_firstn.
      replace (index - Nat.min index (length value))%nat with 0%nat by lia.
      cbn [firstn]. apply app_nil_r. }
    assert (E2 : skipn index (firstn index value ++ object' :: skipn index value)
                 = object' :: skipn index value).
    { rewrite skipn_app, length_firstn.
      replace (index - Nat.min index (length value))%nat with 0%nat by lia.
      rewrite skipn_firstn_comm.
      replace (index - index)%nat with 0%nat by lia. reflexivity. }
    rewrite E1, E2.
    assert (Ao' : allocated object' = true)
      by (rewrite <- allocated_erase, Eeo, allocated_erase; assumption).
    assert (As : forallb allocated (skipn index value) = true).
    { rewrite <- (firstn_skipn index value), forallb_app in Av.
      apply andb_prop in Av as [_ Av]. exact Av. }
    assert (Af : forallb allocated (firstn index value) = true).
    { rewrite <- (firstn_skipn index value), forallb_app in Av.
      apply andb_prop in Av as [Av _]. exact Av. }
    destruct (reflow_clean (object' :: skipn index value)) with
      (offset := getoffset displaced) as [moved [Em Eem]].
    { cbn [forallb]. rewrite Ao', As. reflexivity. }
    rewrite Em.
    assert (Ev1 : map erase (firstn index value ++ moved)
                  = map erase (firstn index value ++ object :: skipn index value)).
    { rewrite !map_app, Eem. cbn [map]. rewrite Eeo. reflexivity. }
    assert (A1 : forallb allocated (firstn index value ++ moved) = true).
    { rewrite (forallb_allocated_erase _ _ Ev1), forallb_app.
      cbn [forallb]. rewrite Af, Ao, As. reflexivity. }
    destruct (setposition_children position position _ A1) as [value2 [E [Ee C]]].
    exists (firstn index value ++ moved), value2.
    split; [reflexivity|]. split; [exact E|].
    split; [rewrite Ee; exact Ev1|].
    split; [apply chained_follows; exact C|].
    intros k previous next Hp Hn Hinit.
    destruct (chained_nth value2 position k previous next C Hp Hn) as [d [Hd Ho]].
    unfold advance in Hd. rewrite Hinit in Hd. injection Hd as <-. exact Ho.
Qed.

Lemma recursive_offsets_reflow_witness :
  forallb allocated [type_ 0 2 (Some [x41; x42]); type_ 2 2 (Some [x43; x44])]
    = true /\
  allocated (type_ 100 3 (Some [x58; x59; x5a])) = true /\
  (1 < length [type_ 0 2 (Some [x41; x42]); type_ 2 2 (Some [x43; x44])])%nat /\
  exists value1 value2,
    Parray.insert
      (container_ 0 (Some [type_ 0 2 (Some [x41; x42]);
                           type_ 2 2 (Some [x43; x44])]))
      1 (type_ 100 3 (Some [x58; x59; x5a]))
      = (container_ 0 (Some value1), None) /\
    setoffset 0 true (container_ 0 (Some value1))
      = (container_ 0 (Some value2), None) /\
    map getoffset value2 = [0; 2; 5].
Proof.
  split; [reflexivity|]. split; [reflexivity|]. split; [simpl; lia|].
  destruct (proj2 recursive_offsets_reflow 0
              [type_ 0 2 (Some [x41; x42]); type_ 2 2 (Some [x43; x44])]
              1%nat (type_ 100 3 (Some [x58; x59; x5a])))
    as [value1 [value2 [E1 [E2 _]]]]; [reflexivity | reflexivity | simpl; lia |].
  exists value1, value2. split; [exact E1|]. split; [exact E2|].
  cbv in E1. injection E1 as <-. cbv in E2. injection E2 as <-. reflexivity.
Defined.

End OffsetFacts.

Module ParrayFacts.

Import Provider Ptype Layout PtypeFacts ProviderFacts.

Lemma load_element_atom (data : bytes) (len : nat) (ofs cursor : Z) :
  (0 < len)%nat -> 0 <= ofs ->
  (Z.to_nat ofs + len <= length data)%nat ->
  Loader.load_element (type_shape len) (mk_string data cursor) ofs
  = (mk_string data (ofs + Z.of_nat len), element data ofs len 0, None, []).
Proof.
  intros Hlen Hofs Hfit.
  unfold Loader.load_element. cbn [Loader.load new].
  unfold base_load, own_blocksize.
  cbn [blocksize getoffset seek consume string_provider string_seek
       Provider.data Provider.offset].
  rewrite string_consume_spec by lia.
  destruct (Z.leb_spec (Z.of_nat (length data)) ofs); [lia|].
  destruct (Z.leb_spec (ofs + Z.of_nat len) (Z.of_nat (length data))); [|lia].
  cbn [deserialize_block].
  rewrite Nat2Z.id, length_firstn, length_skipn.
  destruct (Nat.ltb_spec (Nat.min len (length data - Z.to_nat ofs)) len); [lia|].
  unfold element. rewrite firstn_firstn, Nat.min_id.
  cbn [Nat.mul]. rewrite Z.add_0_r, Nat.add_0_r. reflexivity.
Qed.

Lemma blocksize_element (data : bytes) (position : Z) (len j : nat) :
  blocksize (element data position len j) = Ok len.
Proof. reflexivity. Qed.

Lemma element_shift (data : bytes) (position : Z) (len j : nat) :
  0 <= position ->
  element data (position + Z.of_nat len) len j = element data position len (S j).
Proof.
  intros Hp. unfold element. cbn [Nat.mul].
  replace (position + Z.of_nat len + Z.of_nat (j * len))
    with (position + Z.of_nat (len + j * len)) by lia.
  replace (Z.to_nat (position + Z.of_nat len) + j * len)%nat
    with (Z.to_nat position + (len + j * len))%nat by lia.
  reflexivity.
Qed.

Lemma elements_shift (data : bytes) (position : Z) (len n : nat) :
  0 <= position ->
  map (element data position len) (seq 1 n)
  = map (element data (position + Z.of_nat len) len) (seq 0 n).
Proof.
  intros Hp. rewrite <- seq_shift, map_map.
  apply map_ext. intros j. symmetry. apply element_shift. assumption.
Qed.

Section Terminated.

Variable data : bytes.
Variable len : nat.
Variable isTerminator : instance -> bool.
Hypothesis Hlen : (0 < len)%nat.

Lemma terminated_loop_stops (k : nat) :
  forall (position cursor : Z) (fuel : nat),
    0 <= position ->
    (Z.to_nat position + S k * len <= length data)%nat ->
    (forall j, (j < k)%nat ->
               isTerminator (element data position len j) = false) ->
    isTerminator (element data position len k) = true ->
    (k < fuel)%nat ->
    Parray.terminated_loop (Loader.load_element (type_shape len)) isTerminator
                           fuel (mk_string data cursor) position
    = Some (mk_string data (position + Z.of_nat (S k * len)),
            map (element data position len) (seq 0 (S k)), None).
Proof.
  induction k as [|k IH]; intros position cursor fuel Hp Hfit Hnot Hterm Hfuel;
    (destruct fuel as [|fuel]; [lia|]); cbn [Parray.terminated_loop];
    rewrite load_element_atom by (cbn [Nat.mul] in Hfit; lia).
  - rewrite Hterm. cbn [seq map Nat.mul]. rewrite Nat.add_0_r. reflexivity.
  - rewrite (Hnot 0%nat) by lia.
    rewrite blocksize_element.
    destruct (Nat.leb_spec len 0); [lia|]. cbn [andb].
    rewrite (IH (position + Z.of_nat len) (position + Z.of_nat len) fuel).
    + change (seq 0 (S (S k))) with (0%nat :: seq 1 (S k)). cbn [map].
      rewrite <- elements_shift by assumption.
      do 3 f_equal. f_equal. cbn [Nat.mul]. lia.
    + lia.
    + cbn [Nat.mul] in Hfit |- *. lia.
    + intros j Hj. rewrite element_shift by assumption. apply Hnot. lia.
    + rewrite element_shift by assumption. exact Hterm.
    + lia.
Qed.

End Terminated.

Section Block.

Variable data : bytes.
Variable len : nat.
Variable limit : nat.
Hypothesis Hlen : (0 < len)%nat.

Lemma block_loop_stops (m : nat) :
  forall (position cursor : Z) (current fuel : nat),
    0 <= position ->
    (Z.to_nat position + S m * len <= length data)%nat ->
    (current + m * len < limit)%nat ->
    (limit <= current + S m * len)%nat ->
    (m < fuel)%nat ->
    Parray.block_loop (Loader.load_element (type_shape len)) (fun _ => false)
                      fuel limit (mk_string data cursor) position current
    = Some (mk_string data (position + Z.of_nat (S m * len)),
            map (element data position len) (seq 0 (S m)), None).
Proof.
  induction m as [|m IH];
    intros position cursor current fuel Hp Hfit Hbelow Hreach Hfuel;
    (destruct fuel as [|fuel]; [lia|]); cbn [Parray.block_loop];
    rewrite load_element_atom by (cbn [Nat.mul] in Hfit; lia);
    rewrite blocksize_element;
    (destruct (Nat.leb_spec len 0); [lia|]); cbn [andb].
  - destruct (Nat.leb_spec limit (current + len)); [|cbn [Nat.mul] in Hreach; lia].
    cbn [seq map Nat.mul]. rewrite Nat.add_0_r. reflexivity.
  - destruct (Nat.leb_spec limit (current + len));
      [cbn [Nat.mul] in Hbelow; lia|].
    rewrite (IH (position + Z.of_nat len) (position + Z.of_nat len)
                (current + len)%nat fuel).
    + change (seq 0 (S (S m))) with (0%nat :: seq 1 (S m)). cbn [map].
      rewrite <- elements_shift by assumption.
      do 3 f_equal. f_equal. cbn [Nat.mul]. lia.
    + lia.
    + cbn [Nat.mul] in Hfit |- *. lia.
    + cbn [Nat.mul] in Hbelow. lia.
    + cbn [Nat.mul] in Hreach |- *. lia.
    + lia.
Qed.

End Block.

(** C8.  Over atomic elements of [len > 0] bytes read from a string
    provider that holds them all:
    a sentinel-terminated array stops at the first element that
    [isTerminator] accepts and keeps that element, so it has [k + 1]
    elements when the [k]-th is the first accepted one;
    a block-bounded array stops at the first element with which the sizes
    read reach its blocksize, so it has [m + 1] elements when [m] elements
    stay below the blocksize and [m + 1] reach it; the bytes after them
    are not read. *)
Theorem array_termination (data : bytes) (len : nat) (position cursor : Z) :
  (0 < len)%nat -> 0 <= position ->
  (forall (isTerminator : instance -> bool) (k fuel : nat),
      (Z.to_nat position + S k * len <= length data)%nat ->
      (forall j, (j < k)%nat ->
                 isTerminator (element data position len j) = false) ->
      isTerminator (element data position len k) = true ->
      (k < fuel)%nat ->
      Parray.terminated_load (Loader.load_element (type_shape len)) isTerminator
                             fuel (mk_string data cursor) position
      = Some (mk_string data (position + Z.of_nat (S k * len)),
              container_ position
                (Some (map (element data position len) (seq 0 (S k)))),
              None)) /\
  (forall (limit m fuel : nat),
      (Z.to_nat position + S m * len <= length data)%nat ->
      (m * len < limit)%nat -> (limit <= S m * len)%nat ->
      (m < fuel)%nat ->
      Parray.block_load (Loader.load_element (type_shape len)) (fun _ => false)
                        fuel limit (mk_string data cursor) position
      = Some (mk_string data (position + Z.of_nat (S m * len)),
              container_ position
                (Some (map (element data position len) (seq 0 (S m)))),
              None)).
Proof.
  intros Hlen Hp. split.
  - intros isTerminator k fuel Hfit Hnot Hterm Hfuel.
    unfold Parray.terminated_load.
    rewrite (terminated_loop_stops data len isTerminator Hlen k) by assumption.
    reflexivity.
  - intros limit m fuel Hfit Hbelow Hreach Hfuel.
    unfold Parray.block_load.
    destruct (Nat.eqb_spec limit 0); [lia|].
    rewrite (block_loop_stops data len limit Hlen m) by (assumption || lia).
    reflexivity.
Qed.

Lemma array_termination_witness :
  (0 < 1)%nat /\ 0 <= 0 /\
  Parray.terminated_load (Loader.load_element (type_shape 1)) is_zero_byte
                         10 (mk_string ABAB0CD 0) 0
  = Some (mk_string ABAB0CD 5,
          container_ 0 (Some [type_ 0 1 (Some [x41]); type_ 1 1 (Some [x42]);
                              type_ 2 1 (Some [x41]); type_ 3 1 (Some [x42]);
                              type_ 4 1 (Some [x00])]),
          None) /\
  Parray.block_load (Loader.load_element (type_shape 4)) (fun _ => false)
                    10 4 (mk_string WXYZ1234 0) 0
  = Some (mk_string WXYZ1234 4,
          container_ 0 (Some [type_ 0 4 (Some [x57; x58; x59; x5a])]), None).
Proof.
  assert (H0 : (0 < 1)%nat) by lia. assert (H1 : 0 <= 0) by lia.
  assert (H4 : (0 < 4)%nat) by lia.
  split; [exact H0|]. split; [exact H1|]. split.
  - destruct (array_termination ABAB0CD 1 0 0 H0 H1) as [Hterm _].
    rewrite (Hterm is_zero_byte 4%nat 10%nat).
    + reflexivity.
    + simpl. lia.
    + intros j Hj.
      destruct j as [|[|[|[|j]]]]; try reflexivity. lia.
    + reflexivity.
    + lia.
  - destruct (array_termination WXYZ1234 4 0 0 H4 H1) as [_ Hblock].
    rewrite (Hblock 4%nat 0%nat 10%nat);
      [reflexivity | simpl; lia | lia | lia | lia].
Defined.

End ParrayFacts.

Module DynamicFacts.

Import Dynamic.

(** For an alignment that is a power of two, the blocksize of an [align]
    field sitting at offset [o] in its parent is [(-o) mod size]. *)
Lemma align_blocksize_power_of_two (k : Z) (p : parent) (idx : nat) :
  0 <= k -> self_index p = Some idx ->
  align_blocksize (2 ^ k) (Some p) = (- field_offset p idx) mod 2 ^ k.
Proof.
  intros Hk Hi. unfold align_blocksize, field_offset. rewrite Hi.
  rewrite <- Z.land_ones by assumption. f_equal.
  rewrite Z.ones_equiv. lia.
Qed.

Lemma align_blocksize_power_of_two_witness :
  0 <= 2 /\ self_index (mk_parent 0 [1; 3] (Some 1%nat)) = Some 1%nat /\
  align_blocksize (2 ^ 2) (Some (mk_parent 0 [1; 3] (Some 1%nat))) = 3.
Proof.
  assert (H0 : 0 <= 2) by lia.
  split; [exact H0|]. split; [reflexivity|].
  rewrite (align_blocksize_power_of_two 2 (mk_parent 0 [1; 3] (Some 1%nat))
             1 H0 eq_refl).
  reflexivity.
Defined.

(** C9.  [align] masks the negated offset with [size - 1], which is the
    distance to the next multiple of [size] only when [size] is a power of
    two.  An [align(3)] field at offset 2 has blocksize 2, where
    [(-2) mod 3] is 1, and the field after it sits at offset 4, which is
    no multiple of 3. *)
Theorem align_three_misaligned :
  field_offset (mk_parent 0 [2; 2] (Some 1%nat)) 1 = 2 /\
  align_blocksize 3 (Some (mk_parent 0 [2; 2] (Some 1%nat))) = 2 /\
  (- field_offset (mk_parent 0 [2; 2] (Some 1%nat)) 1) mod 3 = 1 /\
  (field_offset (mk_parent 0 [2; 2] (Some 1%nat)) 1
   + align_blocksize 3 (Some (mk_parent 0 [2; 2] (Some 1%nat)))) mod 3 = 1.
Proof. repeat split; reflexivity. Qed.

End DynamicFacts.

Module CastFacts.

Import Ptype Layout PtypeFacts OffsetFacts Cast.

(** *** The heap *)

Lemma length_store (h : heap) (a : nat) (o : object) :
  length (store h a o) = length h.
Proof.
  revert a. induction h as [|x rest IH]; intros [|a]; cbn [store length];
    try reflexivity. rewrite IH. reflexivity.
Qed.

Lemma nth_error_store_same (h : heap) (a : nat) (o : object) :
  (a < length h)%nat -> nth_error (store h a o) a = Some o.
Proof.
  revert a. induction h as [|x rest IH]; intros [|a] Ha; cbn [length] in Ha;
    try lia; cbn [store nth_error]; [reflexivity|]. apply IH. lia.
Qed.

Lemma nth_error_store_other (h : heap) (a b : nat) (o : object) :
  a <> b -> nth_error (store h a o) b = nth_error h b.
Proof.
  revert a b. induction h as [|x rest IH]; intros [|a] [|b] Hab;
    cbn [store nth_error]; try reflexivity; try lia. apply IH. lia.
Qed.

Lemma store_same (h : heap) (a : nat) (o : object) :
  nth_error h a = Some o -> store h a o = h.
Proof.
  revert a. induction h as [|x rest IH]; intros [|a] Ha; cbn [store nth_error] in *;
    try reflexivity.
  - injection Ha as ->. reflexivity.
  - rewrite (IH a Ha). reflexivity.
Qed.

Lemma store_store (h : heap) (a : nat) (o o' : object) :
  store (store h a o) a o' = store h a o'.
Proof.
  revert a. induction h as [|x rest IH]; intros [|a]; cbn [store];
    try reflexivity. rewrite IH. reflexivity.
Qed.

Lemma store_app_left (h : heap) (a : nat) (o n : object) :
  (a < length h)%nat -> store (h ++ [n]) a o = store h a o ++ [n].
Proof.
  revert a. induction h as [|x rest IH]; intros [|a] Ha; cbn [length] in Ha;
    try lia; cbn [store app]; [reflexivity|]. rewrite IH by lia. reflexivity.
Qed.

Lemma store_app_last (h : heap) (o n : object) :
  store (h ++ [n]) (length h) o = h ++ [o].
Proof.
  induction h as [|x rest IH]; cbn [store app length]; [reflexivity|].
  rewrite IH. reflexivity.
Qed.

Lemma set_attributes_restore (x : object) :
  set_attributes (set_attributes x []) (obj_attributes x) = x.
Proof. destruct x; reflexivity. Qed.

(** The heap after the attributes of [self] were cleared, the result was
    created and the attributes were put back: the old heap and one new
    object. *)
Lemma assign_new_restore (h : heap) (self : nat) (x n : object) :
  nth_error h self = Some x ->
  match nth_error (store h self (set_attributes x []) ++ [n]) self with
  | Some x' =>
      store (store h self (set_attributes x []) ++ [n]) self
            (set_attributes x' (obj_attributes x))
  | None => store h self (set_attributes x []) ++ [n]
  end = h ++ [n].
Proof.
  intros Hx.
  assert (Hlt : (self < length h)%nat) by (apply nth_error_Some; congruence).
  rewrite nth_error_app1 by (rewrite length_store; assumption).
  rewrite nth_error_store_same by assumption.
  rewrite set_attributes_restore.
  rewrite store_app_left by (rewrite length_store; assumption).
  rewrite store_store, (store_same h self x Hx). reflexivity.
Qed.

(** What [cast] leaves in the heap: either it raised before anything was
    created and the heap is as it was, or the heap is the old one followed
    by one new object, the result. *)
Lemma cast_heap (h : heap) (self : nat) (t : shape) (x : object) :
  nth_error h self = Some x ->
  forall h' r lg,
    cast h self t = (h', r, lg) ->
    (h' = h /\ exists e, r = Raise e) \/
    (exists o, h' = h ++ [o] /\ (forall a, r = Ok a -> a = length h)).
Proof.
  intros Hx h' r lg. unfold cast. rewrite Hx.
  assert (Hlt : (self < length h)%nat) by (apply nth_error_Some; congruence).
  destruct (serialize (obj_parent x) (obj_instance x)) as [data|e0];
    [|intros E; injection E as <- <- _; left; split; [reflexivity | eexists; reflexivity]].
  destruct (blocksize (obj_instance x)) as [bs|e0];
    [|intros E; injection E as <- <- _; left; split; [reflexivity | eexists; reflexivity]].
  cbv zeta.
  rewrite assign_new_restore by assumption.
  rewrite length_store.
  rewrite nth_error_app1, Hx by assumption.
  destruct (Loader.load _ _ _ _ _ _) as [[[[src loaded] e] lg0] home].
  set (moved := match e with
                | Some _ => (loaded, lg0 ++ [Log_cast_error])
                | None => _
                end).
  destruct moved as [loaded' lg1].
  destruct (deserialize_block None loaded' data) as [final e1].
  rewrite !store_app_last.
  intros E. right. eexists. 
  destruct e1 as [[]|]; injection E as <- <- _;
    (split; [reflexivity|]); intros a Ha; try discriminate;
    injection Ha as <-; reflexivity.
Qed.

(** The frame of [cast]: every object that was in the heap, [self]
    included, is there unchanged after the call, whether [cast] returns or
    raises; a returned instance is a new object. *)
Lemma cast_frame (h : heap) (self : nat) (t : shape) (x : object) :
  nth_error h self = Some x ->
  forall h' r lg,
    cast h self t = (h', r, lg) ->
    (forall a o, nth_error h a = Some o -> nth_error h' a = Some o) /\
    (forall a, r = Ok a ->
               a = length h /\ a <> self /\ nth_error h a = None /\
               exists o, nth_error h' a = Some o).
Proof.
  intros Hx h' r lg E.
  assert (Hlt : (self < length h)%nat) by (apply nth_error_Some; congruence).
  destruct (cast_heap h self t x Hx h' r lg E) as [[-> [e ->]] | [o [-> Hr]]].
  - split; [auto|]. intros a Ha. discriminate.
  - split.
    + intros a o' Ha. rewrite nth_error_app1; [assumption|].
      apply nth_error_Some. congruence.
    + intros a Ha. rewrite (Hr a Ha).
      split; [reflexivity|]. split; [lia|].
      split; [apply nth_error_None; lia|].
      exists o. rewrite nth_error_app2, Nat.sub_diag by lia. reflexivity.
Qed.

(** *** [cast] returns on an initialized instance *)

Lemma shape_rect' (Q : shape -> Prop)
  (Htype : forall length, Q (type_shape length))
  (Hstruct : forall fields, Forall Q fields -> Q (pstruct_shape fields))
  (Harray : forall object length, Q object -> Q (parray_shape object length)) :
  forall t, Q t.
Proof.
  fix IH 1. intros [length | fields | object length].
  - apply Htype.
  - apply Hstruct. induction fields as [|f rest IHf]; constructor;
      [apply IH | exact IHf].
  - apply Harray. apply IH.
Qed.

Lemma initialized_allocated :
  forall i, initializedQ i = true -> allocated i = true.
Proof.
  induction i as [| |position l IH] using instance_rect'; intros I;
    try reflexivity; try discriminate.
  cbn [initializedQ] in I. apply andb_prop in I as [I _].
  cbn [allocated]. clear position.
  induction IH as [|n rest Hn _ IHrest]; [reflexivity|].
  cbn [forallb] in I |- *. apply andb_prop in I as [In Ir].
  rewrite (Hn In), (IHrest Ir). reflexivity.
Qed.

Lemma deserialize_children_well (expected : nat) (l : list instance) :
  Forall deserializes_well l ->
  forall block total,
    forallb allocated (fst (fst (deserialize_children expected l block total)))
    = forallb allocated l /\
    (forallb allocated l = true ->
     benign (snd (fst (deserialize_children expected l block total)))).
Proof.
  induction 1 as [|res rest Hres _ IH]; intros block total.
  - split; [reflexivity|]. intros _. left. reflexivity.
  - cbn [deserialize_children]. fold (deserialize_children expected).
    destruct (blocksize res) as [bs|ex] eqn:Ebs.
    + destruct (Hres None (firstn bs block)) as [Ha Hb].
      destruct (deserialize_block None res (firstn bs block)) as [res' e] eqn:Ed.
      cbn [fst snd] in Ha, Hb.
      assert (Step : forall block' total',
                 (let '(rest', e', total'') :=
                    deserialize_children expected rest block' total' in
                  (res' :: rest', e', total'')) =
                 (res' :: fst (fst (deserialize_children expected rest block' total')),
                  snd (fst (deserialize_children expected rest block' total')),
                  snd (deserialize_children expected rest block' total'))).
      { intros block' total'.
        destruct (deserialize_children expected rest block' total') as [[? ?] ?].
        reflexivity. }
      destruct (total <? expected)%nat.
      * destruct e as [ex|].
        -- cbn [fst snd forallb]. rewrite Ha. split; [reflexivity|].
           intros A. apply andb_prop in A as [A _]. apply Hb. assumption.
        -- rewrite Step. cbn [fst snd forallb].
           destruct (IH (skipn bs block) (total + bs)%nat) as [IHa IHb].
           rewrite Ha, IHa. split; [reflexivity|].
           intros A. apply andb_prop in A as [_ A]. apply IHb. assumption.
      * destruct (negb (bs =? 0)%nat).
        -- cbn [fst snd]. split; [reflexivity|]. intros _. left. reflexivity.
        -- destruct e as [ex|].
           ++ cbn [fst snd forallb]. rewrite Ha. split; [reflexivity|].
              intros A. apply andb_prop in A as [A _]. apply Hb. assumption.
           ++ rewrite Step. cbn [fst snd forallb].
              destruct (IH block total) as [IHa IHb].
              rewrite Ha, IHa. split; [reflexivity|].
              intros A. apply andb_prop in A as [_ A]. apply IHb. assumption.
    + cbn [fst snd]. split; [reflexivity|].
      intros A. cbn [forallb] in A. apply andb_prop in A as [A _].
      destruct (allocated_blocksize res A) as [b Eb]. congruence.
Qed.

Lemma deserialize_block_well : forall i, deserializes_well i.
Proof.
  induction i as [position length value| position |position l IH]
    using instance_rect'; intros override block.
  - cbn [deserialize_block].
    destruct (_ <? _)%nat; cbn [fst snd allocated];
      (split; [reflexivity|]); intros _; [right; left | left]; reflexivity.
  - cbn [deserialize_block fst snd]. split; [reflexivity|]. discriminate.
  - rewrite deserialize_block_container.
    destruct (own_blocksize override (container_ position (Some l)))
      as [expected|ex] eqn:Eo.
    + destruct (deserialize_children_well expected l IH block 0%nat) as [Ha Hb].
      destruct (deserialize_children expected l block 0) as [[l' e] total].
      cbn [fst snd] in Ha, Hb.
      assert (G : allocated (container_ position (Some l'))
                  = allocated (container_ position (Some l)))
        by (cbn [allocated]; exact Ha).
      destruct e as [ex|].
      * cbn [fst snd]. split; [exact G|]. exact Hb.
      * destruct (total <? expected)%nat; [|destruct (expected <? total)%nat];
          cbn [fst snd]; (split; [exact G|]); intros _;
          [right; left | right; right | left]; reflexivity.
    + cbn [fst snd]. split; [reflexivity|]. intros A.
      destruct override as [b|]; [discriminate|].
      cbn [own_blocksize] in Eo.
      destruct (allocated_blocksize _ A) as [b Eb]. congruence.
Qed.

Section Loads.

Context {P : Type} `{provider P}.

Lemma base_load_allocated (src : P) (override : option nat) (offset : option Z)
  (i : instance) :
  allocated (snd (fst (base_load src override offset i))) = allocated i.
Proof.
  unfold base_load.
  destruct (own_blocksize override i); [|reflexivity].
  destruct (seek src _) as [old src1].
  destruct (consume src1 _) as [src2 [block|[]]]; try reflexivity.
  destruct (deserialize_block_well i override block) as [Ha _].
  destruct (deserialize_block override i block) as [i' [[]|]];
    cbn [fst snd] in *; exact Ha.
Qed.

Lemma container_load_allocated (src : P) (ambient passed : bool)
  (override : option nat) (offset : option Z) (position : Z)
  (l : list instance) :
  allocated (loaded (container_load src ambient passed override offset
                                    (container_ position (Some l))))
  = forallb allocated l.
Proof.
  unfold container_load, loaded.
  pose proof (base_load_allocated src override offset
                (container_ position (Some l))) as B.
  destruct (base_load src override offset (container_ position (Some l)))
    as [[src1 i'] e].
  cbn [fst snd] in B. cbn [allocated] in B.
  destruct e as [[]|]; cbn [fst snd]; try exact B.
  destruct (if ambient then own_blocksize override i' else blocksize i');
    [|cbn [fst snd]; exact B].
  destruct (passed && negb ambient); cbn [fst snd]; exact B.
Qed.

Lemma create_fields_allocated
  (load_field : P -> shape -> Z -> P * instance * option exn * list log_entry)
  (fields : list shape) :
  Forall (fun t => forall src ofs,
              allocated (snd (fst (fst (load_field src t ofs)))) = true) fields ->
  forall src custom ofs current,
    forallb allocated
      (snd (fst (fst (Pstruct.create_fields load_field src custom fields
                                            ofs current)))) = true.
Proof.
  induction 1 as [|t rest Ht _ IH]; intros src custom ofs current;
    [reflexivity|].
  cbn [Pstruct.create_fields].
  assert (A : allocated
                (snd (fst (fst (if iscontainer t then load_field src t ofs
                                else (src, new t ofs, None, []))))) = true).
  { destruct t; cbn [iscontainer]; try apply Ht. reflexivity. }
  destruct (if iscontainer t then load_field src t ofs
            else (src, new t ofs, None, [])) as [[[src1 n] e] lg].
  cbn [fst snd] in A.
  destruct e as [ex|]; [cbn [fst snd forallb]; rewrite A; reflexivity|].
  destruct (blocksize n) as [bs|ex];
    [|cbn [fst snd forallb]; rewrite A; reflexivity].
  destruct (match custom with
            | Some limit => (limit <? current + bs)%nat
            | None => false
            end); [cbn [fst snd forallb]; rewrite A; reflexivity|].
  specialize (IH src1 custom (ofs + Z.of_nat bs) (current + bs)%nat).
  destruct (Pstruct.create_fields load_field src1 custom rest _ _)
    as [[[src2 ns] e'] lg'].
  cbn [fst snd] in IH |- *. cbn [forallb]. rewrite A, IH. reflexivity.
Qed.

Lemma create_elements_allocated
  (load_element : P -> Z -> P * instance * option exn * list log_entry)
  (new_element : Z -> instance) (object_iscontainer : bool) :
  (forall src ofs, allocated (snd (fst (fst (load_element src ofs)))) = true) ->
  (object_iscontainer = false -> forall ofs, allocated (new_element ofs) = true) ->
  forall count src ofs,
    forallb allocated
      (snd (fst (fst (Parray.create_elements load_element new_element
                        object_iscontainer src count ofs)))) = true.
Proof.
  intros Hl Hn. induction count as [|count IH]; intros src ofs; [reflexivity|].
  cbn [Parray.create_elements].
  assert (A : allocated
                (snd (fst (fst (if object_iscontainer then load_element src ofs
                                else (src, new_element ofs, None, []))))) = true).
  { destruct object_iscontainer; [apply Hl | apply Hn; reflexivity]. }
  destruct (if object_iscontainer then load_element src ofs
            else (src, new_element ofs, None, [])) as [[[src1 n] e] lg].
  cbn [fst snd] in A.
  destruct e as [ex|]; [cbn [fst snd forallb]; rewrite A; reflexivity|].
  destruct (blocksize n) as [bs|ex];
    [|cbn [fst snd forallb]; rewrite A; reflexivity].
  specialize (IH src1 (ofs + Z.of_nat bs)).
  destruct (Parray.create_elements _ _ _ src1 count _) as [[[src2 ns] e'] lg'].
  cbn [fst snd] in IH |- *. cbn [forallb]. rewrite A, IH. reflexivity.
Qed.

(** Whatever the outcome of a load, every container of the instance it
    leaves has a value. *)
Lemma load_allocated : forall (t : shape) (src : P) (passed : bool)
  (override : option nat) (offset : option Z) (position : Z),
  allocated (loaded (Loader.load src passed override offset t position)) = true.
Proof.
  induction t as [length | fields IH | object length IH] using shape_rect';
    intros src passed override offset position.
  - cbn [Loader.load new]. unfold loaded.
    pose proof (base_load_allocated src override offset
                  (type_ position length None)) as B.
    destruct (base_load src override offset (type_ position length None))
      as [[src1 i] e]. cbn [fst snd] in *. exact B.
  - cbn [Loader.load]. unfold Pstruct.load, loaded.
    set (lf := fun (src0 : P) (f : shape) (ofs : Z) =>
                 let '(src1, i, e, lg, _) :=
                   Loader.load src0 false None None f ofs in
                 (src1, i, e, lg)).
    assert (C : forall src custom ofs current,
               forallb allocated
                 (snd (fst (fst (Pstruct.create_fields lf src custom fields
                                                       ofs current)))) = true).
    { apply create_fields_allocated.
      eapply Forall_impl; [|exact IH]. intros f Hf src0 ofs. unfold lf.
      specialize (Hf src0 false None None ofs). unfold loaded in Hf.
      destruct (Loader.load src0 false None None f ofs) as [[[[? ?] ?] ?] ?].
      exact Hf. }
    specialize (C src override
                  (match offset with Some o => o | None => position end) 0%nat).
    destruct (Pstruct.create_fields lf src override fields _ _)
      as [[[src1 value] e] lg].
    cbn [fst snd] in C.
    destruct e as [ex|]; [cbn [fst snd allocated]; exact C|].
    pose proof (container_load_allocated src1 true false override offset
                  position value) as L.
    unfold loaded in L.
    destruct (container_load src1 true false override offset
                (container_ position (Some value))) as [[[[? ?] ?] ?] ?].
    cbn [fst snd] in *. rewrite L. exact C.
  - cbn [Loader.load]. unfold Parray.type_load, loaded.
    set (le := fun (src0 : P) (ofs : Z) =>
                 let '(src1, i, e, lg, _) :=
                   Loader.load src0 false None None object ofs in
                 (src1, i, e, lg)).
    assert (C : forall count src ofs,
               forallb allocated
                 (snd (fst (fst (Parray.create_elements le (new object)
                                   (iscontainer object) src count ofs)))) = true).
    { apply create_elements_allocated.
      - intros src0 ofs. unfold le.
        specialize (IH src0 false None None ofs). unfold loaded in IH.
        destruct (Loader.load src0 false None None object ofs)
          as [[[[? ?] ?] ?] ?]. exact IH.
      - intros Hc ofs. destruct object; try discriminate. reflexivity. }
    specialize (C length src
                  (match offset with Some o => o | None => position end)).
    destruct (Parray.create_elements le (new object) (iscontainer object)
                src length _) as [[[src1 value] e] lg].
    cbn [fst snd] in C.
    destruct e as [ex|]; [cbn [fst snd allocated]; exact C|].
    pose proof (container_load_allocated src1 false passed override offset
                  position value) as L.
    unfold loaded in L.
    destruct (container_load src1 false passed override offset
                (container_ position (Some value))) as [[[[? ?] ?] ?] ?].
    cbn [fst snd] in *. rewrite L. exact C.
Qed.

End Loads.

Lemma serialize_container (parent : parent_view) (position : Z)
  (l : list instance) :
  serialize parent (container_ position (Some l)) =
  let own := blocksize (container_ position (Some l)) in
  let children := serialize_children own position l in
  match own with
  | Raise _ => children
  | Ok bs =>
      do result <- children;
      do bs <- clamp_to_parent parent position (Z.of_nat bs);
      if bs >? maxint then Ok result
      else if Z.of_nat (List.length result) <? bs
      then Ok (result ++ padding_fill (bs - Z.of_nat (List.length result)))
      else Ok result
  end.
Proof. reflexivity. Qed.

Lemma clamp_readable (parent : parent_view) (position res : Z) :
  readable parent -> exists c, clamp_to_parent parent position res = Ok c.
Proof.
  intros R. unfold clamp_to_parent.
  destruct parent as [[[parentSize|e] parentOffset]|].
  - destruct (_ >? _); eexists; reflexivity.
  - contradiction.
  - eexists; reflexivity.
Qed.

Lemma serialize_initialized :
  forall i, initializedQ i = true ->
  forall parent, readable parent -> exists data, serialize parent i = Ok data.
Proof.
  induction i as [position length value| position |position l IH]
    using instance_rect'; intros I parent R.
  - cbn [initializedQ] in I. cbn [serialize]. rewrite I. cbn [negb].
    destruct value as [v|]; [|discriminate].
    destruct (_ <? _)%nat; eexists; reflexivity.
  - discriminate.
  - pose proof (initialized_allocated _ I) as A.
    destruct (allocated_blocksize _ A) as [bs Ebs].
    rewrite serialize_container. cbv zeta. rewrite Ebs.
    cbn [initializedQ] in I. apply andb_prop in I as [I _].
    assert (C : exists result,
               serialize_children (Ok bs) position l = Ok result).
    { clear A Ebs. induction IH as [|n rest Hn _ IHrest]; [eexists; reflexivity|].
      cbn [forallb] in I. apply andb_prop in I as [In Ir].
      destruct (Hn In (Some (Ok bs, position)) I) as [a Ea].
      destruct (IHrest Ir) as [b Eb].
      cbn [serialize_children]. fold (serialize_children (Ok bs) position).
      rewrite Ea, Eb. eexists; reflexivity. }
    destruct C as [result ->].
    destruct (clamp_readable parent position (Z.of_nat bs) R) as [c ->].
    cbn [bind]. destruct (_ >? _); [eexists; reflexivity|].
    destruct (_ <? _); eexists; reflexivity.
Qed.

Lemma cast_returns (h : heap) (self : nat) (t : shape) (x : object) :
  nth_error h self = Some x ->
  initializedQ (obj_instance x) = true -> readable (obj_parent x) ->
  exists h' a lg, cast h self t = (h', Ok a, lg).
Proof.
  intros Hx I R. unfold cast. rewrite Hx.
  assert (Hlt : (self < length h)%nat) by (apply nth_error_Some; congruence).
  destruct (serialize_initialized _ I _ R) as [data ->].
  destruct (allocated_blocksize _ (initialized_allocated _ I)) as [bs ->].
  cbv zeta.
  rewrite assign_new_restore by assumption.
  rewrite length_store.
  rewrite nth_error_app1, Hx by assumption.
  pose proof (load_allocated t
                (mk_proxy (obj_instance x) (obj_parent x) 0) true (Some bs)
                (Some 0) (getoffset (obj_instance x))) as L.
  unfold loaded in L.
  destruct (Loader.load _ _ _ _ _ _) as [[[[src ld] e] lg0] home].
  cbn [fst snd] in L.
  assert (M : exists ld' lg1,
             match e with
             | Some _ => (ld, lg0 ++ [Log_cast_error])
             | None =>
                 let '(moved, e') := setoffset (getoffset ld) true ld in
                 match e' with
                 | Some _ => (moved, lg0 ++ [Log_cast_error])
                 | None => (moved, lg0)
                 end
             end = (ld', lg1) /\ allocated ld' = true).
  { destruct e as [ex|]; [eexists; eexists; split; [reflexivity | exact L]|].
    destruct (setposition_moves_cleanly ld L (getoffset ld)) as [m [Em [Ee _]]].
    unfold setoffset. rewrite Em. eexists; eexists. split; [reflexivity|].
    rewrite <- allocated_erase, Ee, allocated_erase. exact L. }
  destruct M as [ld' [lg1 [-> A]]].
  destruct (deserialize_block_well ld' None data) as [_ B].
  specialize (B A).
  destruct (deserialize_block None ld' data) as [final e1]. cbn [snd] in B.
  destruct B as [-> | [-> | ->]]; eexists; eexists; eexists; reflexivity.
Qed.

(** C10.  [x.cast(t)] leaves [x] as it was: the object at the address of
    [x] is the same after the call, hence so are its serialized bytes, its
    offset and its initialization state, and every other object of the
    heap is unchanged too, whether [cast] returns or raises.  An instance
    that [cast] returns is a new object: its address is not the one of
    [x] and was not in use before.  On an initialized [x] whose parent (if
    it is a container) can tell its blocksize, [cast] does return. *)
Theorem cast_leaves_self_unchanged (h : heap) (self : nat) (t : shape)
  (x : object) :
  nth_error h self = Some x ->
  exists h' r lg,
    cast h self t = (h', r, lg) /\
    nth_error h' self = Some x /\
    (forall x', nth_error h' self = Some x' ->
       serialize (obj_parent x') (obj_instance x')
         = serialize (obj_parent x) (obj_instance x) /\
       getoffset (obj_instance x') = getoffset (obj_instance x) /\
       initializedQ (obj_instance x') = initializedQ (obj_instance x)) /\
    (forall a o, nth_error h a = Some o -> nth_error h' a = Some o) /\
    (forall result, r = Ok result ->
       result <> self /\ nth_error h result = None /\
       exists o, nth_error h' result = Some o) /\
    (initializedQ (obj_instance x) = true -> readable (obj_parent x) ->
     exists result, r = Ok result).
Proof.
  intros Hx.
  destruct (cast h self t) as [[h' r] lg] eqn:E.
  destruct (cast_frame h self t x Hx h' r lg E) as [F N].
  exists h', r, lg. split; [reflexivity|].
  split; [apply F; exact Hx|]. split; [|split; [exact F|split]].
  - intros x' Hx'. rewrite (F self x Hx) in Hx'. injection Hx' as <-.
    repeat split.
  - intros result Hr. destruct (N result Hr) as [_ [Hne [Hnone Hnew]]].
    split; [exact Hne|]. split; [exact Hnone | exact Hnew].
  - intros I R.
    destruct (cast_returns h self t x Hx I R) as [h2 [a [lg2 E2]]].
    rewrite E in E2. injection E2 as _ -> _. exists a. reflexivity.
Qed.

Lemma cast_leaves_self_unchanged_witness :
  nth_error [mk_object ABCD [] None] 0 = Some (mk_object ABCD [] None) /\
  exists h' r lg,
    cast [mk_object ABCD [] None] 0 (type_shape 2) = (h', r, lg) /\
    nth_error h' 0 = Some (mk_object ABCD [] None) /\
    exists result, r = Ok result.
Proof.
  split; [reflexivity|].
  destruct (cast_leaves_self_unchanged [mk_object ABCD [] None] 0 (type_shape 2)
              (mk_object ABCD [] None) eq_refl)
    as [h' [r [lg [E [Hx [_ [_ [_ Hret]]]]]]]].
  exists h', r, lg. split; [exact E|]. split; [exact Hx|].
  apply Hret; [reflexivity | exact Logic.I].
Defined.

End CastFacts.

Module BitmapLaws.

Import Bitmap BitmapFacts Streams.

(** Bit [k] of a number below [2^(k+1)] is set exactly when the number
    reaches [2^k]. *)
Lemma truthy_land_pow2 (v k : Z) :
  0 <= k -> 0 <= v < 2 ^ (k + 1) ->
  truthy (Z.land v (2 ^ k)) = (2 ^ k <=? v).
Proof.
  intros Hk Hv. pose proof (pow2_pos k Hk) as Hp.
  rewrite Z.pow_add_r in Hv by lia. change (2 ^ 1) with 2 in Hv.
  unfold truthy.
  destruct (Z.leb_spec (2 ^ k) v) as [Hge | Hlt].
  - replace v with (1 * 2 ^ k + (v - 2 ^ k)) by lia.
    rewrite <- lor_shiftl_low by lia.
    replace (2 ^ k) with (Z.shiftl 1 k) at 2
      by (rewrite Z.shiftl_mul_pow2 by lia; lia).
    destruct (Z.eqb_spec (Z.land (Z.lor (Z.shiftl 1 k) (v - 2 ^ k)) (Z.shiftl 1 k)) 0)
      as [E | E]; [|reflexivity].
    exfalso. apply (f_equal (fun x => Z.testbit x k)) in E.
    rewrite Z.land_spec, Z.lor_spec, !Z.shiftl_spec, Z.sub_diag, Z.bits_0 in E
      by lia.
    simpl in E. discriminate.
  - replace (Z.land v (2 ^ k)) with 0; [reflexivity|].
    symmetry. rewrite <- (Z.mod_small v (2 ^ k)) by lia.
    replace (2 ^ k) with (Z.shiftl 1 k) at 2
      by (rewrite Z.shiftl_mul_pow2 by lia; lia).
    bits.
Qed.

(** [value] reads a signed bitmap in two's complement. *)
Lemma value_signed (v s : Z) :
  wf (v, s) -> s < 0 ->
  value (v, s) = if v <? 2 ^ (Z.abs s - 1) then v else v - 2 ^ Z.abs s.
Proof.
  intros Hb Hs. apply wf_bounds in Hb. unfold value.
  destruct (Z.ltb_spec s 0); [|lia].
  set (k := Z.abs s - 1). assert (Hk : 0 <= k) by (unfold k; lia).
  replace (Z.abs s) with (k + 1) in * by (unfold k; lia).
  pose proof (pow2_pos k Hk) as Hp.
  assert (E2 : 2 ^ (k + 1) = 2 * 2 ^ k)
    by (rewrite Z.pow_add_r by lia; change (2 ^ 1) with 2; lia).
  rewrite truthy_land_pow2 by assumption.
  rewrite <- Z.land_assoc, Z.land_diag, land_mask by assumption.
  destruct (Z.leb_spec (2 ^ k) v); destruct (Z.ltb_spec v (2 ^ k)); try lia.
  - replace v with (1 * 2 ^ k + (v - 2 ^ k)) at 1 by lia.
    rewrite Z.add_comm, Z.mod_add, Z.mod_small by lia. lia.
  - apply Z.mod_small. lia.
Qed.

(** The two's complement reading of a bitmap lies in the range of its
    width, and [new] takes it back to the bitmap. *)
Theorem new_value_round_trip (b : bitmap) :
  wf b ->
  new (value b) (snd b) = b /\
  (if signed b then - 2 ^ (size b - 1) <= value b < 2 ^ (size b - 1)
   else 0 <= value b < 2 ^ size b).
Proof.
  destruct b as [v s]. intros Hb. pose proof (wf_bounds _ _ Hb) as Bv.
  unfold signed, size, snd.
  destruct (Z.ltb_spec s 0) as [Hs | Hs].
  - rewrite value_signed by assumption.
    set (k := Z.abs s - 1). assert (Hk : 0 <= k) by (unfold k; lia).
    replace (Z.abs s) with (k + 1) in * by (unfold k; lia).
    replace (k + 1 - 1) with k by lia.
    pose proof (pow2_pos k Hk) as Hp.
    assert (E2 : 2 ^ (k + 1) = 2 * 2 ^ k)
      by (rewrite Z.pow_add_r by lia; change (2 ^ 1) with 2; lia).
    assert (Ea : Z.abs s = k + 1) by (unfold k; lia).
    unfold new. destruct (Z.ltb_spec s 0); [|lia]. rewrite Ea.
    rewrite land_mask by lia.
    destruct (Z.ltb_spec v (2 ^ k)).
    + rewrite Z.mod_small by lia. split; [reflexivity | lia].
    + replace (v - 2 ^ (k + 1)) with (v + (-1) * 2 ^ (k + 1)) by lia.
      rewrite Z.mod_add, Z.mod_small by lia. split; [reflexivity | lia].
  - unfold value. destruct (Z.ltb_spec s 0); [lia|].
    unfold new. destruct (Z.ltb_spec s 0); [lia|].
    rewrite mod_mask_small by (auto; lia). split; [reflexivity | assumption].
Qed.

Lemma new_value_round_trip_witness :
  wf (200, -8) /\ new (value (200, -8)) (-8) = (200, -8) /\ value (200, -8) = -56.
Proof.
  assert (H : wf (200, -8)) by (unfold wf; simpl; lia).
  split; [exact H|]. split; [|reflexivity].
  exact (proj1 (new_value_round_trip (200, -8) H)).
Defined.

(** The operand that [mul], [div] and [mod] compute with is the [value]
    of the bitmap. *)
Lemma signed_operand_value (v s : Z) :
  wf (v, s) -> signed_operand v s = value (v, s).
Proof.
  intros Hb. destruct (Z.ltb_spec s 0) as [Hs | Hs].
  - rewrite value_signed by assumption.
    apply wf_bounds in Hb. unfold signed_operand.
    destruct (Z.ltb_spec s 0); [|lia].
    set (k := Z.abs s - 1). assert (Hk : 0 <= k) by (unfold k; lia).
    replace (Z.abs s) with (k + 1) in * by (unfold k; lia).
    pose proof (pow2_pos k Hk) as Hp.
    rewrite truthy_land_pow2 by assumption.
    destruct (Z.leb_spec (2 ^ k) v); destruct (Z.ltb_spec v (2 ^ k)); try lia.
    apply mod_mask_small; lia.
  - unfold signed_operand, value. destruct (Z.ltb_spec s 0); [lia | reflexivity].
Qed.

(** [add], [sub], [mul] and [mod] compute on the [value] of the bitmap,
    two's complement when it is signed, and wrap the outcome into the
    width of the bitmap; the signedness is kept. *)
Theorem arithmetic_wraps_value (b : bitmap) (n : Z) :
  wf b ->
  add b n = new (value b + n) (snd b) /\
  sub b n = new (value b - n) (snd b) /\
  mul b n = new (value b * n) (snd b) /\
  mod_ b n = (if n =? 0 then Raise ZeroDivisionError
              else Ok (new (value b mod n) (snd b))).
Proof.
  destruct b as [v s]. intros Hb. pose proof (wf_bounds _ _ Hb) as Bv.
  assert (Hnew : forall x, new x s = (x mod 2 ^ Z.abs s, s)).
  { intros x. unfold new. rewrite land_mask by lia. destruct (s <? 0); reflexivity. }
  assert (Hv : exists q, value (v, s) = v + q * 2 ^ Z.abs s).
  { destruct (Z.ltb_spec s 0) as [Hs | Hs].
    - rewrite value_signed by assumption.
      destruct (v <? _); [exists 0 | exists (-1)]; lia.
    - exists 0. unfold value. destruct (Z.ltb_spec s 0); lia. }
  destruct Hv as [q Hq].
  pose proof (pow2_pos (Z.abs s) (Z.abs_nonneg s)) as Hp.
  unfold snd. rewrite !Hnew.
  unfold add, sub, mul, mod_. rewrite shiftl1_mask, !land_mask by lia.
  rewrite signed_operand_value by assumption.
  repeat split.
  - f_equal. rewrite Hq.
    replace (v + q * 2 ^ Z.abs s + n) with (n + v + q * 2 ^ Z.abs s) by lia.
    rewrite Z.mod_add by lia. reflexivity.
  - f_equal. rewrite Hq.
    replace (v + q * 2 ^ Z.abs s - n) with (v - n + q * 2 ^ Z.abs s) by lia.
    rewrite Z.mod_add by lia. reflexivity.
Qed.

Lemma arithmetic_wraps_value_witness :
  wf (250, -8) /\ add (250, -8) 10 = (4, -8) /\ mul (250, -8) 3 = (238, -8).
Proof.
  assert (H : wf (250, -8)) by (unfold wf; simpl; lia).
  destruct (arithmetic_wraps_value (250, -8) 10 H) as [Ha _].
  destruct (arithmetic_wraps_value (250, -8) 3 H) as [_ [_ [Hm _]]].
  split; [exact H|]. split; [rewrite Ha | rewrite Hm]; reflexivity.
Defined.

(** [sub] undoes [add] and [add] undoes [sub], whatever the integer. *)
Theorem add_sub_inverse (b : bitmap) (n : Z) :
  wf b -> sub (add b n) n = b /\ add (sub b n) n = b.
Proof.
  destruct b as [v s]. intros Hb. apply wf_bounds in Hb.
  pose proof (pow2_pos (Z.abs s) (Z.abs_nonneg s)) as Hp.
  unfold add, sub. rewrite shiftl1_mask, !land_mask by lia.
  split; f_equal.
  - rewrite Zminus_mod_idemp_l. replace (n + v - n) with v by lia.
    apply Z.mod_small; assumption.
  - rewrite Zplus_mod_idemp_r. replace (n + (v - n)) with v by lia.
    apply Z.mod_small; assumption.
Qed.

Lemma add_sub_inverse_witness :
  wf (5, 4) /\ sub (add (5, 4) 14) 14 = (5, 4).
Proof.
  assert (H : wf (5, 4)) by (unfold wf; simpl; lia).
  split; [exact H | exact (proj1 (add_sub_inverse (5, 4) 14 H))].
Defined.

(** Growing a bitmap by [count] bits and shrinking it by as many gives
    the bitmap back, signed or not. *)
Theorem shrink_grow (b : bitmap) (count : Z) :
  0 <= count -> shrink (grow b count) count = b.
Proof.
  destruct b as [v s]. intros Hc. unfold grow, shrink.
  destruct (Z.ltb_spec count 0); [lia|].
  unfold grow_nonneg, shrink_nonneg.
  rewrite Z.shiftr_shiftl_l, Z.sub_diag, Z.shiftl_0_r by lia.
  f_equal.
  destruct (Z.ltb_spec s 0);
    match goal with |- context [?x <? 0] => destruct (Z.ltb_spec x 0) end; lia.
Qed.

Lemma shrink_grow_witness :
  0 <= 4 /\ shrink (grow (15, -4) 4) 4 = (15, -4).
Proof. split; [lia | apply shrink_grow; lia]. Defined.

(** *** [split] and [join] *)

Lemma fold_push_chunks (fuel : nat) (m sf : Z) :
  0 < m -> sf = 1 \/ sf = -1 ->
  forall v s, wf (v, s) -> 0 <= s -> (Z.to_nat s < fuel)%nat ->
  exists l, splitter_loop fuel (v, s) m sf = Some (Ok l) /\
            fold_left push (rev l) (0, 0) = (v, s) /\
            Forall (fun c => wf c /\ 0 < size c <= m) l.
Proof.
  intros Hm Hsf.
  assert (Hzero : wf (0, 0)) by (unfold wf; simpl; lia).
  induction fuel as [|fuel IH]; intros v s Hb Hs Hf; [lia|].
  pose proof (wf_bounds _ _ Hb) as Bv. rewrite Z.abs_eq in Bv by assumption.
  cbn [splitter_loop].
  destruct (Z.ltb_spec s m) as [Hlt | Hge].
  - destruct (Z.gtb_spec s 0) as [Hpos | Hnpos].
    + eexists. split; [reflexivity|].
      assert (Hc : wf (v, s * sf)).
      { unfold wf, fst, snd. replace (Z.abs (s * sf)) with s by lia. assumption. }
      split.
      * cbn [rev app fold_left]. rewrite push_integer by assumption.
        replace (Z.abs (s * sf)) with s by lia. simpl. f_equal. 
      * constructor; [|constructor]. split; [assumption|].
        unfold size. lia.
    + exists []. split; [reflexivity|]. split; [|constructor].
      assert (s = 0) by lia. subst s. simpl in Bv.
      assert (v = 0) by lia. subst v. reflexivity.
  - rewrite consume_within_width by (try assumption; lia).
    destruct (Z.ltb_spec s 0); [lia|].
    assert (Hrest : wf (v / 2 ^ m, s - m)).
    { rewrite <- Z.shiftr_div_pow2 by lia.
      apply shiftr_wf with s; [assumption | lia | lia]. }
    destruct (IH (v / 2 ^ m) (s - m) Hrest ltac:(lia) ltac:(lia))
      as [rest [E [J F]]].
    rewrite E. eexists. split; [reflexivity|].
    assert (Hm2 : 0 <= v mod 2 ^ m < 2 ^ m)
      by (apply Z.mod_pos_bound, pow2_pos; lia).
    assert (Hc : wf (v mod 2 ^ m, m * sf)).
    { unfold wf, fst, snd. replace (Z.abs (m * sf)) with m by lia. assumption. }
    split.
    + cbn [rev]. rewrite fold_left_app, J. cbn [fold_left].
      rewrite push_integer by assumption.
      replace (Z.abs (m * sf)) with m by lia.
      destruct (Z.ltb_spec (s - m) 0); [lia|]. f_equal; [|lia].
      pose proof (pow2_pos m ltac:(lia)).
      rewrite (Z.div_mod v (2 ^ m)) at 3 by lia. lia.
    + constructor; [|assumption]. split; [assumption|]. unfold size. lia.
Qed.

(** Splitting an unsigned bitmap into chunks of at most [maxsize] bits and
    joining the chunks gives the bitmap back; no chunk is empty. *)
Theorem join_split (b : bitmap) (maxsize : Z) :
  wf b -> signed b = false -> maxsize <> 0 ->
  exists l, split b maxsize = Some (Ok l) /\
            join l = b /\
            Forall (fun c => wf c /\ 0 < size c <= Z.abs maxsize) l.
Proof.
  destruct b as [v s]. intros Hb Hs Hm.
  unfold signed in Hs. apply Z.ltb_ge in Hs.
  unfold split, splitter, snd.
  destruct (fold_push_chunks (S (Z.to_nat s)) (Z.abs maxsize)
              (if maxsize <? 0 then -1 else 1) ltac:(lia)
              ltac:(destruct (maxsize <? 0); lia) v s Hb Hs ltac:(lia))
    as [l [E [J F]]].
  rewrite E. exists (rev l). split; [reflexivity|]. split; [exact J|].
  apply Forall_rev. exact F.
Qed.

Lemma join_split_witness :
  wf (2748, 12) /\ signed (2748, 12) = false /\ 8 <> 0 /\
  split (2748, 12) 8 = Some (Ok [(10, 4); (188, 8)]) /\
  join [(10, 4); (188, 8)] = (2748, 12).
Proof.
  assert (H : wf (2748, 12)) by (unfold wf; simpl; lia).
  assert (N : 8 <> 0) by lia.
  destruct (join_split (2748, 12) 8 H eq_refl N) as [l [E [J _]]].
  split; [exact H|]. split; [reflexivity|]. split; [exact N|].
  assert (El : l = [(10, 4); (188, 8)]).
  { assert (E' : split (2748, 12) 8 = Some (Ok [(10, 4); (188, 8)])) by reflexivity.
    rewrite E in E'. injection E' as ->. reflexivity. }
  subst l. split; [exact E | exact J].
Defined.

(** *** [set] and [get] *)

Lemma ones_pow2 (n : Z) : 0 <= n -> 2 ^ n - 1 = Z.ones n.
Proof. intros. rewrite Z.ones_equiv. lia. Qed.

Lemma testbit_field_mask (position count i : Z) :
  0 <= position -> 0 <= count -> i < position \/ position + count <= i ->
  Z.testbit (Z.shiftl (Z.ones count) position) i = false.
Proof.
  intros Hp Hc Hi. destruct (Z.ltb_spec i 0); [apply Z.testbit_neg_r; lia|].
  rewrite Z.shiftl_spec by lia.
  destruct Hi; [apply Z.testbit_neg_r; lia|].
  apply Z.ones_spec_high. lia.
Qed.

(** Setting [count] bits at [position] and fetching them returns the
    value that was set; the bits outside the range stay as they were.
    The bitmap that [set] returns is unsigned. *)
Theorem get_set (b : bitmap) (position count : Z) (value : bool) :
  0 <= position -> 0 <= count -> position + count <= size b ->
  exists r,
    set b position value count = Ok r /\
    snd r = size b /\
    get r position count = Ok ((if value then 2 ^ count - 1 else 0), count) /\
    (forall i, i < position \/ position + count <= i ->
               Z.testbit (fst r) i = Z.testbit (fst b) i).
Proof.
  destruct b as [v s]. unfold size. intros Hp Hc Hs.
  unfold set.
  destruct (Z.ltb_spec count 0); [lia|]. destruct (Z.ltb_spec position 0); [lia|].
  cbn [orb]. destruct (Z.gtb_spec (position + count) (Z.abs s)); [lia|].
  rewrite bitrange_mask_ones by assumption.
  destruct value; (eexists; split; [reflexivity|]); cbn [fst snd];
    (split; [reflexivity|]); unfold get;
    (destruct (Z.ltb_spec count 0); [lia|]);
    (destruct (Z.ltb_spec position 0); [lia|]); cbn [orb];
    rewrite Z.abs_idemp;
    (destruct (Z.gtb_spec (position + count) (Z.abs s)); [lia|]);
    rewrite bitrange_mask_ones by assumption; split.
  - do 2 f_equal. rewrite ones_pow2 by assumption. bits.
  - intros i Hi. rewrite Z.lor_spec, testbit_field_mask by assumption.
    apply orb_false_r.
  - do 2 f_equal. bits.
  - intros i Hi. destruct (Z.ltb_spec i 0).
    + rewrite !Z.testbit_neg_r by lia. reflexivity.
    + rewrite Z.land_spec, Z.lnot_spec, testbit_field_mask by assumption.
      apply andb_true_r.
Qed.

Lemma get_set_witness :
  0 <= 2 /\ 0 <= 3 /\ 2 + 3 <= size (0, -32) /\
  (do r <- set (0, -32) 2 true 3; get r 2 3) = Ok (7, 3).
Proof.
  assert (H2 : 0 <= 2) by lia. assert (H3 : 0 <= 3) by lia.
  assert (Hs : 2 + 3 <= size (0, -32)) by (simpl; lia).
  destruct (get_set (0, -32) 2 3 true H2 H3 Hs) as [r [E [_ [G _]]]].
  split; [exact H2|]. split; [exact H3|]. split; [exact Hs|].
  rewrite E. cbn [bind]. exact G.
Defined.

(** *** [rol] and [ror] *)

(** Bit by bit, with the bits of [a mod 2^n] resolved by their index. *)
Ltac modbits :=
  bits;
  repeat match goal with
         | |- context [Z.testbit (?a mod 2 ^ ?n) ?m] =>
             first [ rewrite (Z.mod_pow2_bits_high a n m) by lia
                   | rewrite (Z.mod_pow2_bits_low a n m) by lia ]
         end;
  try reflexivity; try btauto.

(** The integers that [rol] and [ror] build from a [w]-bit number. *)
Lemma rol_integer (v w k : Z) :
  0 <= k <= w -> 0 <= v < 2 ^ w ->
  Z.land (Z.lor (Z.shiftl v k)
                (Z.shiftr (Z.land v (Z.lxor (2 ^ w - 1) (2 ^ (w - k) - 1)))
                          (w - k)))
         (2 ^ w - 1)
  = Z.lor (Z.shiftl (v mod 2 ^ (w - k)) k) (Z.shiftr v (w - k)).
Proof.
  intros Hk Hv.
  assert (Ev : v = v mod 2 ^ w) by (symmetry; apply Z.mod_small; assumption).
  rewrite !ones_pow2 by lia. rewrite Ev at 1 2 4. bits.
Qed.

Lemma ror_integer (v w k : Z) :
  0 <= k <= w -> 0 <= v < 2 ^ w ->
  Z.land (Z.lor (Z.shiftl (Z.land v (2 ^ k - 1)) (w - k)) (Z.shiftr v k))
         (2 ^ w - 1)
  = Z.lor (Z.shiftl (v mod 2 ^ k) (w - k)) (Z.shiftr v k).
Proof.
  intros Hk Hv.
  assert (Ev : v = v mod 2 ^ w) by (symmetry; apply Z.mod_small; assumption).
  rewrite !ones_pow2 by lia. rewrite Ev at 1 2 4. bits.
Qed.

Lemma rotated_bound (a b w k : Z) :
  0 <= k <= w ->
  0 <= Z.lor (Z.shiftl (a mod 2 ^ (w - k)) k) (Z.shiftr (b mod 2 ^ w) (w - k))
    < 2 ^ w.
Proof.
  intros Hk.
  set (x := Z.lor _ _).
  assert (E : x = x mod 2 ^ w) by (unfold x; bits).
  rewrite E. apply Z.mod_pos_bound, pow2_pos. lia.
Qed.

(** Rotating an unsigned bitmap left and then right by the same count, or
    right and then left, gives the bitmap back. *)
Theorem ror_rol (b : bitmap) (k : Z) :
  wf b -> 0 <= k <= snd b ->
  (do x <- rol b k; ror x k) = Ok b /\
  (do x <- ror b k; rol x k) = Ok b.
Proof.
  destruct b as [v w]. unfold snd. intros Hb Hk.
  apply wf_bounds in Hb. rewrite Z.abs_eq in Hb by lia.
  assert (Ev : v = v mod 2 ^ w) by (symmetry; apply Z.mod_small; assumption).
  unfold rol, ror.
  destruct (Z.ltb_spec k 0); [lia|]. destruct (Z.ltb_spec w 0); [lia|].
  destruct (Z.ltb_spec (w - k) 0); [lia|]. cbn [orb bind].
  destruct (Z.ltb_spec k 0); [lia|]. destruct (Z.ltb_spec w 0); [lia|].
  destruct (Z.ltb_spec (w - k) 0); [lia|]. cbn [orb].
  rewrite (rol_integer v w k), (ror_integer v w k) by assumption.
  split; apply f_equal; (apply f_equal2; [|reflexivity]).
  - rewrite ror_integer; [| assumption |].
    + rewrite Ev. modbits.
    + pose proof (rotated_bound v v w k Hk) as R.
      rewrite <- Ev in R. exact R.
  - rewrite rol_integer; [| assumption |].
    + rewrite Ev. modbits.
    + pose proof (rotated_bound v v w (w - k) ltac:(lia)) as R.
      replace (w - (w - k)) with k in R by lia.
      rewrite <- Ev in R. exact R.
Qed.

Lemma ror_rol_witness :
  wf (4, 4) /\ 0 <= 3 <= snd (4, 4) /\
  (do x <- rol (4, 4) 3; ror x 3) = Ok (4, 4).
Proof.
  assert (H : wf (4, 4)) by (unfold wf; simpl; lia).
  assert (K : 0 <= 3 <= snd (4, 4)) by (simpl; lia).
  split; [exact H|]. split; [exact K|].
  exact (proj1 (ror_rol (4, 4) 3 H K)).
Defined.

(** *** [scan] and [runlength] *)

(** The test [integer & bitmask] of [scan] reads one bit. *)
Lemma truthy_land_bit (x p : Z) :
  0 <= p -> truthy (Z.land x (Z.shiftl 1 p)) = Z.testbit x p.
Proof.
  intros Hp. unfold truthy.
  destruct (Z.testbit x p) eqn:B.
  - destruct (Z.eqb_spec (Z.land x (Z.shiftl 1 p)) 0) as [E | E]; [|reflexivity].
    apply (f_equal (fun y => Z.testbit y p)) in E.
    rewrite Z.land_spec, Z.shiftl_spec, Z.sub_diag, Z.bits_0, B in E by lia.
    discriminate.
  - replace (Z.land x (Z.shiftl 1 p)) with 0; [reflexivity|].
    symmetry. apply Z.bits_inj'. intros i Hi.
    rewrite Z.land_spec, Z.shiftl_spec, Z.bits_0 by lia.
    destruct (Z.eq_dec i p) as [-> | Hne].
    + rewrite B. reflexivity.
    + replace (Z.testbit 1 (i - p)) with false; [apply andb_false_r|].
      symmetry. destruct (Z.ltb_spec i p).
      * apply Z.testbit_neg_r. lia.
      * change 1 with (2 ^ 0). apply Z.pow2_bits_false. lia.
Qed.

Lemma scan_loop_spec (integer size : Z) (value : bool) (n : nat) :
  forall position,
    0 <= position <= size -> size <= position + Z.of_nat n ->
    let p := scan_loop n integer size (Z.shiftl 1 position) position value in
    position <= p <= size /\
    (forall i, position <= i < p -> Z.testbit integer i = negb value) /\
    (p < size -> Z.testbit integer p = value).
Proof.
  induction n as [|n IH]; intros position Hp Hn; cbn [scan_loop].
  - cbv zeta. split; [lia|]. split; intros; lia.
  - rewrite truthy_land_bit by lia.
    destruct (Bool.eqb (Z.testbit integer position) value) eqn:B; cbn [orb].
    + apply eqb_prop in B. cbv zeta. split; [lia|]. split; intros; [lia | assumption].
    + destruct (Z.geb_spec position size) as [Hge | Hlt].
      * cbv zeta. split; [lia|]. split; intros; lia.
      * rewrite Z.shiftl_shiftl by lia.
        specialize (IH (position + 1) ltac:(lia) ltac:(lia)). cbv zeta in IH.
        destruct IH as [R [F L]]. cbv zeta.
        split; [lia|]. split; [|exact L].
        intros i Hi. destruct (Z.eq_dec i position) as [-> | Hne].
        -- apply eqb_false_iff in B.
           destruct (Z.testbit integer position), value; try reflexivity;
             exfalso; apply B; reflexivity.
        -- apply F. lia.
Qed.

(** [runlength] measures the run of bits equal to [value] that starts at
    [position]: every bit of the run has that value, and the run ends at
    the first bit that differs or at the end of the bitmap.  A position
    outside the bitmap is refused. *)
Theorem runlength_maximal_run (b : bitmap) (value : bool) (position : Z) :
  (0 <= position <= size b ->
   exists n,
     runlength b value position = Ok n /\
     scan b (negb value) position = Ok (position + n) /\
     0 <= n /\ position + n <= size b /\
     (forall i, position <= i < position + n -> Z.testbit (fst b) i = value) /\
     (position + n < size b -> Z.testbit (fst b) (position + n) = negb value)) /\
  (position < 0 \/ size b < position ->
   runlength b value position = Raise AssertionError).
Proof.
  destruct b as [v s]. unfold size, fst. split.
  - intros Hp. unfold runlength, scan.
    destruct (Z.ltb_spec position 0); [lia|].
    destruct (Z.gtb_spec position (Z.abs s)); [lia|]. cbn [orb bind].
    pose proof (scan_loop_spec v (Z.abs s) (negb value) (Z.to_nat (Z.abs s))
                  position Hp ltac:(lia)) as S.
    cbv zeta in S. destruct S as [R [F L]].
    set (p := scan_loop _ _ _ _ _ _) in *.
    exists (p - position). split; [reflexivity|].
    replace (position + (p - position)) with p by lia.
    split; [reflexivity|]. split; [lia|]. split; [lia|]. split.
    + intros i Hi. rewrite (F i Hi). apply negb_involutive.
    + exact L.
  - intros Hp. unfold runlength.
    destruct (Z.ltb_spec position 0); [reflexivity|].
    destruct (Z.gtb_spec position (Z.abs s)); [reflexivity | lia].
Qed.

Lemma runlength_maximal_run_witness :
  0 <= 1 <= size (14, 8) /\ runlength (14, 8) true 1 = Ok 3.
Proof.
  assert (H : 0 <= 1 <= size (14, 8)) by (simpl; lia).
  split; [exact H|].
  destruct (proj1 (runlength_maximal_run (14, 8) true 1) H) as [n [E _]].
  assert (E' : runlength (14, 8) true 1 = Ok 3) by reflexivity.
  rewrite E in E'. rewrite E. exact E'.
Defined.

(** *** [reverse] *)

Lemma small_bits_high (x n j : Z) :
  0 <= x < 2 ^ n -> 0 <= n <= j -> Z.testbit x j = false.
Proof.
  intros Hx Hj. rewrite <- (Z.mod_small x (2 ^ n)) by assumption.
  apply Z.mod_pow2_bits_high. lia.
Qed.

Lemma testbit_double_plus (r bit j : Z) :
  0 <= j -> 0 <= bit < 2 ->
  Z.testbit (r * 2 ^ 1 + bit) j
  = if j =? 0 then negb (bit =? 0) else Z.testbit r (j - 1).
Proof.
  intros Hj Hb. change (2 ^ 1) with 2.
  assert (E : bit = Z.b2z (negb (bit =? 0))).
  { destruct (Z.eqb_spec bit 0); simpl; lia. }
  rewrite E at 1. rewrite (Z.mul_comm r 2).
  destruct (Z.eqb_spec j 0) as [-> | Hne].
  - apply Z.testbit_0_r.
  - replace j with (Z.succ (j - 1)) at 1 by lia.
    apply Z.testbit_succ_r. lia.
Qed.

Lemma low_bit_testbit (v k : Z) :
  0 <= k -> negb (Z.shiftr v k mod 2 ^ 1 =? 0) = Z.testbit v k.
Proof.
  intros Hk. change (2 ^ 1) with 2. rewrite <- Z.bit0_mod.
  rewrite Z.shiftr_spec, Z.add_0_l by lia.
  destruct (Z.testbit v k); reflexivity.
Qed.

Lemma reverse_loop_spec (v s : Z) :
  wf (v, s) -> 0 <= s ->
  forall fuel k r,
    0 <= k <= s -> (Z.to_nat (s - k) < fuel)%nat ->
    0 <= r < 2 ^ k ->
    (forall j, 0 <= j < k -> Z.testbit r j = Z.testbit v (k - 1 - j)) ->
    exists r',
      reverse_loop fuel (r, k) (Z.shiftr v k, s - k) s = Some (Ok (r', s)) /\
      0 <= r' < 2 ^ s /\
      (forall j, 0 <= j < s -> Z.testbit r' j = Z.testbit v (s - 1 - j)).
Proof.
  intros Hb Hs. induction fuel as [|fuel IH]; intros k r Hk Hf Hr Hbits; [lia|].
  cbn [reverse_loop]. unfold size at 1. rewrite Z.abs_eq by lia.
  destruct (Z.ltb_spec k s) as [Hlt | Hge].
  - assert (Hrest : wf (Z.shiftr v k, s - k))
      by (apply shiftr_wf with s; [assumption | lia | lia]).
    rewrite consume_within_width by (try assumption; lia).
    destruct (Z.ltb_spec (s - k) 0); [lia|].
    assert (Hbit : 0 <= Z.shiftr v k mod 2 ^ 1 < 2)
      by (change (2 ^ 1) with 2; apply Z.mod_pos_bound; lia).
    rewrite push_integer;
      [| unfold wf, fst, snd; rewrite Z.abs_eq by lia; assumption
       | unfold wf, fst, snd; simpl Z.abs; change (2 ^ 1) with 2; assumption ].
    destruct (Z.ltb_spec k 0); [lia|]. change (Z.abs 1) with 1.
    replace (Z.shiftr v k / 2 ^ 1) with (Z.shiftr v (k + 1))
      by (rewrite <- Z.shiftr_div_pow2, Z.shiftr_shiftr by lia; reflexivity).
    replace (s - k - 1) with (s - (k + 1)) by lia.
    apply IH; [lia | lia | |].
    + rewrite Z.pow_add_r by lia. change (2 ^ 1) with 2 in *. lia.
    + intros j Hj. rewrite testbit_double_plus by lia.
      destruct (Z.eqb_spec j 0) as [-> | Hne].
      * rewrite low_bit_testbit by lia. f_equal. lia.
      * rewrite Hbits by lia. f_equal. lia.
  - assert (k = s) by lia. subst k. exists r. repeat split; try lia. assumption.
Qed.

(** [reverse] mirrors the bits of an unsigned bitmap: bit [j] of the
    result is bit [size - 1 - j] of the bitmap, and reversing twice gives
    the bitmap back.  For a signed bitmap the loop never runs and the
    result is the empty bitmap. *)
Theorem reverse_mirrors (b : bitmap) :
  (wf b -> signed b = false ->
   exists r,
     reverse b = Some (Ok r) /\ wf r /\ snd r = snd b /\
     (forall j, 0 <= j < size b ->
                Z.testbit (fst r) j = Z.testbit (fst b) (size b - 1 - j)) /\
     reverse r = Some (Ok b)) /\
  (signed b = true -> reverse b = Some (Ok (0, 0))).
Proof.
  destruct b as [v s]. unfold signed, size, fst, snd. split.
  - intros Hb Hs. apply Z.ltb_ge in Hs.
    pose proof (wf_bounds _ _ Hb) as Bv. rewrite Z.abs_eq in * by assumption.
    assert (Hrun : forall x, wf (x, s) ->
              exists r', reverse (x, s) = Some (Ok (r', s)) /\ 0 <= r' < 2 ^ s /\
                forall j, 0 <= j < s -> Z.testbit r' j = Z.testbit x (s - 1 - j)).
    { intros x Hx. unfold reverse.
      pose proof (reverse_loop_spec x s Hx Hs (S (Z.to_nat s)) 0 0) as L.
      rewrite Z.shiftr_0_r, Z.sub_0_r in L.
      apply L; [lia | lia | simpl; lia | intros; lia]. }
    destruct (Hrun v Hb) as [r [E [Br Bits]]].
    assert (Hr : wf (r, s))
      by (unfold wf, fst, snd; rewrite Z.abs_eq by assumption; exact Br).
    exists (r, s). cbn [fst snd].
    split; [exact E|]. split; [exact Hr|]. split; [reflexivity|].
    split; [exact Bits|].
    destruct (Hrun r Hr) as [r2 [E2 [Br2 Bits2]]].
    rewrite E2. assert (r2 = v) as ->; [|reflexivity].
    apply Z.bits_inj'. intros j Hj.
    destruct (Z.ltb_spec j s).
    + rewrite Bits2, Bits by lia. f_equal. lia.
    + rewrite (small_bits_high r2 s j), (small_bits_high v s j) by lia.
      reflexivity.
  - intros Hs. apply Z.ltb_lt in Hs. unfold reverse.
    replace (Z.to_nat s) with 0%nat by lia. cbn [reverse_loop].
    unfold size. simpl Z.abs. destruct (Z.ltb_spec 0 s); [lia | reflexivity].
Qed.

Lemma reverse_mirrors_witness :
  wf (6, 4) /\ signed (6, 4) = false /\
  reverse (6, 4) = Some (Ok (6, 4)) /\ reverse (1, 4) = Some (Ok (8, 4)).
Proof.
  assert (H : wf (6, 4)) by (unfold wf; simpl; lia).
  destruct (proj1 (reverse_mirrors (6, 4)) H eq_refl) as [r [E _]].
  split; [exact H|]. split; [reflexivity|].
  split; [|reflexivity].
  assert (E' : reverse (6, 4) = Some (Ok (6, 4))) by reflexivity.
  rewrite E in E'. rewrite E. exact E'.
Defined.

(** *** The [consumer] *)

Lemma ord_range (c : byte) : 0 <= ord c < 256.
Proof.
  unfold ord. pose proof (Byte.to_N_bounded c). lia.
Qed.

Lemma fold_big_endian (l : list byte) (acc : Z) :
  fold_left (fun x c => x * 256 + ord c) l acc
  = acc * 2 ^ (8 * Z.of_nat (length l)) + big_endian l.
Proof.
  unfold big_endian. revert acc.
  induction l as [|c l IH]; intros acc.
  - simpl. lia.
  - cbn [fold_left length]. rewrite IH, (IH (0 * 256 + ord c)).
    replace (8 * Z.of_nat (S (length l))) with (8 + 8 * Z.of_nat (length l)) by lia.
    rewrite Z.pow_add_r by lia. change (2 ^ 8) with 256. lia.
Qed.

Lemma big_endian_range (l : list byte) :
  0 <= big_endian l < 2 ^ (8 * Z.of_nat (length l)).
Proof.
  induction l as [|c l IH].
  - simpl. unfold big_endian. simpl. lia.
  - unfold big_endian. cbn [fold_left]. rewrite fold_big_endian.
    cbn [length].
    replace (8 * Z.of_nat (S (length l))) with (8 + 8 * Z.of_nat (length l)) by lia.
    rewrite Z.pow_add_r by lia. change (2 ^ 8) with 256.
    pose proof (ord_range c). nia.
Qed.

Lemma big_endian_app (a b : list byte) :
  big_endian (a ++ b)
  = big_endian a * 2 ^ (8 * Z.of_nat (length b)) + big_endian b.
Proof.
  unfold big_endian at 1. rewrite fold_left_app.
  rewrite fold_big_endian. reflexivity.
Qed.

Lemma read_loop_enough (n : nat) :
  forall src res count,
    (n <= length src)%nat ->
    read_loop n src res count
    = (skipn n src,
       Ok (res * 2 ^ (8 * Z.of_nat n) + big_endian (firstn n src),
           count + Z.of_nat n)).
Proof.
  induction n as [|n IH]; intros src res count Hn.
  - simpl. unfold big_endian. simpl. do 3 f_equal; lia.
  - destruct src as [|c src]; [simpl in Hn; lia|].
    cbn [read_loop skipn firstn]. rewrite IH by (simpl in Hn; lia).
    f_equal. f_equal. f_equal; [|lia].
    unfold big_endian at 2. cbn [fold_left]. rewrite fold_big_endian.
    rewrite length_firstn, Nat.min_l by (simpl in Hn; lia).
    replace (8 * Z.of_nat (S n)) with (8 + 8 * Z.of_nat n) by lia.
    rewrite Z.pow_add_r by lia. change (2 ^ 8) with 256. lia.
Qed.

Lemma read_loop_short (n : nat) :
  forall src res count,
    (length src < n)%nat ->
    read_loop n src res count = ([], Raise StopIteration).
Proof.
  induction n as [|n IH]; intros src res count Hn; [lia|].
  destruct src as [|c src]; [reflexivity|].
  cbn [read_loop]. apply IH. simpl in Hn. lia.
Qed.

(** What [shift] returns within the width of an unsigned bitmap: the top
    bits, and the bitmap of the bits below them. *)
Lemma shift_within_width (v s n : Z) :
  wf (v, s) -> 0 <= n <= s ->
  shift (v, s) n = Ok ((v mod 2 ^ (s - n), s - n), v / 2 ^ (s - n)).
Proof.
  intros Hb Hn. apply wf_bounds in Hb. rewrite Z.abs_eq in Hb by lia.
  unfold shift. destruct (Z.ltb_spec n 0); [lia|].
  rewrite Z.abs_eq by lia.
  destruct (Z.gtb_spec n s); [lia|]. destruct (Z.ltb_spec s 0); [lia|].
  set (k := s - n). assert (Hk : 0 <= k) by (unfold k; lia).
  pose proof (pow2_pos k Hk) as Pk.
  assert (Hlo : 0 <= v mod 2 ^ k < 2 ^ k) by (apply Z.mod_pos_bound; lia).
  assert (Hhi : 0 <= v / 2 ^ k < 2 ^ n).
  { split; [apply Z.div_pos; lia|].
    apply Z.div_lt_upper_bound; [lia|].
    rewrite <- Z.pow_add_r by lia. replace (k + n) with s by (unfold k; lia). lia. }
  assert (Ev : v = Z.lor (Z.shiftl (v / 2 ^ k) k) (v mod 2 ^ k)).
  { rewrite lor_shiftl_low by assumption.
    rewrite (Z.div_mod v (2 ^ k)) at 1 by lia. lia. }
  rewrite Ev at 1 2.
  rewrite field_high, field_low by assumption. reflexivity.
Qed.

Lemma split_stream (a b K M : Z) :
  0 <= K -> 0 <= M -> 0 <= b < 2 ^ M ->
  (a * 2 ^ M + b) / 2 ^ (K + M) = a / 2 ^ K /\
  (a * 2 ^ M + b) mod 2 ^ (K + M) = (a mod 2 ^ K) * 2 ^ M + b.
Proof.
  intros HK HM Hb.
  pose proof (pow2_pos K HK) as PK. pose proof (pow2_pos M HM) as PM.
  rewrite Z.pow_add_r by assumption.
  assert (D : (a * 2 ^ M + b) / (2 ^ K * 2 ^ M) = a / 2 ^ K).
  { rewrite (Z.mul_comm (2 ^ K)), <- Z.div_div by lia.
    rewrite div_add_low by assumption. reflexivity. }
  split; [exact D|].
  rewrite Z.mod_eq, D by nia.
  rewrite (Z.mod_eq a (2 ^ K)) by lia. nia.
Qed.

(** A [consume] served from the cache alone. *)
Lemma consumer_consume_cached (fuel : nat) (c : consumer) (bits : Z) :
  wf (cache c) -> 0 <= bits <= snd (cache c) ->
  exists c',
    consumer_consume_loop (S fuel) c bits
      = Some (c', Ok (fst (pending c) / 2 ^ (snd (pending c) - bits))) /\
    pending c' = (fst (pending c) mod 2 ^ (snd (pending c) - bits),
                  snd (pending c) - bits) /\
    wf (cache c') /\ 0 <= snd (cache c').
Proof.
  destruct c as [src [cv cs]]. cbn [cache snd]. intros Hc Hb.
  cbn [consumer_consume_loop cache source snd].
  destruct (Z.gtb_spec bits cs); [lia|].
  rewrite shift_within_width by assumption.
  eexists. split.
  - f_equal. f_equal. f_equal. unfold pending. cbn [cache source fst snd].
    set (M := 8 * Z.of_nat (length src)).
    replace (cs + M - bits) with ((cs - bits) + M) by lia.
    symmetry. apply split_stream; [lia | unfold M; lia | apply big_endian_range].
  - unfold pending. cbn [cache source fst snd].
    set (M := 8 * Z.of_nat (length src)).
    split.
    + f_equal; [|lia].
      replace (cs + M - bits) with ((cs - bits) + M) by lia.
      symmetry. apply split_stream; [lia | unfold M; lia | apply big_endian_range].
    + split; [|lia]. unfold wf, fst, snd. rewrite Z.abs_eq by lia.
      apply Z.mod_pos_bound, pow2_pos. lia.
Qed.

(** Reading characters into the cache leaves the pending bits as they
    are. *)
Lemma consumer_read_pending (c : consumer) (bs : Z) :
  wf (cache c) -> 0 <= snd (cache c) ->
  0 <= bs <= Z.of_nat (length (source c)) ->
  exists c',
    consumer_read c bs = (c', Ok bs) /\
    pending c' = pending c /\
    wf (cache c') /\ snd (cache c') = snd (cache c) + 8 * bs.
Proof.
  destruct c as [src [cv cs]]. cbn [cache source snd]. intros Hc Hs Hb.
  unfold consumer_read. cbn [cache source].
  destruct (Z.ltb_spec bs 0); [lia|].
  rewrite read_loop_enough by lia.
  rewrite Z2Nat.id by lia.
  set (n := Z.to_nat bs).
  assert (Hlen : length (firstn n src) = n)
    by (rewrite length_firstn; unfold n; lia).
  pose proof (big_endian_range (firstn n src)) as Bf. rewrite Hlen in Bf.
  replace (Z.of_nat n) with bs in Bf by (unfold n; lia).
  assert (Hnew : new (0 * 2 ^ (8 * bs) + big_endian (firstn n src)) ((0 + bs) * 8)
                 = (big_endian (firstn n src), 8 * bs)).
  { unfold new. replace ((0 + bs) * 8) with (8 * bs) by lia.
    rewrite Z.abs_eq by lia.
    rewrite mod_mask_small by lia.
    destruct (8 * bs <? 0); f_equal; lia. }
  rewrite Hnew.
  assert (Hw : wf (big_endian (firstn n src), 8 * bs))
    by (unfold wf, fst, snd; rewrite Z.abs_eq by lia; assumption).
  rewrite push_integer by assumption.
  destruct (Z.ltb_spec cs 0); [lia|]. rewrite Z.abs_eq by lia.
  eexists. split; [f_equal; f_equal; lia|].
  cbn [cache snd]. split; [|split; [|reflexivity]].
  - unfold pending. cbn [cache source fst snd].
    pose proof (big_endian_app (firstn n src) (skipn n src)) as A.
    rewrite firstn_skipn in A. rewrite A.
    assert (Hskip : Z.of_nat (length (skipn n src)) = Z.of_nat (length src) - bs).
    { rewrite length_skipn. unfold n. lia. }
    rewrite Hskip.
    replace (8 * Z.of_nat (length src))
      with (8 * bs + 8 * (Z.of_nat (length src) - bs)) at 1 2 by lia.
    rewrite Z.pow_add_r by lia. f_equal; lia.
  - apply wf_bounds in Hc. rewrite Z.abs_eq in Hc by lia.
    unfold wf, fst, snd. rewrite Z.abs_eq by lia.
    rewrite Z.pow_add_r by lia. pose proof (pow2_pos (8 * bs) ltac:(lia)). nia.
Qed.

(** [consumer.consume] hands out the pending bits from the top: asking
    for [bits] bits is [shift] on the cache followed by the unread
    characters, whether or not the cache has to be refilled first.
    Asking for more bits than are pending raises [StopIteration], and the
    characters that were still unread are lost. *)
Theorem consumer_consume_shifts_pending (c : consumer) (bits : Z) :
  wf (cache c) -> signed (cache c) = false ->
  (0 <= bits <= size (pending c) ->
   exists c' r,
     consumer_consume c bits = Some (c', Ok r) /\
     shift (pending c) bits = Ok (pending c', r) /\
     wf (cache c') /\ signed (cache c') = false) /\
  (size (pending c) < bits ->
   consumer_consume c bits = Some (mk_consumer [] (cache c), Raise StopIteration)).
Proof.
  intros Hc Hs.
  assert (Hs' : 0 <= snd (cache c)).
  { destruct c as [src [cv cs]]. unfold signed in Hs. cbn [cache snd] in *.
    apply Z.ltb_ge in Hs. exact Hs. }
  assert (Hsize : size (pending c)
                  = snd (cache c) + 8 * Z.of_nat (length (source c))).
  { unfold pending, size. apply Z.abs_eq. lia. }
  assert (Hpw : wf (pending c)).
  { destruct c as [src [cv cs]]. unfold pending. cbn [cache source fst snd] in *.
    apply wf_bounds in Hc. rewrite Z.abs_eq in Hc by lia.
    unfold wf, fst, snd. rewrite Z.abs_eq by lia.
    pose proof (big_endian_range src).
    rewrite Z.pow_add_r by lia.
    pose proof (pow2_pos (8 * Z.of_nat (length src)) ltac:(lia)). nia. }
  assert (Hfinish : forall fuel c0,
            wf (cache c0) -> 0 <= bits <= snd (cache c0) -> pending c0 = pending c ->
            exists c' r,
              consumer_consume_loop (S fuel) c0 bits = Some (c', Ok r) /\
              shift (pending c) bits = Ok (pending c', r) /\
              wf (cache c') /\ signed (cache c') = false).
  { intros fuel c0 H0 Hb0 Hp.
    destruct (consumer_consume_cached fuel c0 bits H0 Hb0) as [c' [E [P [W S]]]].
    exists c'. eexists. split; [exact E|]. rewrite Hp in *.
    split; [|split; [exact W|]].
    - destruct (pending c) as [pv ps] eqn:Ep. cbn [fst snd] in *.
      unfold size in Hsize. cbn [snd] in Hsize.
      rewrite shift_within_width; [rewrite P; reflexivity | exact Hpw |].
      assert (ps = snd (pending c0)) by (rewrite Hp; reflexivity).
      unfold pending in H. cbn [snd] in H. lia.
    - destruct (cache c') as [v' s']. unfold signed. cbn [snd] in S.
      apply Z.ltb_ge. exact S. }
  split.
  - intros Hb. rewrite Hsize in Hb. unfold consumer_consume.
    destruct (Z.le_gt_cases bits (snd (cache c))) as [Hle | Hgt].
    + apply Hfinish; [assumption | lia | reflexivity].
    + cbn [consumer_consume_loop].
      destruct (Z.gtb_spec bits (snd (cache c))); [|lia].
      set (bs := (bits - snd (cache c) + 7) / 8).
      assert (Hbs : 8 * bs <= bits - snd (cache c) + 7 < 8 * bs + 8).
      { unfold bs.
        pose proof (Z.div_mod (bits - snd (cache c) + 7) 8 ltac:(lia)).
        pose proof (Z.mod_pos_bound (bits - snd (cache c) + 7) 8 ltac:(lia)). lia. }
      destruct (consumer_read_pending c bs Hc Hs' ltac:(lia))
        as [c1 [E1 [P1 [W1 S1]]]].
      rewrite E1. apply Hfinish; [assumption | lia | assumption].
  - intros Hb. rewrite Hsize in Hb. unfold consumer_consume.
    cbn [consumer_consume_loop].
    destruct (Z.gtb_spec bits (snd (cache c))); [|lia].
    set (bs := (bits - snd (cache c) + 7) / 8).
    assert (Hbs : 8 * bs <= bits - snd (cache c) + 7 < 8 * bs + 8).
    { unfold bs.
      pose proof (Z.div_mod (bits - snd (cache c) + 7) 8 ltac:(lia)).
      pose proof (Z.mod_pos_bound (bits - snd (cache c) + 7) 8 ltac:(lia)). lia. }
    unfold consumer_read. destruct (Z.ltb_spec bs 0); [lia|].
    rewrite read_loop_short by lia. reflexivity.
Qed.

Lemma consumer_consume_shifts_pending_witness :
  wf (cache (mk_consumer [x12; x34] zero)) /\
  signed (cache (mk_consumer [x12; x34] zero)) = false /\
  consumer_consume (mk_consumer [x12; x34] zero) 4
    = Some (mk_consumer [x34] (2, 4), Ok 1) /\
  consumer_consume (mk_consumer [x12; x34] zero) 17
    = Some (mk_consumer [] zero, Raise StopIteration).
Proof.
  assert (H : wf (cache (mk_consumer [x12; x34] zero)))
    by (unfold wf; simpl; lia).
  split; [exact H|]. split; [reflexivity|].
  destruct (consumer_consume_shifts_pending (mk_consumer [x12; x34] zero) 17
              H eq_refl) as [_ Hpast].
  split; [reflexivity|].
  apply Hpast. simpl. lia.
Defined.

(** *** [iterate] and [riterate] *)

(** A one-bit field read with the sign extension of [consume] and [shift]
    is true exactly when the bit is set. *)
Lemma truthy_one_bit (x : Z) (signed : bool) :
  0 <= x < 2 ->
  truthy (if signed then value (x, -1) else x) = negb (x =? 0).
Proof.
  intros Hx. assert (x = 0 \/ x = 1) as [-> | ->] by lia;
    destruct signed; reflexivity.
Qed.

Lemma shift_top_bit (v s : Z) :
  wf (v, s) -> 0 < Z.abs s ->
  exists r,
    shift (v, s) 1
    = Ok ((v mod 2 ^ (Z.abs s - 1),
           if s <? 0 then - (Z.abs s - 1) else Z.abs s - 1), r) /\
    truthy r = Z.testbit v (Z.abs s - 1).
Proof.
  intros Hb Hs. apply wf_bounds in Hb. unfold shift.
  destruct (Z.ltb_spec 1 0); [lia|].
  destruct (Z.gtb_spec 1 (Z.abs s)); [lia|].
  set (k := Z.abs s - 1). assert (Hk : 0 <= k) by (unfold k; lia).
  pose proof (pow2_pos k Hk) as Pk.
  assert (Hlo : 0 <= v mod 2 ^ k < 2 ^ k) by (apply Z.mod_pos_bound; lia).
  assert (Hhi : 0 <= v / 2 ^ k < 2 ^ 1).
  { split; [apply Z.div_pos; lia|].
    apply Z.div_lt_upper_bound; [lia|].
    rewrite <- Z.pow_add_r by lia. replace (k + 1) with (Z.abs s) by (unfold k; lia).
    lia. }
  assert (Ev : v = Z.lor (Z.shiftl (v / 2 ^ k) k) (v mod 2 ^ k)).
  { rewrite lor_shiftl_low by assumption.
    rewrite (Z.div_mod v (2 ^ k)) at 1 by lia. lia. }
  assert (Hbit : negb (v / 2 ^ k =? 0) = Z.testbit v k).
  { rewrite <- Z.shiftr_div_pow2 by lia.
    rewrite <- (low_bit_testbit v k) by lia.
    rewrite Z.mod_small; [reflexivity|].
    rewrite Z.shiftr_div_pow2 by lia. exact Hhi. }
  assert (A : Z.shiftr (Z.land v (Z.shiftl (2 ^ 1 - 1) k)) k = v / 2 ^ k).
  { rewrite Ev at 1. apply field_high; assumption || lia. }
  assert (B : Z.land v (Z.lnot (Z.shiftl (2 ^ 1 - 1) k)) = v mod 2 ^ k).
  { rewrite Ev at 1. apply field_low; assumption || lia. }
  rewrite A, B.
  destruct (Z.ltb_spec s 0).
  - eexists. split; [reflexivity|].
    rewrite sign_extension_value by (assumption || lia).
    rewrite (truthy_one_bit _ true) by (change (2 ^ 1) with 2 in Hhi; lia).
    exact Hbit.
  - eexists. split; [reflexivity|].
    rewrite (truthy_one_bit _ false) by (change (2 ^ 1) with 2 in Hhi; lia).
    exact Hbit.
Qed.

Lemma consume_low_bit (v s : Z) :
  wf (v, s) -> 0 < Z.abs s ->
  exists r,
    consume (v, s) 1
    = Ok ((Z.shiftr v 1, if s <? 0 then s + 1 else s - 1), r) /\
    truthy r = Z.testbit v 0.
Proof.
  intros Hb Hs. rewrite consume_within_width by (assumption || lia).
  rewrite <- Z.shiftr_div_pow2 by lia.
  assert (Hbit : 0 <= v mod 2 ^ 1 < 2)
    by (change (2 ^ 1) with 2; apply Z.mod_pos_bound; lia).
  eexists. split; [reflexivity|].
  rewrite <- (low_bit_testbit v 0), Z.shiftr_0_r by lia.
  assert (v mod 2 ^ 1 = 0 \/ v mod 2 ^ 1 = 1) as [-> | ->] by lia;
    destruct (s <? 0); reflexivity.
Qed.

Lemma riterate_loop_bits (n : nat) :
  forall fuel v s,
    wf (v, s) -> Z.abs s = Z.of_nat n -> (n < fuel)%nat ->
    riterate_loop fuel (v, s)
    = Some (Ok (map (fun i => Z.testbit v (Z.of_nat i)) (seq 0 n))).
Proof.
  induction n as [|n IH]; intros fuel v s Hb Hs Hf;
    (destruct fuel as [|fuel]; [lia|]); cbn [riterate_loop]; unfold size.
  - destruct (Z.gtb_spec (Z.abs s) 0); [lia | reflexivity].
  - destruct (Z.gtb_spec (Z.abs s) 0); [|lia].
    destruct (consume_low_bit v s Hb ltac:(lia)) as [r [E T]].
    rewrite E, T.
    rewrite (IH fuel (Z.shiftr v 1));
      [| apply shiftr_wf with s; [assumption | lia | destruct (s <? 0) eqn:B;
           [apply Z.ltb_lt in B | apply Z.ltb_ge in B]; lia]
       | destruct (Z.ltb_spec s 0); lia | lia].
    cbn [seq map]. do 3 f_equal.
    rewrite <- seq_shift, map_map. apply map_ext. intros i.
    rewrite Z.shiftr_spec by lia. f_equal. lia.
Qed.

Lemma iterate_loop_bits (n : nat) :
  forall fuel v s,
    wf (v, s) -> Z.abs s = Z.of_nat n -> (n < fuel)%nat ->
    iterate_loop fuel (v, s)
    = Some (Ok (rev (map (fun i => Z.testbit v (Z.of_nat i)) (seq 0 n)))).
Proof.
  induction n as [|n IH]; intros fuel v s Hb Hs Hf;
    (destruct fuel as [|fuel]; [lia|]); cbn [iterate_loop]; unfold size.
  - destruct (Z.gtb_spec (Z.abs s) 0); [lia | reflexivity].
  - destruct (Z.gtb_spec (Z.abs s) 0); [|lia].
    destruct (shift_top_bit v s Hb ltac:(lia)) as [r [E T]].
    rewrite E, T.
    assert (Hk : Z.abs s - 1 = Z.of_nat n) by lia.
    rewrite (IH fuel (v mod 2 ^ (Z.abs s - 1)));
      [| unfold wf, fst, snd;
         replace (Z.abs (if s <? 0 then - (Z.abs s - 1) else Z.abs s - 1))
           with (Z.abs s - 1) by (destruct (s <? 0); lia);
         apply Z.mod_pos_bound, pow2_pos; lia
       | destruct (s <? 0); lia | lia].
    rewrite seq_S, map_app, rev_app_distr. cbn [map rev app plus].
    rewrite Hk. do 3 f_equal. apply (f_equal (@rev bool)).
    apply map_ext_in. intros i Hi. apply in_seq in Hi.
    apply Z.mod_pow2_bits_low. lia.
Qed.

(** [riterate] yields the bits of a bitmap from the least significant one
    and [iterate] from the most significant one, so one is the reverse of
    the other; both yield as many bits as the bitmap has, signed or not. *)
Theorem iterate_reverses_riterate (b : bitmap) :
  wf b ->
  riterate b = Some (Ok (bits_of b)) /\
  iterate b = Some (Ok (rev (bits_of b))) /\
  Z.of_nat (length (bits_of b)) = size b.
Proof.
  destruct b as [v s]. intros Hb. unfold riterate, iterate, bits_of, size, fst.
  split; [|split].
  - apply riterate_loop_bits; [assumption | lia | lia].
  - apply iterate_loop_bits; [assumption | lia | lia].
  - rewrite length_map, length_seq. lia.
Qed.

Lemma iterate_reverses_riterate_witness :
  wf (6, -4) /\
  riterate (6, -4) = Some (Ok [false; true; true; false]) /\
  iterate (6, -4) = Some (Ok [false; true; true; false]).
Proof.
  assert (H : wf (6, -4)) by (unfold wf; simpl; lia).
  destruct (iterate_reverses_riterate (6, -4) H) as [R [I _]].
  split; [exact H|]. split; [rewrite R | rewrite I]; reflexivity.
Defined.

(** *** The representation invariant *)

Lemma get_wf (b r : bitmap) (position count : Z) :
  get b position count = Ok r -> wf r.
Proof.
  destruct b as [v s]. unfold get.
  destruct (Z.ltb_spec count 0); [discriminate|].
  destruct (Z.ltb_spec position 0); [discriminate|]. cbn [orb].
  destruct (Z.gtb_spec (position + count) (Z.abs s)); [discriminate|].
  rewrite bitrange_mask_ones by assumption.
  intros E. injection E as <-. unfold wf, fst, snd. rewrite Z.abs_eq by assumption.
  set (x := Z.shiftr _ _).
  assert (Ex : x = x mod 2 ^ count) by (unfold x; bits).
  rewrite Ex. apply Z.mod_pos_bound, pow2_pos. assumption.
Qed.

(** Every operation that returns a bitmap returns one that satisfies the
    representation invariant [0 <= integer < 2^|size|], for either
    signedness of the bitmap it is given; the operations that can raise
    are covered for the inputs on which they return. *)
Theorem operations_keep_invariant (b : bitmap) :
  wf b ->
  (forall v s, wf (new v s)) /\
  (forall o, wf (push b o)) /\
  (forall n, wf (add b n) /\ wf (sub b n) /\ wf (mul b n) /\
             wf (grow b n) /\ wf (shrink b n)) /\
  (forall n r, mod_ b n = Ok r -> wf r) /\
  (forall q n r, div q b n = Ok r -> wf r) /\
  (forall o r, insert b o = Ok r -> wf r) /\
  (forall k r, rol b k = Ok r -> wf r) /\
  (forall k r, ror b k = Ok r -> wf r) /\
  (forall p v c r, set b p v c = Ok r -> wf r) /\
  (forall p c r, get b p c = Ok r -> wf r) /\
  (forall n r x, consume b n = Ok (r, x) -> wf r) /\
  (forall n r x, shift b n = Ok (r, x) -> wf r).
Proof.
  intros Hb.
  split; [intros; apply new_wf|].
  split; [intros; apply push_wf|].
  split; [intros n;
          split; [apply add_wf|]; split; [apply sub_wf|];
          split; [apply mul_wf|];
          split; [apply grow_wf | apply shrink_wf]; assumption|].
  split; [intros n r; apply mod_wf|].
  split; [intros q n r; apply div_wf|].
  split; [intros o r; apply insert_wf|].
  split; [intros k r; apply rol_wf|].
  split; [intros k r; apply ror_wf|].
  split; [intros p v c r; apply set_wf; assumption|].
  split; [intros p c r; apply get_wf|].
  split; [intros n r x; apply consume_wf; assumption|].
  intros n r x; apply shift_wf; assumption.
Qed.

Lemma operations_keep_invariant_witness :
  wf (200, -8) /\ wf (push (200, -8) (3, 2)) /\ wf (grow (200, -8) 3).
Proof.
  assert (H : wf (200, -8)) by (unfold wf; simpl; lia).
  destruct (operations_keep_invariant (200, -8) H) as [_ [P [A _]]].
  split; [exact H|]. split; [apply P | apply (A 3)].
Defined.

End BitmapLaws.

Module PintFacts.

Import Bitmap BitmapFacts BitmapLaws Streams Ptype Pint.

(** The number that a list of byte values spells, first one most
    significant. *)
Lemma chr_ord (x : Z) :
  0 <= x < 256 -> exists c, chr x = Ok c /\ ord c = x.
Proof.
  intros Hx. unfold chr.
  destruct (Z.leb_spec 0 x); [|lia]. destruct (Z.ltb_spec x 256); [|lia].
  cbn [andb].
  destruct (Byte.of_N (Z.to_N x)) as [c|] eqn:E.
  - exists c. split; [reflexivity|]. unfold ord.
    apply Byte.to_of_N in E. rewrite E. lia.
  - apply Byte.of_N_None_iff in E. lia.
Qed.

Lemma map_chr_ord (l : list Z) :
  Forall (fun x => 0 <= x < 256) l ->
  exists s, map_chr l = Ok s /\ map ord s = l.
Proof.
  induction 1 as [|x l Hx Hl [s [E M]]].
  - exists []. split; reflexivity.
  - destruct (chr_ord x Hx) as [c [Ec Oc]].
    exists (c :: s). cbn [map_chr]. rewrite Ec, E. cbn [bind map].
    split; [reflexivity | rewrite Oc, M; reflexivity].
Qed.

Lemma reduce_bytes_big_endian (s : bytes) : reduce_bytes s = big_endian s.
Proof.
  unfold reduce_bytes, big_endian.
  assert (G : forall acc, 0 <= acc ->
            fold_left (fun x y => Z.lor (Z.shiftl x 8) (ord y)) s acc
            = fold_left (fun x c => x * 256 + ord c) s acc);
    [|apply G; lia].
  induction s as [|c s IH]; intros acc Hacc; [reflexivity|].
  cbn [fold_left]. pose proof (ord_range c).
  rewrite lor_shiftl_low by (change (2 ^ 8) with 256; lia).
  change (2 ^ 8) with 256. apply IH. lia.
Qed.

(** The digits that the loop of [__setvalue__] takes off the bitmap. *)
Lemma setvalue_loop_digits (n : nat) :
  forall fuel u,
    0 <= u < 2 ^ (8 * Z.of_nat n) -> (n < fuel)%nat ->
    exists l,
      setvalue_loop fuel (u, Z.of_nat n * 8) = Some (Ok l) /\
      List.length l = n /\
      Forall (fun x => 0 <= x < 256) l /\
      fold_left (fun x y => x * 256 + y) (rev l) 0 = u.
Proof.
  induction n as [|n IH]; intros fuel u Hu Hf;
    (destruct fuel as [|fuel]; [lia|]); cbn [setvalue_loop snd].
  - exists []. simpl in Hu. repeat split; try constructor. simpl. lia.
  - destruct (Z.gtb_spec (Z.of_nat (S n) * 8) 0); [|lia].
    assert (Hw : wf (u, Z.of_nat (S n) * 8)).
    { unfold wf, fst, snd. rewrite Z.abs_eq by lia.
      replace (Z.of_nat (S n) * 8) with (8 * Z.of_nat (S n)) by lia. exact Hu. }
    rewrite consume_within_width by (try assumption; lia).
    destruct (Z.ltb_spec (Z.of_nat (S n) * 8) 0); [lia|].
    replace (Z.of_nat (S n) * 8 - 8) with (Z.of_nat n * 8) by lia.
    change (2 ^ 8) with 256.
    destruct (IH fuel (u / 256)) as [l [E [L [F V]]]]; [|lia|].
    { replace (8 * Z.of_nat (S n)) with (8 + 8 * Z.of_nat n) in Hu by lia.
      rewrite Z.pow_add_r in Hu by lia. change (2 ^ 8) with 256 in Hu.
      split; [apply Z.div_pos; lia|].
      apply Z.div_lt_upper_bound; lia. }
    rewrite E. exists (u mod 256 :: l).
    split; [reflexivity|]. split; [simpl; lia|].
    split; [constructor; [apply Z.mod_pos_bound; lia | assumption]|].
    cbn [rev]. rewrite fold_left_app, V. cbn [fold_left].
    rewrite (Z.div_mod u 256) at 3 by lia. lia.
Qed.

Lemma big_endian_map_ord (s : bytes) :
  big_endian s = fold_left (fun x y => x * 256 + y) (map ord s) 0.
Proof.
  unfold big_endian. generalize 0 as acc.
  induction s as [|c s IH]; intros acc; [reflexivity|].
  cbn [map fold_left]. apply IH.
Qed.

(** What [__setvalue__] stores: the little-endian string [s] of the
    integer reduced to the width, reversed for a big-endian type. *)
Lemma setvalue_stores (i : integer_t) (v : Z) :
  exists s,
    setvalue i v
    = Some (Ok (mk_integer_t (order i) (position i) (length i)
                  (Some (match order i with
                         | bigendian => rev s
                         | littleendian => s
                         end)))) /\
    List.length s = length i /\
    big_endian (rev s) = v mod 2 ^ (8 * Z.of_nat (length i)).
Proof.
  unfold setvalue.
  set (n := length i).
  assert (Hmask : Z.shiftl 1 (Z.of_nat n * 8) - 1 = 2 ^ (8 * Z.of_nat n) - 1).
  { rewrite Z.shiftl_mul_pow2 by lia. f_equal. rewrite Z.mul_1_l. f_equal. lia. }
  rewrite Hmask, land_mask by lia.
  set (u := v mod 2 ^ (8 * Z.of_nat n)).
  assert (Hu : 0 <= u < 2 ^ (8 * Z.of_nat n))
    by (apply Z.mod_pos_bound, pow2_pos; lia).
  assert (Hnew : Bitmap.new u (Z.of_nat n * 8) = (u, Z.of_nat n * 8)).
  { unfold Bitmap.new. rewrite Z.abs_eq by lia.
    replace (Z.of_nat n * 8) with (8 * Z.of_nat n) by lia.
    rewrite mod_mask_small by lia. destruct (8 * Z.of_nat n <? 0); reflexivity. }
  rewrite Hnew.
  destruct (setvalue_loop_digits n (S n) u Hu ltac:(lia)) as [l [E [L [F V]]]].
  rewrite E, L, Nat.sub_diag. cbn [repeat]. rewrite app_nil_r.
  destruct (map_chr_ord l F) as [s [Es Ms]].
  rewrite Es. exists s. split; [reflexivity|].
  split; [rewrite <- L, <- Ms, length_map; reflexivity|].
  rewrite big_endian_map_ord, map_rev, Ms. exact V.
Qed.

Lemma setvalue_then_int (i : integer_t) (v : Z) (parent : parent_view) :
  exists i' s,
    setvalue i v = Some (Ok i') /\
    order i' = order i /\ position i' = position i /\ length i' = length i /\
    value i' = Some s /\ List.length s = length i /\
    serialize parent (as_type i') = Ok s /\
    int parent i' = Ok (v mod 2 ^ (8 * Z.of_nat (length i))).
Proof.
  destruct (setvalue_stores i v) as [s [E [L V]]].
  eexists. eexists. split; [exact E|]. cbn [order position length value].
  repeat split.
  - destruct (order i); [rewrite length_rev|]; exact L.
  - unfold as_type. cbn [position length value serialize type_initializedQ].
    destruct (order i); rewrite ?length_rev, L, Nat.leb_refl; cbn [negb];
      rewrite Nat.ltb_irrefl; reflexivity.
  - unfold int, as_type.
    cbn [position length value order serialize initializedQ type_initializedQ].
    destruct (order i); rewrite ?length_rev, L, Nat.leb_refl; cbn [negb];
      rewrite Nat.ltb_irrefl; cbn [bind]; rewrite reduce_bytes_big_endian.
    + rewrite V. reflexivity.
    + rewrite V. reflexivity.
Qed.

(** Setting an unsigned integer and reading it back gives the integer
    reduced to the width of the type, in either byte order; the stored
    string has exactly [length] characters, so the instance is
    initialized and serializes to that string. *)
Theorem int_setvalue (i : integer_t) (v : Z) (parent : parent_view) :
  exists i' s,
    setvalue i v = Some (Ok i') /\
    order i' = order i /\ position i' = position i /\ length i' = length i /\
    value i' = Some s /\ List.length s = length i /\
    serialize parent (as_type i') = Ok s /\
    int parent i' = Ok (v mod 2 ^ (8 * Z.of_nat (length i))).
Proof. exact (setvalue_then_int i v parent). Qed.

(** The two byte orders store the same characters in opposite order. *)
Theorem byteorder_reverses (position : Z) (length : nat) (value : option bytes)
  (v : Z) :
  exists s,
    setvalue (mk_integer_t littleendian position length value) v
      = Some (Ok (mk_integer_t littleendian position length (Some s))) /\
    setvalue (mk_integer_t bigendian position length value) v
      = Some (Ok (mk_integer_t bigendian position length (Some (rev s)))).
Proof.
  destruct (setvalue_stores (mk_integer_t littleendian position length value) v)
    as [s [E [L V]]].
  exists s. split; [exact E|].
  unfold setvalue in *. cbn [Pint.length Pint.order Pint.position] in *.
  destruct (setvalue_loop _ _) as [[res|e]|]; try discriminate.
  destruct (map_chr _) as [s'|e]; try discriminate.
  injection E as ->. reflexivity.
Qed.

(** Setting a signed integer that fits the width and reading it back
    gives the integer, in either byte order. *)
Theorem sint_int_setvalue (i : integer_t) (v : Z) (parent : parent_view) :
  - 2 ^ (8 * Z.of_nat (length i) - 1) <= v < 2 ^ (8 * Z.of_nat (length i) - 1) ->
  exists i',
    sint_setvalue i v = Some (Ok i') /\
    length i' = length i /\
    sint_int parent i' = Ok v.
Proof.
  intros Hv. set (n := length i) in *.
  assert (Hn : (0 < n)%nat).
  { destruct n; [|lia]. simpl in Hv. lia. }
  set (w := 8 * Z.of_nat n) in *.
  assert (Hw : 2 ^ w = 2 * 2 ^ (w - 1)).
  { replace w with (1 + (w - 1)) at 1 by lia.
    rewrite Z.pow_add_r by (unfold w; lia). reflexivity. }
  pose proof (pow2_pos (w - 1) ltac:(unfold w; lia)) as Pw.
  unfold sint_setvalue. fold n. fold w.
  set (res := if v <? 0 then _ else _).
  assert (Hres : res mod 2 ^ w = v mod 2 ^ w).
  { unfold res. rewrite land_mask by (unfold w; lia).
    destruct (v <? 0); [|apply Z.mod_mod; lia].
    rewrite <- !Z.land_ones by (unfold w; lia).
    replace (2 ^ w) with (Z.shiftl 1 w)
      by (rewrite Z.shiftl_mul_pow2 by (unfold w; lia); lia).
    assert (0 <= w) by (unfold w; lia). bits. }
  destruct (setvalue_then_int i res parent)
    as [i' [s [E [_ [_ [L [Ev [Ls [_ I]]]]]]]]].
  exists i'. split; [exact E|]. split; [exact L|].
  unfold sint_int. rewrite L. fold n. fold w.
  assert (Hinit : initializedQ (as_type i') = true).
  { unfold as_type. cbn [initializedQ]. rewrite Ev. cbn [type_initializedQ].
    rewrite L, Ls. apply Nat.leb_refl. }
  rewrite Hinit, I. cbn [negb bind]. fold n. fold w. rewrite Hres.
  set (u := v mod 2 ^ w).
  assert (Hu : 0 <= u < 2 ^ w) by (apply Z.mod_pos_bound; lia).
  assert (Huw : wf (u, - w))
    by (unfold wf, fst, snd; replace (Z.abs (- w)) with w by lia; exact Hu).
  pose proof (value_signed u (- w) Huw ltac:(unfold w; lia)) as Hval.
  unfold Bitmap.value in Hval.
  destruct (Z.ltb_spec (- w) 0); [|unfold w in *; lia].
  replace (Z.abs (- w)) with w in Hval by lia.
  destruct (truthy (Z.land u (2 ^ (w - 1)))); rewrite Hval; f_equal;
    unfold u;
    (destruct (Z.ltb_spec v 0);
     [ replace (v mod 2 ^ w) with (v + 2 ^ w)
         by (apply Z.mod_unique with (-1); lia)
     | rewrite Z.mod_small by lia ]);
    match goal with |- context [?a <? ?b] => destruct (Z.ltb_spec a b) end; lia.
Qed.

Lemma sint_int_setvalue_witness :
  - 2 ^ (8 * Z.of_nat (length (mk_integer_t littleendian 0 2 None)) - 1)
    <= -2 < 2 ^ (8 * Z.of_nat (length (mk_integer_t littleendian 0 2 None)) - 1) /\
  sint_setvalue (mk_integer_t littleendian 0 2 None) (-2)
    = Some (Ok (mk_integer_t littleendian 0 2 (Some [xfe; xff]))) /\
  sint_int None (mk_integer_t littleendian 0 2 (Some [xfe; xff])) = Ok (-2).
Proof.
  assert (H : - 2 ^ (8 * Z.of_nat (length (mk_integer_t littleendian 0 2 None)) - 1)
              <= -2 < 2 ^ (8 * Z.of_nat (length (mk_integer_t littleendian 0 2 None)) - 1))
    by (simpl; lia).
  destruct (sint_int_setvalue (mk_integer_t littleendian 0 2 None) (-2) None H)
    as [i' [E [_ I]]].
  split; [exact H|].
  assert (E' : sint_setvalue (mk_integer_t littleendian 0 2 None) (-2)
               = Some (Ok (mk_integer_t littleendian 0 2 (Some [xfe; xff]))))
    by reflexivity.
  split; [exact E'|].
  rewrite E in E'. injection E' as <-. exact I.
Defined.

(** *** Enumerations *)

Lemma byValue_in (values : list (String.string * Z)) (v : Z) (k : String.string) :
  byValue values v = Some k -> In (k, v) values.
Proof.
  induction values as [|[k0 v0] rest IH]; [discriminate|].
  cbn [byValue]. destruct (Z.eqb_spec v0 v) as [-> | Hne].
  - intros E. injection E as ->. left. reflexivity.
  - intros E. right. apply IH. exact E.
Qed.

Lemma byName_in (values : list (String.string * Z)) (v : Z) (k : String.string) :
  byName values k = Some v -> In (k, v) values.
Proof.
  induction values as [|[k0 v0] rest IH]; [discriminate|].
  cbn [byName]. destruct (String.eqb_spec k0 k) as [-> | Hne].
  - intros E. injection E as ->. left. reflexivity.
  - intros E. right. apply IH. exact E.
Qed.

(** Looking up the value of an enumeration by a name and the name by the
    value are inverse to each other where the names, respectively the
    values, of [_values_] are distinct; a name or value that is not
    defined is not found. *)
Theorem byName_byValue (values : list (String.string * Z)) (v : Z)
  (k : String.string) :
  (NoDup (map fst values) -> byValue values v = Some k ->
   byName values k = Some v) /\
  (NoDup (map snd values) -> byName values k = Some v ->
   byValue values v = Some k) /\
  (~ In k (map fst values) -> byName values k = None) /\
  (~ In v (map snd values) -> byValue values v = None).
Proof.
  split; [|split; [|split]].
  - induction values as [|[k0 v0] rest IH]; [discriminate|].
    cbn [map fst byValue byName]. intros Hnd. inversion Hnd as [|? ? Hout Hrest].
    subst. destruct (Z.eqb_spec v0 v) as [-> | Hne].
    + intros E. injection E as ->. rewrite String.eqb_refl. reflexivity.
    + intros E. destruct (String.eqb_spec k0 k) as [-> | Hk].
      * exfalso. apply Hout. apply byValue_in in E.
        apply (in_map fst) in E. exact E.
      * apply IH; assumption.
  - induction values as [|[k0 v0] rest IH]; [discriminate|].
    cbn [map snd byValue byName]. intros Hnd. inversion Hnd as [|? ? Hout Hrest].
    subst. destruct (String.eqb_spec k0 k) as [-> | Hne].
    + intros E. injection E as ->. rewrite Z.eqb_refl. reflexivity.
    + intros E. destruct (Z.eqb_spec v0 v) as [-> | Hv].
      * exfalso. apply Hout. apply byName_in in E.
        apply (in_map snd) in E. exact E.
      * apply IH; assumption.
  - induction values as [|[k0 v0] rest IH]; [reflexivity|].
    cbn [map fst byName]. intros Hout.
    destruct (String.eqb_spec k0 k) as [-> | Hne].
    + exfalso. apply Hout. left. reflexivity.
    + apply IH. intros Hin. apply Hout. right. exact Hin.
  - induction values as [|[k0 v0] rest IH]; [reflexivity|].
    cbn [map snd byValue]. intros Hout.
    destruct (Z.eqb_spec v0 v) as [-> | Hne].
    + exfalso. apply Hout. left. reflexivity.
    + apply IH. intros Hin. apply Hout. right. exact Hin.
Qed.

Module EnumExample.

Import String.

Lemma byName_byValue_witness :
  NoDup (map fst [("aa"%string, 10); ("bb"%string, 11)]) /\
  byValue [("aa"%string, 10); ("bb"%string, 11)] 11 = Some "bb"%string /\
  byName [("aa"%string, 10); ("bb"%string, 11)] "bb"%string = Some 11.
Proof.
  assert (N : NoDup (map fst [("aa"%string, 10); ("bb"%string, 11)])).
  { repeat constructor; simpl; intuition discriminate. }
  assert (E : byValue [("aa"%string, 10); ("bb"%string, 11)] 11 = Some "bb"%string)
    by reflexivity.
  split; [exact N|]. split; [exact E|].
  exact (proj1 (byName_byValue _ 11 "bb"%string) N E).
Defined.

End EnumExample.

End PintFacts.

Module ProviderStoreFacts.

Import Provider ProviderFacts.

(** Bytes stored at a cursor inside the data (or at its end) are read back
    by seeking to where they were written: the store returns their count
    and moves the cursor past them, the bytes before the cursor are kept,
    and the data grows only by what was written past its end.  With the
    cursor beyond the end the bytes are appended at the end instead. *)
Theorem consume_store (p : string) (d : bytes) :
  let n := Z.of_nat (length d) in
  let p1 := fst (string_store p d) in
  snd (string_store p d) = Ok n /\
  offset p1 = offset p + n /\
  (0 <= offset p <= string_size p -> d <> [] ->
   string_consume (snd (string_seek p1 (offset p))) n = (p1, Ok d) /\
   firstn (Z.to_nat (offset p)) (data p1) = firstn (Z.to_nat (offset p)) (data p) /\
   string_size p1 = Z.max (string_size p) (offset p + n)) /\
  (string_size p < offset p -> data p1 = data p ++ d).
Proof.
  destruct p as [dat ofs]. cbv zeta.
  unfold string_store, string_size, string_seek.
  cbn [fst snd offset data].
  set (n := Z.of_nat (length d)). set (len := Z.of_nat (length dat)).
  split; [reflexivity|]. split; [reflexivity|]. split.
  - intros Ho Hd.
    assert (Hn : 0 < n) by (unfold n; destruct d; [congruence | simpl; lia]).
    assert (Hassign : py_slice_assign dat ofs (ofs + n) d
                      = firstn (Z.to_nat ofs) dat ++ d
                        ++ skipn (Z.to_nat (Z.min (ofs + n) len)) dat).
    { unfold py_slice_assign, py_index. fold len.
      destruct (Z.ltb_spec ofs 0); [lia|]. destruct (Z.ltb_spec (ofs + n) 0); [lia|].
      rewrite (Z.min_l ofs len) by lia.
      rewrite Z.max_r by lia. reflexivity. }
    rewrite Hassign.
    set (new := firstn _ dat ++ d ++ skipn _ dat).
    assert (Hfirst : length (firstn (Z.to_nat ofs) dat) = Z.to_nat ofs)
      by (rewrite length_firstn; unfold len in *; lia).
    assert (Hlen : Z.of_nat (length new) = Z.max len (ofs + n)).
    { unfold new. rewrite !length_app, Hfirst, length_skipn.
      fold n. unfold len in *. lia. }
    split; [|split].
    + rewrite string_consume_spec by lia.
      rewrite Hlen.
      destruct (Z.leb_spec (Z.max len (ofs + n)) ofs); [lia|].
      destruct (Z.leb_spec (ofs + n) (Z.max len (ofs + n))); [|lia].
      unfold new.
      assert (Hread : firstn (Z.to_nat n)
                (skipn (Z.to_nat ofs)
                   (firstn (Z.to_nat ofs) dat ++ d
                      ++ skipn (Z.to_nat (Z.min (ofs + n) len)) dat)) = d).
      { rewrite skipn_app, Hfirst, Nat.sub_diag.
        rewrite (@skipn_all2 _ (Z.to_nat ofs) (firstn (Z.to_nat ofs) dat))
          by (rewrite Hfirst; lia).
        cbn [skipn app].
        rewrite firstn_app, (@firstn_all2 _ (Z.to_nat n) d) by (unfold n; lia).
        replace (Z.to_nat n - length d)%nat with 0%nat by (unfold n; lia).
        cbn [firstn]. apply app_nil_r. }
      rewrite Hread. reflexivity.
    + unfold new. rewrite firstn_app, Hfirst, Nat.sub_diag. cbn [firstn].
      rewrite app_nil_r, firstn_firstn, Nat.min_id. reflexivity.
    + exact Hlen.
  - intros Ho. unfold py_slice_assign, py_index. fold len.
    destruct (Z.ltb_spec ofs 0); [unfold len in *; lia|].
    destruct (Z.ltb_spec (ofs + n) 0); [unfold n, len in *; lia|].
    rewrite (Z.min_r ofs len) by lia.
    rewrite Z.max_l by (unfold n; lia).
    rewrite firstn_all2, skipn_all2 by (unfold len; lia).
    rewrite app_nil_r. reflexivity.
Qed.

Lemma consume_store_witness :
  0 <= offset (mk_string [x41; x42; x43] 2) <= string_size (mk_string [x41; x42; x43] 2) /\
  [x58; x59] <> [] /\
  fst (string_store (mk_string [x41; x42; x43] 2) [x58; x59])
    = mk_string [x41; x42; x58; x59] 4 /\
  string_consume (mk_string [x41; x42; x58; x59] 2) 2
    = (mk_string [x41; x42; x58; x59] 4, Ok [x58; x59]).
Proof.
  assert (H : 0 <= offset (mk_string [x41; x42; x43] 2)
              <= string_size (mk_string [x41; x42; x43] 2))
    by (unfold string_size; simpl; lia).
  assert (N : [x58; x59] <> ([] : bytes)) by discriminate.
  destruct (consume_store (mk_string [x41; x42; x43] 2) [x58; x59])
    as [_ [_ [Hin _]]].
  destruct (Hin H N) as [C _].
  split; [exact H|]. split; [exact N|]. split; [reflexivity|]. exact C.
Defined.

End ProviderStoreFacts.

Module UtilsFacts.

Import Utils.

Lemma not_in_spec (terminator : bytes) (n : byte) :
  not_in terminator n = true <-> ~ In n terminator.
Proof.
  unfold not_in. rewrite negb_true_iff, <- not_true_iff_false, existsb_exists.
  split; intros H C; apply H.
  - exists n. split; [exact C | apply Byte.byte_dec_lb; reflexivity].
  - destruct C as [x [Hin E]]. apply Byte.byte_dec_bl in E. subst x. exact Hin.
Qed.

Lemma takewhile_split {A : Type} (f : A -> bool) (l : list A) :
  exists rest,
    l = takewhile f l ++ rest /\
    Forall (fun x => f x = true) (takewhile f l) /\
    (rest = [] \/ exists x rest', rest = x :: rest' /\ f x = false).
Proof.
  induction l as [|x l [rest [E [F R]]]].
  - exists []. repeat split; [constructor | left; reflexivity].
  - cbn [takewhile]. destruct (f x) eqn:Fx.
    + exists rest. split; [cbn [app]; f_equal; exact E|].
      split; [constructor; assumption | exact R].
    + exists (x :: l). split; [reflexivity|]. split; [constructor|].
      right. exists x, l. split; [reflexivity | exact Fx].
Qed.

(** [strdup] returns the part of the string before its first terminator
    character: a prefix that holds no terminator character and that is
    followed by one, unless the string has none and is returned whole. *)
Theorem strdup_prefix (string terminator : bytes) :
  exists rest,
    string = strdup string terminator ++ rest /\
    Forall (fun c => ~ In c terminator) (strdup string terminator) /\
    (rest = [] \/ exists c rest', rest = c :: rest' /\ In c terminator).
Proof.
  destruct (takewhile_split (not_in terminator) string) as [rest [E [F R]]].
  assert (Hs : strdup string terminator = takewhile (not_in terminator) string).
  { unfold strdup. remember (takewhile (not_in terminator) string) as t eqn:Et.
    clear Et F R.
    unfold Provider.py_slice, Provider.py_index.
    destruct (Z.ltb_spec 0 0); [lia|].
    destruct (Z.ltb_spec (Z.of_nat (length t)) 0); [lia|].
    assert (Hlen : (length t <= length string)%nat).
    { rewrite E, length_app. lia. }
    rewrite Z.min_l, Z.min_l by lia.
    rewrite Z.sub_0_r, Nat2Z.id. cbn [Z.to_nat skipn].
    rewrite E, firstn_app, Nat.sub_diag, firstn_all. cbn [firstn].
    apply app_nil_r. }
  rewrite Hs. exists rest. split; [exact E|]. split.
  - eapply Forall_impl; [|exact F]. intros c Hc. apply not_in_spec. exact Hc.
  - destruct R as [R | [c [rest' [R Hc]]]]; [left; exact R|].
    right. exists c, rest'. split; [exact R|].
    destruct (in_dec Byte.byte_eq_dec c terminator) as [Hin | Hout]; [exact Hin|].
    apply not_in_spec in Hout. congruence.
Qed.

End UtilsFacts.

Module MacheapLaws.

Import Bitmap BitmapFacts BitmapLaws Macheap MacheapFacts Streams.

(** The chunks that [splitter] cuts off a whole number of bytes. *)
Lemma splitter_loop_bytes (n : nat) :
  forall fuel u,
    0 <= u < 2 ^ (8 * Z.of_nat n) -> (n < fuel)%nat ->
    splitter_loop fuel (u, Z.of_nat n * 8) 8 1
    = Some (Ok (map (fun d => (d, 8)) (bytes_of u n))).
Proof.
  unfold bytes_of.
  induction n as [|n IH]; intros fuel u Hu Hf;
    (destruct fuel as [|fuel]; [lia|]); cbn [splitter_loop].
  - reflexivity.
  - destruct (Z.ltb_spec (Z.of_nat (S n) * 8) 8); [lia|].
    assert (Hw : wf (u, Z.of_nat (S n) * 8)).
    { unfold wf, fst, snd. rewrite Z.abs_eq by lia.
      replace (Z.of_nat (S n) * 8) with (8 * Z.of_nat (S n)) by lia. exact Hu. }
    rewrite consume_within_width by (try assumption; lia).
    destruct (Z.ltb_spec (Z.of_nat (S n) * 8) 0); [lia|].
    replace (Z.of_nat (S n) * 8 - 8) with (Z.of_nat n * 8) by lia.
    change (2 ^ 8) with 256.
    rewrite (IH fuel (u / 256)); [| |lia].
    + cbn [seq map]. change (8 * 1) with 8.
      change (256 ^ Z.of_nat 0) with 1. rewrite Z.div_1_r.
      do 3 f_equal. rewrite <- seq_shift, !map_map. apply map_ext. intros i.
      f_equal. f_equal.
      rewrite Z.div_div by (try apply Z.pow_pos_nonneg; lia).
      f_equal. rewrite Nat2Z.inj_succ, Z.pow_succ_r by lia. reflexivity.
    + replace (8 * Z.of_nat (S n)) with (8 + 8 * Z.of_nat n) in Hu by lia.
      rewrite Z.pow_add_r in Hu by lia. change (2 ^ 8) with 256 in Hu.
      split; [apply Z.div_pos; lia|].
      apply Z.div_lt_upper_bound; lia.
Qed.

Lemma fold_add_bytes (l : list Z) :
  forall acc, 0 <= acc < 256 ->
    fold_left add l (acc, 8) = ((acc + fold_right Z.add 0 l) mod 256, 8).
Proof.
  induction l as [|x l IH]; intros acc Hacc.
  - simpl. rewrite Z.add_0_r, Z.mod_small by lia. reflexivity.
  - cbn [fold_left fold_right]. unfold add at 2.
    rewrite shiftl1_mask, land_mask by (simpl; lia).
    change (2 ^ Z.abs 8) with 256.
    rewrite IH by (apply Z.mod_pos_bound; lia).
    f_equal. rewrite Zplus_mod_idemp_l. f_equal. lia.
Qed.

Lemma bytes_of_mod (v : Z) (n : nat) :
  bytes_of (v mod 2 ^ (8 * Z.of_nat n)) n = bytes_of v n.
Proof.
  unfold bytes_of. apply map_ext_in. intros i Hi. apply in_seq in Hi.
  replace (256 ^ Z.of_nat i) with (2 ^ (8 * Z.of_nat i))
    by (rewrite Z.pow_mul_r by lia; reflexivity).
  change 256 with (2 ^ 8).
  rewrite <- !Z.shiftr_div_pow2, <- !Z.land_ones by lia.
  assert (0 <= 8 * Z.of_nat i) by lia.
  assert (8 * Z.of_nat i + 8 <= 8 * Z.of_nat n) by lia.
  modbits.
Qed.

(** The checksum of a pointer is the sum of its bytes, modulo 16. *)
Theorem generate_checksum_byte_sum (size_ : nat) (ptr : Z) :
  generate_checksum (Z.of_nat size_) ptr
  = Some (Ok (fold_right Z.add 0 (bytes_of ptr size_) mod 16)).
Proof.
  unfold generate_checksum, split, splitter.
  set (u := ptr mod 2 ^ (8 * Z.of_nat size_)).
  assert (Hu : 0 <= u < 2 ^ (8 * Z.of_nat size_))
    by (apply Z.mod_pos_bound, pow2_pos; lia).
  assert (Hnew : new ptr (Z.of_nat size_ * 8) = (u, Z.of_nat size_ * 8)).
  { unfold new. rewrite Z.abs_eq by lia.
    replace (Z.of_nat size_ * 8) with (8 * Z.of_nat size_) by lia.
    rewrite land_mask by lia. destruct (8 * Z.of_nat size_ <? 0); reflexivity. }
  rewrite Hnew. cbn [snd]. change (Z.abs 8) with 8.
  change (if 8 <? 0 then -1 else 1) with 1.
  rewrite splitter_loop_bytes by (try assumption; lia).
  rewrite <- map_rev, map_map.
  assert (Hnum : map (fun x => number (x, 8)) (rev (bytes_of u size_))
                 = rev (bytes_of u size_)).
  { transitivity (map (fun x : Z => x) (rev (bytes_of u size_)));
      [apply map_ext; reflexivity | apply map_id]. }
  rewrite Hnum. change (new 0 8) with (0, 8).
  rewrite fold_add_bytes by lia. rewrite Z.add_0_l.
  unfold number, value. cbn [Z.ltb Z.compare].
  change 15 with (2 ^ 4 - 1). rewrite land_mask by lia.
  change (2 ^ 4) with 16.
  assert (Hrev : forall l, fold_right Z.add 0 (rev l) = fold_right Z.add 0 l).
  { intros l. induction l as [|x l IHl]; [reflexivity|].
    cbn [rev fold_right]. rewrite fold_right_app. cbn [fold_right].
    rewrite <- IHl. generalize (rev l) as r. intros r.
    induction r as [|y r IHr]; simpl; lia. }
  rewrite Hrev. unfold u. rewrite bytes_of_mod.
  do 2 f_equal.
  set (x := fold_right Z.add 0 (bytes_of ptr size_)).
  rewrite (Z.mod_eq x 256) by lia.
  replace (x - 256 * (x / 256)) with (x + (- (16 * (x / 256))) * 16) by lia.
  apply Z.mod_add. lia.
Qed.

(** *** The header and in-use bits of the tiny regions *)

Lemma field_bitmap_eq (word : Z) : field_bitmap word = (word mod 2 ^ 32, 32).
Proof.
  unfold field_bitmap, new. change (4 * 8) with 32. change (Z.abs 32) with 32.
  rewrite land_mask by lia. reflexivity.
Qed.

Lemma div_mod_32 (j k : Z) :
  32 * k <= j < 32 * k + 32 -> j / 32 = k /\ j mod 32 = j - 32 * k.
Proof.
  intros Hj. pose proof (Z.div_mod j 32 ltac:(lia)).
  pose proof (Z.mod_pos_bound j 32 ltac:(lia)). lia.
Qed.

Lemma item_aggregate_bits (fields : list Z) :
  exists h,
    item_aggregate fields = Ok (h, 32 * Z.of_nat (length fields)) /\
    0 <= h < 2 ^ (32 * Z.of_nat (length fields)) /\
    forall j, 0 <= j < 32 * Z.of_nat (length fields) ->
      Z.testbit h j = Z.testbit (nth (Z.to_nat (j / 32)) fields 0) (j mod 32).
Proof.
  unfold item_aggregate.
  induction fields as [|w fields [h [E [B Bits]]]] using rev_ind.
  - exists 0. split; [reflexivity|]. simpl. split; [lia | intros; lia].
  - rewrite fold_left_app, E. cbn [fold_left bind].
    rewrite field_bitmap_eq. unfold insert.
    set (k := Z.of_nat (length fields)) in *.
    destruct (Z.ltb_spec 32 0); [lia|].
    destruct (Z.ltb_spec (32 * k) 0); [unfold k in *; lia|].
    assert (Hw : 0 <= w mod 2 ^ 32 < 2 ^ 32) by (apply Z.mod_pos_bound; lia).
    rewrite !mod_mask_small by (assumption || lia).
    rewrite length_app. cbn [length].
    replace (32 * Z.of_nat (length fields + 1)) with (32 + 32 * k)
      by (unfold k; lia).
    eexists. split; [reflexivity|].
    split.
    + rewrite lor_shiftl_low by (assumption || lia).
      rewrite Z.pow_add_r by lia. pose proof (pow2_pos (32 * k) ltac:(lia)). nia.
    + intros j Hj. rewrite Z.lor_spec.
      destruct (Z.ltb_spec j (32 * k)) as [Hlow | Hhigh].
      * rewrite Z.shiftl_spec, Z.testbit_neg_r, Bits by lia. cbn [orb].
        f_equal. symmetry. apply app_nth1.
        assert (0 <= j / 32 < k).
        { split; [apply Z.div_pos; lia|]. apply Z.div_lt_upper_bound; lia. }
        unfold k in *. lia.
      * destruct (div_mod_32 j k ltac:(lia)) as [Hd Hm].
        rewrite Z.shiftl_spec, (small_bits_high h (32 * k) j) by lia.
        rewrite orb_false_r, Hd, Hm.
        rewrite app_nth2 by (unfold k; lia).
        replace (Z.to_nat k - length fields)%nat with 0%nat by (unfold k; lia).
        cbn [nth]. apply Z.mod_pow2_bits_low. lia.
Qed.

Lemma get_one_bit (h s p : Z) :
  0 <= p -> p + 1 <= Z.abs s ->
  get (h, s) p 1 = Ok (Z.b2z (Z.testbit h p), 1).
Proof.
  intros Hp Hs. unfold get.
  destruct (Z.ltb_spec 1 0); [lia|]. destruct (Z.ltb_spec p 0); [lia|].
  cbn [orb]. destruct (Z.gtb_spec (p + 1) (Z.abs s)); [lia|].
  rewrite bitrange_mask_ones by lia.
  do 2 f_equal. apply Z.bits_inj'. intros i Hi.
  rewrite Z.shiftr_spec, Z.land_spec, Z.shiftl_spec by lia.
  replace (i + p - p) with i by lia.
  destruct (Z.eq_dec i 0) as [-> | Hne].
  - rewrite Z.add_0_l. change (Z.testbit (Z.ones 1) 0) with true.
    rewrite andb_true_r. destruct (Z.testbit h p); reflexivity.
  - rewrite Z.ones_spec_high by lia. rewrite andb_false_r.
    destruct (Z.testbit h p); simpl.
    + change 1 with (2 ^ 0). symmetry. apply Z.pow2_bits_false. lia.
    + symmetry. apply Z.bits_0.
Qed.

(** [freeQ(index)] reads bit [index % 32] of element [index / 32], the
    pair that [get(index)] returns: of the [header] fields to check that
    a block starts at the index ([ValueError] if none does), and of the
    [inuse] fields for the answer. *)
Theorem freeQ_reads_bits (header inuse : list Z) (index : Z) :
  length header = length inuse ->
  0 <= index < 32 * Z.of_nat (length header) ->
  let element := Z.to_nat (fst (meta_get index)) in
  let bit := snd (meta_get index) in
  freeQ header inuse index
  = if Z.testbit (nth element header 0) bit
    then Ok (negb (Z.testbit (nth element inuse 0) bit))
    else Raise ValueError.
Proof.
  intros Hlen Hi. cbv zeta. unfold meta_get, fst, snd, freeQ, check_header.
  destruct (item_aggregate_bits header) as [h [Eh [Bh Hh]]].
  destruct (item_aggregate_bits inuse) as [u [Eu [Bu Hu]]].
  rewrite Eh. cbn [bind].
  rewrite get_one_bit by (rewrite ?Z.abs_eq; lia). cbn [bind].
  rewrite Hh by lia.
  destruct (Z.testbit (nth (Z.to_nat (index / 32)) header 0) (index mod 32));
    [|reflexivity].
  cbn [Z.b2z value Z.ltb Z.compare Z.eqb bind].
  rewrite Eu. cbn [bind].
  rewrite get_one_bit by (rewrite ?Z.abs_eq; lia). cbn [bind].
  rewrite Hu by lia.
  destruct (Z.testbit (nth (Z.to_nat (index / 32)) inuse 0) (index mod 32));
    reflexivity.
Qed.

Lemma freeQ_reads_bits_witness :
  length [1; 4] = length [0; 4] /\
  0 <= 34 < 32 * Z.of_nat (length [1; 4]) /\
  freeQ [1; 4] [0; 4] 34 = Ok false /\ freeQ [1; 4] [0; 4] 0 = Ok true /\
  freeQ [1; 4] [0; 4] 5 = Raise ValueError.
Proof.
  assert (L : length [1; 4] = length [0; 4]) by reflexivity.
  assert (H : 0 <= 34 < 32 * Z.of_nat (length [1; 4])) by (simpl; lia).
  split; [exact L|]. split; [exact H|].
  split; [exact (freeQ_reads_bits [1; 4] [0; 4] 34 L H)|].
  split; reflexivity.
Defined.

(** The accessors [get_pointer] and [get_checksum] cut the rotated word in
    two: a pointer that is a multiple of 16 and a checksum below 16, which
    add up to the rotated word.  [decode] returns that pointer, and warns
    exactly when that checksum is not the one generated from the pointer
    and the cookie. *)
Theorem decode_agrees_with_accessors (size_ cookie pu : Z) :
  0 < size_ ->
  exists t p c d g,
    rol (new pu (size_ * 8)) 4 = Ok t /\
    get_pointer size_ pu = Ok p /\
    get_checksum size_ pu = Ok c /\
    p + c = fst t /\ p mod 16 = 0 /\ 0 <= c < 16 /\
    decode size_ cookie pu = Some (Ok d) /\
    generate_checksum size_ (Z.lxor p cookie) = Some (Ok g) /\
    pointer d = p /\ warned d = negb (c =? g).
Proof.
  intros Hs. unfold decode, get_pointer, get_checksum.
  assert (E : exists v, new pu (size_ * 8) = (v, size_ * 8)).
  { unfold new. destruct (size_ * 8 <? 0); eexists; reflexivity. }
  destruct E as [v Ev]. rewrite Ev.
  assert (R : exists w, rol (v, size_ * 8) 4 = Ok (w, size_ * 8) /\
                        0 <= w < 2 ^ (size_ * 8)).
  { unfold rol.
    destruct (Z.ltb_spec 4 0); [lia|].
    destruct (Z.ltb_spec (size_ * 8) 0); [lia|].
    destruct (Z.ltb_spec (size_ * 8 - 4) 0); [lia|]. cbn [orb].
    eexists. split; [reflexivity|].
    rewrite land_mask by lia. apply Z.mod_pos_bound, pow2_pos. lia. }
  destruct R as [w [Ew Bw]]. rewrite Ew. cbn [bind].
  assert (N : number (w, size_ * 8) = w).
  { unfold number, value. destruct (Z.ltb_spec (size_ * 8) 0); [lia | reflexivity]. }
  rewrite N.
  assert (Bp : 0 <= Z.land w (Z.lnot 15) < 2 ^ (size_ * 8))
    by (apply land_bound; [lia | assumption]).
  assert (Ep : pointer_set size_ (Z.land w (Z.lnot 15)) = Z.land w (Z.lnot 15)).
  { unfold pointer_set, new.
    assert (Z.abs (size_ * 8) = size_ * 8) as -> by lia.
    destruct (size_ * 8 <? 0); unfold fst; apply mod_mask_small; (assumption || lia). }
  destruct (generate_checksum_total size_ (Z.lxor (Z.land w (Z.lnot 15)) cookie))
    as [g Eg]; [lia|].
  rewrite Eg.
  exists (w, size_ * 8), (Z.land w (Z.lnot 15)), (Z.land w 15).
  eexists. exists g.
  split; [reflexivity|]. split; [reflexivity|]. split; [reflexivity|].
  cbn [fst pointer warned].
  split; [|split; [|split; [|split; [reflexivity|split; [exact Eg|split;
    [exact Ep | reflexivity]]]]]].
  - rewrite <- Z.or_to_plus by (change 15 with (Z.ones 4); bits).
    change 15 with (Z.ones 4). bits.
  - change 16 with (2 ^ 4). rewrite <- Z.land_ones by lia.
    change 15 with (Z.ones 4). bits.
  - change 15 with (2 ^ 4 - 1). rewrite land_mask by lia.
    apply Z.mod_pos_bound. lia.
Qed.

Lemma decode_agrees_with_accessors_witness :
  0 < 8 /\
  get_pointer 8 17375506680932366216 = Ok 1306945789274585216 /\
  get_checksum 8 17375506680932366216 = Ok 15.
Proof.
  assert (H : 0 < 8) by lia.
  destruct (decode_agrees_with_accessors 8 171 17375506680932366216 H)
    as [t [p [c [d [g [_ [P [C _]]]]]]]].
  split; [exact H|].
  assert (P' : get_pointer 8 17375506680932366216 = Ok 1306945789274585216)
    by reflexivity.
  assert (C' : get_checksum 8 17375506680932366216 = Ok 15) by reflexivity.
  split; [exact P' | exact C'].
Defined.

End MacheapLaws.

Module LoadFacts.

Import Provider Ptype Layout PtypeFacts ProviderFacts PstructFacts.

Lemma firstn_add {A : Type} (a b : nat) (l : list A) :
  firstn (a + b) l = firstn a l ++ firstn b (skipn a l).
Proof.
  revert l. induction a as [|a IH]; intros l; [reflexivity|].
  destruct l as [|x l]; [cbn; rewrite firstn_nil; reflexivity|].
  cbn [Nat.add firstn skipn app]. rewrite IH. reflexivity.
Qed.

(** Deserializing fresh atomic fields from a block that covers them all. *)
Lemma deserialize_children_full (lens : list nat) :
  forall (ofs : Z) (block : bytes) (total expected : nat),
    (list_sum lens <= length block)%nat ->
    (total + list_sum lens = expected)%nat ->
    deserialize_children expected (atoms ofs lens) block total
    = (filled ofs lens block, None, expected).
Proof.
  induction lens as [|a rest IH]; intros ofs block total expected Hlen Hsum.
  - cbn in Hsum. cbn. f_equal. lia.
  - cbn [list_sum fold_right] in Hlen, Hsum. fold (list_sum rest) in *.
    cbn [atoms filled deserialize_children blocksize].
    fold (deserialize_children expected).
    assert (Hfirst : length (firstn a block) = a)
      by (rewrite length_firstn; lia).
    destruct (Nat.ltb_spec total expected) as [Hlt | Hge].
    + cbn [deserialize_block]. rewrite Hfirst, Nat.ltb_irrefl.
      rewrite IH by (rewrite ?length_skipn; lia).
      rewrite firstn_firstn, Nat.min_id. reflexivity.
    + assert (a = 0%nat) by lia. subst a.
      cbn [Nat.eqb negb deserialize_block firstn length Nat.ltb Nat.leb skipn].
      rewrite IH by (cbn [skipn]; lia).
      rewrite Z.add_0_r. reflexivity.
Qed.

Lemma sum_blocksize_filled (lens : list nat) :
  forall ofs block, sum_blocksize (filled ofs lens block) = Ok (list_sum lens).
Proof.
  induction lens as [|len rest IH]; intros ofs block; [reflexivity|].
  cbn [filled sum_blocksize blocksize bind list_sum fold_right].
  fold sum_blocksize. rewrite IH. reflexivity.
Qed.

Lemma size_filled (lens : list nat) :
  forall ofs block,
    (list_sum lens <= length block)%nat ->
    list_sum (map size (filled ofs lens block)) = list_sum lens.
Proof.
  induction lens as [|len rest IH]; intros ofs block Hlen; [reflexivity|].
  cbn [list_sum fold_right] in Hlen. fold (list_sum rest) in *.
  cbn [filled map list_sum fold_right size].
  fold (list_sum (map size (filled (ofs + Z.of_nat len) rest (skipn len block)))).
  fold (list_sum rest).
  rewrite IH by (rewrite length_skipn; lia).
  rewrite type_size_some, length_firstn. lia.
Qed.

Lemma initialized_filled (lens : list nat) :
  forall ofs block,
    (list_sum lens <= length block)%nat ->
    forallb initializedQ (filled ofs lens block) = true.
Proof.
  induction lens as [|len rest IH]; intros ofs block Hlen; [reflexivity|].
  cbn [list_sum fold_right] in Hlen. fold (list_sum rest) in *.
  cbn [filled forallb initializedQ type_initializedQ].
  rewrite IH by (rewrite length_skipn; lia).
  rewrite length_firstn, andb_true_r. apply Nat.leb_le. lia.
Qed.

Lemma serialize_children_filled (own : result nat) (position : Z)
  (lens : list nat) :
  forall ofs block,
    (list_sum lens <= length block)%nat ->
    serialize_children own position (filled ofs lens block)
    = Ok (firstn (list_sum lens) block).
Proof.
  induction lens as [|len rest IH]; intros ofs block Hlen; [reflexivity|].
  cbn [list_sum fold_right] in Hlen |- *. fold (list_sum rest) in *.
  cbn [filled serialize_children serialize type_initializedQ].
  fold (serialize_children own position).
  rewrite IH by (rewrite length_skipn; lia).
  rewrite length_firstn.
  replace (len <=? Nat.min len (length block))%nat with true
    by (symmetry; apply Nat.leb_le; lia).
  cbn [negb].
  replace (Nat.min len (length block) <? len)%nat with false
    by (symmetry; apply Nat.ltb_ge; lia).
  cbn [bind]. rewrite firstn_add. reflexivity.
Qed.

Lemma nth_error_filled (lens : list nat) :
  forall ofs block (k len : nat),
    nth_error lens k = Some len ->
    nth_error (filled ofs lens block) k
    = Some (type_ (ofs + Z.of_nat (list_sum (firstn k lens))) len
              (Some (firstn len (skipn (list_sum (firstn k lens)) block)))).
Proof.
  induction lens as [|a rest IH]; intros ofs block k len Hk.
  - destruct k; discriminate.
  - destruct k as [|k].
    + cbn in Hk. injection Hk as <-. cbn. rewrite Z.add_0_r. reflexivity.
    + cbn [nth_error] in Hk. cbn [filled nth_error firstn list_sum fold_right].
      fold (list_sum (firstn k rest)).
      rewrite (IH _ _ k len Hk), skipn_skipn.
      replace (ofs + Z.of_nat a + Z.of_nat (list_sum (firstn k rest)))
        with (ofs + Z.of_nat (a + list_sum (firstn k rest))) by lia.
      replace (list_sum (firstn k rest) + a)%nat
        with (a + list_sum (firstn k rest))%nat by lia.
      reflexivity.
Qed.

(** A container whose fields were all filled from a block. *)
Lemma filled_container (position ofs : Z) (lens : list nat) (block : bytes) :
  (list_sum lens <= length block)%nat ->
  let i := container_ position (Some (filled ofs lens block)) in
  blocksize i = Ok (list_sum lens) /\
  size i = list_sum lens /\
  initializedQ i = true /\
  serialize None i = Ok (firstn (list_sum lens) block).
Proof.
  intros Hlen i. unfold i.
  assert (Hb : blocksize (container_ position (Some (filled ofs lens block)))
               = Ok (list_sum lens))
    by (rewrite blocksize_container; apply sum_blocksize_filled).
  assert (Hs : size (container_ position (Some (filled ofs lens block)))
               = list_sum lens)
    by (cbn [size]; apply size_filled; assumption).
  split; [exact Hb|]. split; [exact Hs|]. split.
  - change (initializedQ (container_ position (Some (filled ofs lens block))))
      with (forallb initializedQ (filled ofs lens block) &&
            match blocksize (container_ position (Some (filled ofs lens block))) with
            | Ok bs => (bs <=? size (container_ position
                                       (Some (filled ofs lens block))))%nat
            | Raise _ => false
            end).
    rewrite initialized_filled, Hb, Hs by assumption.
    apply Nat.leb_refl.
  - change (serialize None (container_ position (Some (filled ofs lens block))))
      with (let own := blocksize (container_ position (Some (filled ofs lens block))) in
            let children := serialize_children own position (filled ofs lens block) in
            match own with
            | Raise _ => children
            | Ok bs =>
                do result <- children;
                do bs <- clamp_to_parent None position (Z.of_nat bs);
                if bs >? maxint then Ok result
                else if Z.of_nat (List.length result) <? bs
                then Ok (result ++ padding_fill (bs - Z.of_nat (List.length result)))
                else Ok result
            end).
    cbv zeta. rewrite Hb, serialize_children_filled by assumption.
    cbn [bind clamp_to_parent]. rewrite length_firstn.
    destruct (Z.of_nat (list_sum lens) >? maxint); [reflexivity|].
    destruct (Z.ltb_spec (Z.of_nat (Nat.min (list_sum lens) (length block)))
                (Z.of_nat (list_sum lens))); [lia | reflexivity].
Qed.

(** The contiguous load of a container of fresh atomic fields from a
    string provider that holds all their bytes. *)
Lemma container_load_atoms (ambient passed : bool) (lens : list nat)
  (data : bytes) (position cursor : Z) :
  0 <= position -> (0 < list_sum lens)%nat ->
  (Z.to_nat position + list_sum lens <= length data)%nat ->
  container_load (mk_string data cursor) ambient passed None None
                 (container_ position (Some (atoms position lens)))
  = (mk_string data (position + Z.of_nat (list_sum lens)),
     container_ position
       (Some (filled position lens (skipn (Z.to_nat position) data))),
     None, [], None).
Proof.
  intros Hpos Hsome Hfit.
  unfold container_load, base_load, own_blocksize.
  rewrite blocksize_container, sum_blocksize_atoms.
  cbn [seek consume string_provider string_seek getoffset snd
       Provider.data Provider.offset].
  rewrite string_consume_spec by lia.
  destruct (Z.leb_spec (Z.of_nat (length data)) position); [lia|].
  destruct (Z.leb_spec (position + Z.of_nat (list_sum lens))
              (Z.of_nat (length data))); [|lia].
  rewrite deserialize_block_container.
  unfold own_blocksize. rewrite blocksize_container, sum_blocksize_atoms.
  rewrite Nat2Z.id.
  rewrite deserialize_children_full
    by (rewrite ?length_firstn, ?length_skipn; lia).
  rewrite Nat.ltb_irrefl.
  assert (Hsame : forall ofs ls (b : bytes) n,
            (list_sum ls <= n)%nat ->
            filled ofs ls (firstn n b) = filled ofs ls b).
  { intros ofs ls. revert ofs. induction ls as [|a r IHr]; intros ofs b n Hn;
      [reflexivity|].
    cbn [list_sum fold_right] in Hn. fold (list_sum r) in Hn.
    cbn [filled]. rewrite firstn_firstn, Nat.min_l by lia.
    f_equal. rewrite skipn_firstn_comm. apply IHr. lia. }
  rewrite Hsame by lia. reflexivity.
Qed.

(** A structure of atomic fields loaded from a string provider that holds
    all its bytes: the load raises and logs nothing and leaves the
    provider past the structure; the instance is initialized, its size is
    its blocksize, every field holds its own bytes at its own offset, and
    serializing the instance gives back the bytes that were read. *)
Theorem struct_load_round_trip (lens : list nat) (data : bytes)
  (position cursor : Z) :
  0 <= position -> (0 < list_sum lens)%nat ->
  (Z.to_nat position + list_sum lens <= length data)%nat ->
  exists i value,
    Loader.load (mk_string data cursor) false None None
                (pstruct_shape (map type_shape lens)) position
    = (mk_string data (position + Z.of_nat (list_sum lens)), i, None, [], None) /\
    i = container_ position (Some value) /\
    initializedQ i = true /\
    blocksize i = Ok (list_sum lens) /\ size i = list_sum lens /\
    serialize None i
    = Ok (firstn (list_sum lens) (skipn (Z.to_nat position) data)) /\
    forall (k len : nat),
      nth_error lens k = Some len ->
      nth_error value k =
      Some (type_ (position + Z.of_nat (list_sum (firstn k lens))) len
              (Some (firstn len
                       (skipn (Z.to_nat position + list_sum (firstn k lens))
                              data)))).
Proof.
  intros Hpos Hsome Hfit.
  cbn [Loader.load]. unfold Pstruct.load.
  rewrite create_fields_atoms.
  rewrite container_load_atoms by assumption.
  destruct (filled_container position position lens
              (skipn (Z.to_nat position) data))
    as [Hb [Hs [Hi Hser]]]; [rewrite length_skipn; lia|].
  eexists. eexists. split; [reflexivity|]. split; [reflexivity|].
  split; [exact Hi|]. split; [exact Hb|]. split; [exact Hs|].
  split; [exact Hser|].
  intros k len Hk. rewrite (nth_error_filled lens _ _ k len Hk), skipn_skipn.
  replace (list_sum (firstn k lens) + Z.to_nat position)%nat
    with (Z.to_nat position + list_sum (firstn k lens))%nat by lia.
  reflexivity.
Qed.

Lemma struct_load_round_trip_witness :
  0 <= 1 /\ (0 < list_sum [2; 1])%nat /\
  (Z.to_nat 1 + list_sum [2; 1] <= length [x41; x42; x43; x44; x45])%nat /\
  exists i,
    Loader.load (mk_string [x41; x42; x43; x44; x45] 0) false None None
                (pstruct_shape (map type_shape [2; 1]%nat)) 1
    = (mk_string [x41; x42; x43; x44; x45] 4, i, None, [], None) /\
    serialize None i = Ok [x42; x43; x44].
Proof.
  assert (H0 : 0 <= 1) by lia.
  assert (H1 : (0 < list_sum [2; 1])%nat) by (simpl; lia).
  assert (H2 : (Z.to_nat 1 + list_sum [2; 1]
                <= length [x41; x42; x43; x44; x45])%nat) by (simpl; lia).
  split; [exact H0|]. split; [exact H1|]. split; [exact H2|].
  destruct (struct_load_round_trip [2; 1]%nat [x41; x42; x43; x44; x45] 1 0
              H0 H1 H2) as [i [value [E [_ [_ [_ [_ [S _]]]]]]]].
  exists i. split; [exact E | exact S].
Defined.

(** *** Arrays of a fixed length *)

Lemma create_elements_atoms {P : Type} `{provider P}
  (load_element : P -> Z -> P * instance * option exn * list log_entry)
  (len count : nat) :
  forall (src : P) (ofs : Z),
    Parray.create_elements load_element (new (type_shape len)) false
                           src count ofs
    = (src, atoms ofs (repeat len count), None, []).
Proof.
  induction count as [|count IH]; intros src ofs; [reflexivity|].
  cbn [Parray.create_elements new blocksize repeat atoms].
  rewrite IH. reflexivity.
Qed.

Lemma list_sum_repeat (len count : nat) :
  list_sum (repeat len count) = (count * len)%nat.
Proof.
  induction count as [|count IH]; [reflexivity|].
  cbn [repeat list_sum fold_right]. fold (list_sum (repeat len count)).
  rewrite IH. lia.
Qed.

Lemma firstn_repeat (len count k : nat) :
  (k <= count)%nat -> firstn k (repeat len count) = repeat len k.
Proof.
  revert count. induction k as [|k IH]; intros count Hk; [reflexivity|].
  destruct count as [|count]; [lia|].
  cbn [repeat firstn]. rewrite IH by lia. reflexivity.
Qed.

(** An array of [count] atomic elements of [len] bytes loaded from a
    string provider that holds all its bytes: the load raises and logs
    nothing, element [j] holds the [len] bytes at [position + j * len],
    the array is initialized, and serializing it gives back the bytes
    that were read. *)
Theorem array_load_round_trip (len count : nat) (data : bytes)
  (position cursor : Z) :
  0 <= position -> (0 < count * len)%nat ->
  (Z.to_nat position + count * len <= length data)%nat ->
  exists i value,
    Loader.load (mk_string data cursor) false None None
                (parray_shape (type_shape len) count) position
    = (mk_string data (position + Z.of_nat (count * len)), i, None, [], None) /\
    i = container_ position (Some value) /\
    length value = count /\
    initializedQ i = true /\
    blocksize i = Ok (count * len)%nat /\ size i = (count * len)%nat /\
    serialize None i
    = Ok (firstn (count * len) (skipn (Z.to_nat position) data)) /\
    forall j, (j < count)%nat ->
      nth_error value j = Some (element data position len j).
Proof.
  intros Hpos Hsome Hfit.
  cbn [Loader.load]. unfold Parray.type_load. cbn [iscontainer].
  rewrite create_elements_atoms.
  pose proof (list_sum_repeat len count) as Hsum.
  rewrite container_load_atoms by (rewrite ?Hsum; assumption).
  destruct (filled_container position position (repeat len count)
              (skipn (Z.to_nat position) data))
    as [Hb [Hs [Hi Hser]]]; [rewrite length_skipn, Hsum; lia|].
  rewrite Hsum in *.
  eexists. eexists. split; [reflexivity|]. split; [reflexivity|].
  split.
  { clear. generalize (skipn (Z.to_nat position) data) as block.
    generalize position at 1 as ofs.
    induction count as [|count IH]; intros ofs block; [reflexivity|].
    cbn [repeat filled length]. rewrite IH. reflexivity. }
  split; [exact Hi|]. split; [exact Hb|]. split; [exact Hs|].
  split; [exact Hser|].
  intros j Hj.
  assert (Hnth : nth_error (repeat len count) j = Some len).
  { rewrite nth_error_repeat by assumption. reflexivity. }
  rewrite (nth_error_filled _ _ _ j len Hnth), skipn_skipn.
  rewrite firstn_repeat, list_sum_repeat by lia.
  unfold element.
  replace (j * len + Z.to_nat position)%nat
    with (Z.to_nat position + j * len)%nat by lia.
  reflexivity.
Qed.

Lemma array_load_round_trip_witness :
  0 <= 0 /\ (0 < 2 * 2)%nat /\
  (Z.to_nat 0 + 2 * 2 <= length [x41; x42; x43; x44; x45])%nat /\
  exists i,
    Loader.load (mk_string [x41; x42; x43; x44; x45] 0) false None None
                (parray_shape (type_shape 2) 2) 0
    = (mk_string [x41; x42; x43; x44; x45] 4, i, None, [], None) /\
    i = container_ 0 (Some [type_ 0 2 (Some [x41; x42]);
                            type_ 2 2 (Some [x43; x44])]) /\
    serialize None i = Ok [x41; x42; x43; x44].
Proof.
  assert (H0 : 0 <= 0) by lia.
  assert (H1 : (0 < 2 * 2)%nat) by lia.
  assert (H2 : (Z.to_nat 0 + 2 * 2 <= length [x41; x42; x43; x44; x45])%nat)
    by (simpl; lia).
  split; [exact H0|]. split; [exact H1|]. split; [exact H2|].
  destruct (array_load_round_trip 2 2 [x41; x42; x43; x44; x45] 0 0 H0 H1 H2)
    as [i [value [E [Ei [_ [_ [_ [_ [S _]]]]]]]]].
  exists i. split; [exact E|]. split; [|exact S].
  assert (E' : Loader.load (mk_string [x41; x42; x43; x44; x45] 0) false None None
                 (parray_shape (type_shape 2) 2) 0
               = (mk_string [x41; x42; x43; x44; x45] 4,
                  container_ 0 (Some [type_ 0 2 (Some [x41; x42]);
                                      type_ 2 2 (Some [x43; x44])]),
                  None, [], None)) by reflexivity.
  rewrite E in E'. injection E' as ->. reflexivity.
Defined.

End LoadFacts.

Module DynamicLaws.

Import Dynamic.

(** With an alignment that is a power of two, the padding of an [align]
    field is shorter than the alignment and ends on a multiple of it, so
    the field that follows is aligned.  An [align] field that has no
    parent, or is not among its parent's fields, has no padding. *)
Theorem align_reaches_boundary (k : Z) (p : parent) (idx : nat) :
  (0 <= k -> self_index p = Some idx ->
   0 <= align_blocksize (2 ^ k) (Some p) < 2 ^ k /\
   (field_offset p idx + align_blocksize (2 ^ k) (Some p)) mod 2 ^ k = 0) /\
  (self_index p = None -> forall size, align_blocksize size (Some p) = 0) /\
  (forall size, align_blocksize size None = 0).
Proof.
  split; [|split; [|reflexivity]].
  - intros Hk Hi. unfold align_blocksize, field_offset. rewrite Hi.
    set (o := parent_offset p + sum_before idx (parent_blocksizes p)).
    assert (Hp : 0 < 2 ^ k) by (apply Z.pow_pos_nonneg; lia).
    replace (2 ^ k - 1) with (Z.ones k) by (rewrite Z.ones_equiv; lia).
    rewrite Z.land_ones by assumption.
    split; [apply Z.mod_pos_bound; assumption|].
    rewrite Z.add_mod_idemp_r by lia.
    replace (o + - o) with 0 by lia. apply Z.mod_0_l. lia.
  - intros Hi size. unfold align_blocksize. rewrite Hi. reflexivity.
Qed.

Lemma align_reaches_boundary_witness :
  0 <= 3 /\ self_index (mk_parent 16 [3; 0] (Some 1%nat)) = Some 1%nat /\
  align_blocksize (2 ^ 3) (Some (mk_parent 16 [3; 0] (Some 1%nat))) = 5 /\
  (field_offset (mk_parent 16 [3; 0] (Some 1%nat)) 1
   + align_blocksize (2 ^ 3) (Some (mk_parent 16 [3; 0] (Some 1%nat)))) mod 2 ^ 3
  = 0.
Proof.
  assert (H0 : 0 <= 3) by lia.
  split; [exact H0|]. split; [reflexivity|]. split; [reflexivity|].
  exact (proj2 (proj1 (align_reaches_boundary 3 (mk_parent 16 [3; 0] (Some 1%nat)) 1)
                 H0 eq_refl)).
Defined.

End DynamicLaws.

Module ProxyFacts.

Import Provider Ptype ProviderFacts LoadFacts.

(** Reading through a proxy provider: two reads in a row return what one
    read of both amounts returns, namely the serialized bytes of the
    instance from the cursor on, and leave the cursor at the same place;
    the instance behind the proxy is not changed.  A read that would pass
    the end of the serialized bytes raises [ConsumeError] and leaves the
    cursor where it was. *)
Theorem proxy_consume_composes (p : proxy) (buf : bytes) (a b : Z) :
  serialize (proxy_parent p) (proxy_type p) = Ok buf ->
  0 <= proxy_offset p -> 0 <= a -> 0 <= b ->
  (proxy_offset p + a + b <= Z.of_nat (length buf) ->
   exists x y p1 p2,
     proxy_consume p a = (p1, Ok x) /\
     proxy_consume p1 b = (p2, Ok y) /\
     proxy_consume p (a + b) = (p2, Ok (x ++ y)) /\
     x ++ y = firstn (Z.to_nat (a + b)) (skipn (Z.to_nat (proxy_offset p)) buf) /\
     proxy_type p2 = proxy_type p /\
     proxy_offset p2 = proxy_offset p + a + b) /\
  (Z.of_nat (length buf) < proxy_offset p + a ->
   proxy_consume p a = (p, Raise ConsumeError)).
Proof.
  destruct p as [t parent o]. cbn [proxy_parent proxy_type proxy_offset].
  intros Hbuf Ho Ha Hb. split.
  - intros Hfit.
    assert (Hone : forall o' n, 0 <= o' -> 0 <= n ->
              o' + n <= Z.of_nat (length buf) ->
              proxy_consume (mk_proxy t parent o') n
              = (mk_proxy t parent (o' + n),
                 Ok (firstn (Z.to_nat n) (skipn (Z.to_nat o') buf)))).
    { intros o' n Ho' Hn Hle. unfold proxy_consume.
      cbn [proxy_parent proxy_type proxy_offset]. rewrite Hbuf.
      destruct (Z.geb_spec n 0); [|lia]. destruct (Z.geb_spec o' 0); [|lia].
      destruct (Z.leb_spec (o' + n) (Z.of_nat (length buf))); [|lia].
      cbn [andb]. rewrite py_slice_within by lia.
      replace (o' + n - o') with n by lia. reflexivity. }
    assert (Hcat : firstn (Z.to_nat a) (skipn (Z.to_nat o) buf)
                   ++ firstn (Z.to_nat b) (skipn (Z.to_nat (o + a)) buf)
                   = firstn (Z.to_nat (a + b)) (skipn (Z.to_nat o) buf)).
    { rewrite (Z2Nat.inj_add a b), firstn_add, skipn_skipn by lia.
      do 3 f_equal. lia. }
    exists (firstn (Z.to_nat a) (skipn (Z.to_nat o) buf)),
           (firstn (Z.to_nat b) (skipn (Z.to_nat (o + a)) buf)),
           (mk_proxy t parent (o + a)), (mk_proxy t parent (o + a + b)).
    split; [apply Hone; lia|]. split; [apply Hone; lia|].
    split; [rewrite Hone, Hcat by lia; do 2 f_equal; lia|].
    split; [exact Hcat|]. split; reflexivity.
  - intros Hpast. unfold proxy_consume.
    cbn [proxy_parent proxy_type proxy_offset]. rewrite Hbuf.
    destruct (Z.leb_spec (o + a) (Z.of_nat (length buf))); [lia|].
    rewrite andb_false_r. reflexivity.
Qed.

Lemma proxy_consume_composes_witness :
  serialize None Layout.ABCD = Ok [x41; x42; x43; x44] /\
  0 <= proxy_offset (mk_proxy Layout.ABCD None 1) /\ 0 <= 1 /\ 0 <= 2 /\
  proxy_consume (mk_proxy Layout.ABCD None 1) (1 + 2)
  = (mk_proxy Layout.ABCD None 4, Ok [x42; x43; x44]) /\
  proxy_consume (mk_proxy Layout.ABCD None 1) 4
  = (mk_proxy Layout.ABCD None 1, Raise ConsumeError).
Proof.
  assert (S : serialize (proxy_parent (mk_proxy Layout.ABCD None 1))
                (proxy_type (mk_proxy Layout.ABCD None 1))
              = Ok [x41; x42; x43; x44]) by reflexivity.
  assert (H0 : 0 <= proxy_offset (mk_proxy Layout.ABCD None 1)) by (simpl; lia).
  assert (H1 : 0 <= 1) by lia. assert (H2 : 0 <= 2) by lia.
  assert (H4 : 0 <= 4) by lia.
  split; [exact S|]. split; [exact H0|]. split; [exact H1|]. split; [exact H2|].
  split; [reflexivity|].
  apply (proj2 (proxy_consume_composes (mk_proxy Layout.ABCD None 1)
                  [x41; x42; x43; x44] 4 0 S H0 H4 (Z.le_refl 0))).
  simpl. lia.
Defined.

End ProxyFacts.
